(** * Clinic appointment scheduler: the CSP engine of [aiproject.py]

    A shallow embedding of [build_domains], [select_unassigned_var],
    [backtracking_search] (with its inner [backtrack]) and the part of
    [schedule_for_date] that calls them, followed by the properties the
    design document states about them.  [generate_slots] and what
    [add_patient], [on_add_patient] and [on_add_doctor] make of their
    arguments are embedded as well, with further properties of the code at
    the end.

    Conventions of the embedding.
    - Python [int] is [Z]; Python [str] is [string], read as a sequence of
      code points below 256.
    - The dictionary [domains] is iterated ([for other in domains],
      [domains.keys()]), so it is an insertion-ordered association list;
      so is [removed_snapshot].  The dictionaries [assigned],
      [capacity_map], [doctor_capacity] and [patient_meta] are only read,
      written and deleted by key: they are [gmap]s.
    - [backtrack] mutates the three closure variables [domains], [assigned]
      and [capacity_map]; the embedding threads them as a record, together
      with a ghost log of the writes to [capacity_map].
    - The recursion of [backtrack] is bounded by a fuel argument;
      [backtrack_total] shows that the fuel handed out by
      [backtracking_search] is never exhausted.
    - A [datetime] without seconds is a number of minutes; the loop of
      [generate_slots] is bounded by a fuel argument, and [strptime] is the
      regular expression of the format ["%H:%M"].
    - Module [Store] embeds the search a second time, over a store of list
      and dictionary objects, to say what happens to the objects of the
      caller; [store_search_agrees] relates the two embeddings. *)

From Stdlib Require Import ZArith Ascii String.
From Stdlib Require OrderedTypeEx.
From stdpp Require Import gmap strings list fin_maps sorting.

Local Open Scope Z_scope.

(** ** Python primitives *)

Module Py.

(** Truth value of an [int]. *)
Definition truthy_int (z : Z) : bool := negb (z =? 0).

(** Truth value of a value that is [None] or a [str]. *)
Definition truthy_str (o : option string) : bool :=
  match o with
  | Some s => negb (String.eqb s EmptyString)
  | None => false
  end.

Definition code (c : ascii) : Z := Z.of_N (N_of_ascii c).

(** [str.isspace] on one character: TAB..CR, FS..US, space, NEL, NBSP. *)
Definition is_space (c : ascii) : bool :=
  let n := code c in
  ((9 <=? n) && (n <=? 13)) || ((28 <=? n) && (n <=? 32))
  || (n =? 133) || (n =? 160).

(** [str.lower] on one character: A-Z and the Latin-1 capitals. *)
Definition lower_char (c : ascii) : ascii :=
  let n := code c in
  if ((65 <=? n) && (n <=? 90))
     || ((192 <=? n) && (n <=? 222) && negb (n =? 215))
  then ascii_of_N (Z.to_N (n + 32))
  else c.

Fixpoint lower (s : string) : string :=
  match s with
  | EmptyString => EmptyString
  | String c r => String (lower_char c) (lower r)
  end.

Fixpoint lstrip (s : string) : string :=
  match s with
  | EmptyString => EmptyString
  | String c r => if is_space c then lstrip r else s
  end.

Fixpoint rstrip (s : string) : string :=
  match s with
  | EmptyString => EmptyString
  | String c r =>
      match rstrip r with
      | EmptyString => if is_space c then EmptyString else String c EmptyString
      | r' => String c r'
      end
  end.

(** [s.strip()] *)
Definition strip (s : string) : string := rstrip (lstrip s).

(** [s.split(",")]: one more piece than there are commas. *)
Fixpoint split_comma (s : string) : list string :=
  match s with
  | EmptyString => [EmptyString]
  | String c r =>
      if Ascii.eqb c "," then EmptyString :: split_comma r
      else match split_comma r with
           | h :: t => String c h :: t
           | [] => [String c EmptyString]
           end
  end.

(** [x in l] for a list of strings. *)
Definition str_in (x : string) (l : list string) : bool :=
  existsb (String.eqb x) l.

End Py.

(** ** Insertion-ordered dictionaries *)

Section dict.
Context {K V : Type} `{EqDecision K}.

Fixpoint dict_get (d : list (K * V)) (k : K) : option V :=
  match d with
  | [] => None
  | (k', v) :: r => if decide (k = k') then Some v else dict_get r k
  end.

(** [d[k] = v]: an existing key keeps its position, a new one goes last. *)
Fixpoint dict_set (d : list (K * V)) (k : K) (v : V) : list (K * V) :=
  match d with
  | [] => [(k, v)]
  | (k', v') :: r =>
      if decide (k = k') then (k, v) :: r else (k', v') :: dict_set r k v
  end.

Definition dict_keys (d : list (K * V)) : list K := map fst d.

End dict.

(** ** Data model *)

(** A candidate value: [(doctor_id, slot)]. *)
Definition value : Type := Z * string.

(** A row of the [doctors] table. *)
Record doctor := Doctor {
  d_id : Z;
  d_name : string;
  specialty : option string;
  capacity_per_slot : Z
}.

(** A row of the [patients] table.  [needs_specialist] and [emergency] are
    used for their truth value only; [preferred_slots] is the stored
    comma-separated text. *)
Record patient := Patient {
  p_id : Z;
  p_name : string;
  needs_specialist : Z;
  specialty_required : option string;
  emergency : Z;
  preferred_slots : option string
}.

(** A value of [patient_meta]: a dictionary in which the key ['emergency']
    may be present. *)
Record meta := Meta { meta_emergency : option Z }.

(** ** [build_domains] *)

(** Lines 165-168: the parsed preference list of one patient. *)
Definition pref_list (p : patient) : list string :=
  if Py.truthy_str (preferred_slots p) then
    filter (λ s, s ≠ EmptyString)
           (map Py.strip (Py.split_comma (default EmptyString (preferred_slots p))))
  else [].

(** Lines 171-173: the test that makes the doctor loop [continue]. *)
Definition doctor_skipped (p : patient) (d : doctor) : bool :=
  if Py.truthy_int (needs_specialist p) && Py.truthy_str (specialty_required p) then
    negb (Py.truthy_str (specialty d))
    || negb (String.eqb (Py.lower (default EmptyString (specialty d)))
                        (Py.lower (default EmptyString (specialty_required p))))
  else false.

(** Lines 176-177: the test that makes the slot loop [continue]. *)
Definition slot_skipped (pref : list string) (slot : string) : bool :=
  match pref with
  | [] => false
  | _ => negb (Py.str_in slot pref)
  end.

(** Lines 164-178: the list [allowed] built for one patient. *)
Definition allowed (p : patient) (doctors : list doctor) (slots : list string)
  : list value :=
  let pref := pref_list p in
  flat_map (λ d,
    if doctor_skipped p d then []
    else flat_map (λ slot,
           if slot_skipped pref slot then [] else [(d_id d, slot)]) slots)
    doctors.

Definition build_domains (patients : list patient) (doctors : list doctor)
    (slots : list string) : list (Z * list value) :=
  fold_left (λ domains p, dict_set domains (p_id p) (allowed p doctors slots))
            patients [].

(** ** [select_unassigned_var] *)

(** [patient_meta.get(v, {}).get('emergency', 0)], as a truth value. *)
Definition is_emergency (patient_meta : gmap Z meta) (v : Z) : bool :=
  Py.truthy_int
    (default 0 (meta_emergency (default (Meta None) (patient_meta !! v)))).

(** [len(domains[v])]; [v] always comes from [domains.keys()]. *)
Definition domain_len (domains : list (Z * list value)) (v : Z) : nat :=
  length (default [] (dict_get domains v)).

(** Lines 194-200: one turn of the MRV loop on the pair [(best, best_len)]. *)
Definition mrv_step (domains : list (Z * list value))
    (best : option (Z * nat)) (v : Z) : option (Z * nat) :=
  let l := domain_len domains v in
  match best with
  | None => Some (v, l)
  | Some (_, best_len) => if (l <? best_len)%nat then Some (v, l) else best
  end.

Definition select_unassigned_var (domains : list (Z * list value))
    (assigned : gmap Z value) (patient_meta : gmap Z meta) : option Z :=
  let unassigned := filter (λ vid, assigned !! vid = None) (dict_keys domains) in
  let emergencies := filter (λ v, is_emergency patient_meta v) unassigned in
  let pool := match emergencies with [] => unassigned | _ => emergencies end in
  fst <$> fold_left (mrv_step domains) pool None.

(** ** Value ordering *)

(** [l.sort(key=lambda x: x[1])]: Python's sort is stable and compares keys
    with [<] only; a stable insertion sort computes the same list. *)
Fixpoint insert_by_slot (x : value) (l : list value) : list value :=
  match l with
  | [] => [x]
  | y :: r => if String.ltb y.2 x.2 then y :: insert_by_slot x r else x :: y :: r
  end.

Definition sort_by_slot (l : list value) : list value :=
  foldr insert_by_slot [] l.

(** ** [backtracking_search] *)

(** Ghost events, absent from the source: every write to [capacity_map] is
    logged.  [EvPlace] carries the map after line 236; [EvUndo] carries the
    key released, [capacity_map.get(cap_key)] as found on entry to line 268,
    and the map after line 270. *)
Inductive event :=
| EvPlace (cap_key : value) (cm_after : gmap value Z)
| EvUndo (cap_key : value) (found : option Z) (cm_after : gmap value Z).

(** The closure variables of [backtrack], and the ghost log [trace]. *)
Record state := State {
  domains : list (Z * list value);
  assigned : gmap Z value;
  capacity_map : gmap value Z;
  trace : list event
}.

(** What one call of [backtrack] returns: a complete mapping, [None], or
    nothing because the fuel of the embedding ran out. *)
Inductive outcome :=
| OutOfFuel
| NoSchedule
| Schedule (a : gmap Z value).

Section search.
Variable doctor_capacity : gmap Z Z.
Variable patient_meta : gmap Z meta.

(** [doctor_capacity.get(doc_id, 1)] *)
Definition cap_limit (doc_id : Z) : Z := default 1 (doctor_capacity !! doc_id).

(** [capacity_map.get(key, 0)] *)
Definition usage (cm : gmap value Z) (key : value) : Z := default 0 (cm !! key).

(** Line 250: [cur_used >= doctor_capacity.get(d_id, 1)]. *)
Definition saturated (cm : gmap value Z) (v : value) : bool :=
  cap_limit v.1 <=? usage cm v.

(** Lines 241-259: the forward-checking loop over the keys of [domains].
    Returns the flag [failure], the domains and [removed_snapshot]. *)
Fixpoint forward_check (asg : gmap Z value) (cm : gmap value Z)
    (keys : list Z) (doms : list (Z * list value))
    (removed_snapshot : list (Z * list value))
  : bool * list (Z * list value) * list (Z * list value) :=
  match keys with
  | [] => (false, doms, removed_snapshot)
  | other :: rest =>
      if decide (is_Some (asg !! other)) then
        forward_check asg cm rest doms removed_snapshot
      else
        let cur := default [] (dict_get doms other) in
        let new_domain := filter (λ v, ¬ saturated cm v) cur in
        let removed := filter (λ v, saturated cm v) cur in
        let removed_snapshot := dict_set removed_snapshot other removed in
        match new_domain with
        | [] => (true, doms, removed_snapshot)
        | _ => forward_check asg cm rest (dict_set doms other new_domain)
                             removed_snapshot
        end
  end.

(** Lines 272-276: put the recorded values back and sort by slot. *)
Definition restore_one (doms : list (Z * list value))
    (entry : Z * list value) : list (Z * list value) :=
  match entry.2 with
  | [] => doms
  | removed =>
      dict_set doms entry.1
               (sort_by_slot (default [] (dict_get doms entry.1) ++ removed))
  end.

Definition restore_domains (doms : list (Z * list value))
    (removed_snapshot : list (Z * list value)) : list (Z * list value) :=
  fold_left restore_one removed_snapshot doms.

(** Lines 268-270: the decrement with its fallback default [1]. *)
Definition release (cm : gmap value Z) (cap_key : value) : gmap value Z :=
  let c := default 1 (cm !! cap_key) - 1 in
  let cm := <[cap_key := c]> cm in
  if c =? 0 then delete cap_key cm else cm.

(** Lines 235-236: the tentative assignment. *)
Definition place (var : Z) (val : value) (st : state) : state :=
  let cm := <[val := usage (capacity_map st) val + 1]> (capacity_map st) in
  {| domains := domains st;
     assigned := <[var := val]> (assigned st);
     capacity_map := cm;
     trace := trace st ++ [EvPlace val cm] |}.

(** Lines 239-259 on a state. *)
Definition propagate (st : state) : bool * state * list (Z * list value) :=
  let '(failure, doms, removed_snapshot) :=
    forward_check (assigned st) (capacity_map st)
                  (dict_keys (domains st)) (domains st) [] in
  (failure,
   {| domains := doms; assigned := assigned st;
      capacity_map := capacity_map st; trace := trace st |},
   removed_snapshot).

(** Lines 267-276: the undo of one placement. *)
Definition undo (var : Z) (cap_key : value)
    (removed_snapshot : list (Z * list value)) (st : state) : state :=
  let cm := release (capacity_map st) cap_key in
  {| domains := restore_domains (domains st) removed_snapshot;
     assigned := delete var (assigned st);
     capacity_map := cm;
     trace := trace st ++ [EvUndo cap_key (capacity_map st !! cap_key) cm] |}.

(** Lines 226-278: the loop over [domain_vals]; [rec] is the recursive
    call [backtrack()]. *)
Fixpoint try_values (rec : state → outcome * state) (var : Z)
    (domain_vals : list value) (st : state) : outcome * state :=
  match domain_vals with
  | [] => (NoSchedule, st)
  | val :: rest =>
      if cap_limit val.1 <=? usage (capacity_map st) val then
        try_values rec var rest st
      else
        let '(failure, st2, removed_snapshot) := propagate (place var val st) in
        let result := if failure then (NoSchedule, st2) else rec st2 in
        match result with
        | (NoSchedule, st3) =>
            try_values rec var rest (undo var val removed_snapshot st3)
        | found => found
        end
  end.

(** Lines 214-278. *)
Fixpoint backtrack (fuel : nat) (st : state) : outcome * state :=
  match fuel with
  | O => (OutOfFuel, st)
  | S fuel' =>
      if decide (size (assigned st) = length (domains st)) then
        (Schedule (assigned st), st)
      else
        match select_unassigned_var (domains st) (assigned st) patient_meta with
        | None => (NoSchedule, st)
        | Some var =>
            try_values (backtrack fuel') var
              (sort_by_slot (default [] (dict_get (domains st) var))) st
        end
  end.

(** Lines 210-211 and 281: the state in which [backtrack] is first
    called.  The copy [{k: list(v) ...}] has the contents of its source. *)
Definition initial_state (doms : list (Z * list value)) : state :=
  {| domains := map (λ kv, (kv.1, kv.2)) doms;
     assigned := ∅; capacity_map := ∅; trace := [] |}.

(** The run, with the final state of the closure variables. *)
Definition search_run (doms : list (Z * list value)) : outcome * state :=
  backtrack (S (length doms)) (initial_state doms).

Definition backtracking_search (doms : list (Z * list value)) : outcome :=
  (search_run doms).1.

End search.

(** ** [schedule_for_date] *)

(** What [schedule_for_date] hands to its caller, without the wording of the
    success message: a refusal with its message, or the answer of the
    search. *)
Inductive schedule_result :=
| Refused (message : string)
| Searched (o : outcome).

(** Lines 289-310, with the rows returned by [list_doctors()] and
    [list_patients()] and the list returned by [generate_slots] as
    arguments; the database writes around the search are left out. *)
Definition schedule_for_date (doctors : list doctor) (patients : list patient)
    (slots : list string) : schedule_result :=
  match doctors with
  | [] => Refused "No doctors registered."
  | _ =>
      match patients with
      | [] => Refused "No patients registered."
      | _ =>
          let domains := build_domains patients doctors slots in
          let patient_meta :=
            fold_left (λ (m : gmap Z meta) p,
                         <[p_id p := Meta (Some (emergency p))]> m) patients ∅ in
          let doctor_capacity :=
            fold_left (λ (m : gmap Z Z) d,
                         <[d_id d := capacity_per_slot d]> m) doctors ∅ in
          Searched (backtracking_search doctor_capacity patient_meta domains)
      end
  end.

(** ** [backtracking_search] over a store of objects

    A second embedding of the same lines, in which lists and dictionaries
    are objects of a store and variables hold references, so that what the
    function does to the objects of its caller can be stated.  A reference
    is an index into the store; a new object goes to the end.  The ghost log
    of the first embedding is left out. *)

Module Store.

Inductive obj :=
| ListObj (items : list value)
| DictObj (entries : list (Z * nat)).

(** The list at [ref] ([[]] stands for a failed read, which never occurs). *)
Definition read_list (h : list obj) (ref : nat) : list value :=
  match h !! ref with
  | Some (ListObj l) => l
  | _ => []
  end.

(** The entries (key, reference to a list) of the dictionary at [ref]. *)
Definition read_dict (h : list obj) (ref : nat) : list (Z * nat) :=
  match h !! ref with
  | Some (DictObj d) => d
  | _ => []
  end.

(** The dictionary at [ref] with every list read out of the store. *)
Definition contents (h : list obj) (ref : nat) : list (Z * list value) :=
  map (λ kv, (kv.1, read_list h kv.2)) (read_dict h ref).

(** The closure variables of [backtrack]: [domains] is a reference to a
    dictionary object. *)
Record state := State {
  heap : list obj;
  domains : nat;
  assigned : gmap Z value;
  capacity_map : gmap value Z
}.

Section search.
Variable doctor_capacity : gmap Z Z.
Variable patient_meta : gmap Z meta.

(** Lines 241-259.  [domains[other] = new_domain] stores a reference to the
    new list object in the dictionary object. *)
Fixpoint forward_check (asg : gmap Z value) (cm : gmap value Z)
    (keys : list Z) (h : list obj) (dref : nat)
    (removed_snapshot : list (Z * list value))
  : bool * list obj * list (Z * list value) :=
  match keys with
  | [] => (false, h, removed_snapshot)
  | other :: rest =>
      if decide (is_Some (asg !! other)) then
        forward_check asg cm rest h dref removed_snapshot
      else
        let cur := match dict_get (read_dict h dref) other with
                   | Some ref => read_list h ref
                   | None => []
                   end in
        let new_domain := filter (λ v, ¬ saturated doctor_capacity cm v) cur in
        let removed := filter (λ v, saturated doctor_capacity cm v) cur in
        let removed_snapshot := dict_set removed_snapshot other removed in
        match new_domain with
        | [] => (true, h, removed_snapshot)
        | _ =>
            let ref := length h in
            let h := h ++ [ListObj new_domain] in
            let h := <[dref := DictObj (dict_set (read_dict h dref) other ref)]> h in
            forward_check asg cm rest h dref removed_snapshot
        end
  end.

(** Lines 272-276.  [extend] and [sort] change the list object that
    [domains[other]] refers to, in place. *)
Definition restore_one (dref : nat) (h : list obj) (entry : Z * list value)
  : list obj :=
  match entry.2 with
  | [] => h
  | removed =>
      match dict_get (read_dict h dref) entry.1 with
      | Some ref =>
          <[ref := ListObj (sort_by_slot (read_list h ref ++ removed))]> h
      | None => h
      end
  end.

Definition restore_domains (dref : nat) (h : list obj)
    (removed_snapshot : list (Z * list value)) : list obj :=
  fold_left (restore_one dref) removed_snapshot h.

(** Lines 235-236. *)
Definition place (var : Z) (val : value) (st : state) : state :=
  {| heap := heap st;
     domains := domains st;
     assigned := <[var := val]> (assigned st);
     capacity_map :=
       <[val := usage (capacity_map st) val + 1]> (capacity_map st) |}.

(** Lines 239-259 on a state. *)
Definition propagate (st : state) : bool * state * list (Z * list value) :=
  let '(failure, h, removed_snapshot) :=
    forward_check (assigned st) (capacity_map st)
                  (dict_keys (read_dict (heap st) (domains st)))
                  (heap st) (domains st) [] in
  (failure,
   {| heap := h; domains := domains st; assigned := assigned st;
      capacity_map := capacity_map st |},
   removed_snapshot).

(** Lines 267-276. *)
Definition undo (var : Z) (cap_key : value)
    (removed_snapshot : list (Z * list value)) (st : state) : state :=
  {| heap := restore_domains (domains st) (heap st) removed_snapshot;
     domains := domains st;
     assigned := delete var (assigned st);
     capacity_map := release (capacity_map st) cap_key |}.

(** Lines 226-278. *)
Fixpoint try_values (rec : state → outcome * state) (var : Z)
    (domain_vals : list value) (st : state) : outcome * state :=
  match domain_vals with
  | [] => (NoSchedule, st)
  | val :: rest =>
      if cap_limit doctor_capacity val.1 <=? usage (capacity_map st) val then
        try_values rec var rest st
      else
        let '(failure, st2, removed_snapshot) := propagate (place var val st) in
        let result := if failure then (NoSchedule, st2) else rec st2 in
        match result with
        | (NoSchedule, st3) =>
            try_values rec var rest (undo var val removed_snapshot st3)
        | found => found
        end
  end.

(** Lines 214-278.  [list(domains[var])] is a new list, sorted on its own. *)
Fixpoint backtrack (fuel : nat) (st : state) : outcome * state :=
  match fuel with
  | O => (OutOfFuel, st)
  | S fuel' =>
      let view := contents (heap st) (domains st) in
      if decide (size (assigned st) = length view) then
        (Schedule (assigned st), st)
      else
        match select_unassigned_var view (assigned st) patient_meta with
        | None => (NoSchedule, st)
        | Some var =>
            try_values (backtrack fuel') var
              (sort_by_slot (default [] (dict_get view var))) st
        end
  end.

(** Line 281, [{k: list(v) for k, v in domains.items()}]: one new list
    object per entry, then the new dictionary object.  Returns the store and
    the reference to the new dictionary. *)
Definition copy_entry (acc : list obj * list (Z * nat)) (kv : Z * nat)
  : list obj * list (Z * nat) :=
  (acc.1 ++ [ListObj (read_list acc.1 kv.2)], dict_set acc.2 kv.1 (length acc.1)).

Definition copy_domains (h : list obj) (dref : nat) : list obj * nat :=
  let acc := fold_left copy_entry (read_dict h dref) (h, []) in
  (acc.1 ++ [DictObj acc.2], length acc.1).

(** Lines 210-211 and 281: [domains] is rebound to the copy. *)
Definition initial_state (h : list obj) (dref : nat) : state :=
  let '(h', dref') := copy_domains h dref in
  {| heap := h'; domains := dref'; assigned := ∅; capacity_map := ∅ |}.

(** The call [backtracking_search(domains, ...)] in store [h], the argument
    being the reference [dref]. *)
Definition search_run (h : list obj) (dref : nat) : outcome * state :=
  backtrack (S (length (read_dict h dref))) (initial_state h dref).

Definition backtracking_search (h : list obj) (dref : nat) : outcome :=
  (search_run h dref).1.

End search.

End Store.

(** ** [add_patient] and [on_add_patient]: the preference text *)

(** [",".join(l)] *)
Fixpoint join_comma (l : list string) : string :=
  match l with
  | [] => EmptyString
  | [s] => s
  | s :: r => String.append s (String "," (join_comma r))
  end.

(** Line 79 of [add_patient]: what goes into the column [preferred_slots]. *)
Definition stored_preferred_slots (preferred_slots : option (list string))
  : option string :=
  match preferred_slots with
  | Some (s :: r) => Some (join_comma (s :: r))
  | _ => None
  end.

(** The comprehension of lines 168 and 449:
    [[s.strip() for s in text.split(",") if s.strip()]]. *)
Definition parse_slots (text : string) : list string :=
  filter (λ s, s ≠ EmptyString) (map Py.strip (Py.split_comma text)).

(** Line 449 of [on_add_patient]: the list made of the answer [pref] of the
    dialog ([None] when the dialog is cancelled). *)
Definition typed_preferred_slots (pref : option string) : option (list string) :=
  if Py.truthy_str pref then Some (parse_slots (default EmptyString pref))
  else None.

(** Lines 439-450 of [on_add_patient] followed by [add_patient] and
    [list_patients]: the row read back for the answers of the dialogs, [id]
    being the key the table gives the row.  No row is added when the name is
    missing or empty. *)
Definition on_add_patient (id : Z) (name : option string) (needs_spec : bool)
    (spec_answer : option string) (emergency_answer : bool)
    (pref : option string) : option patient :=
  if Py.truthy_str name then
    Some {| p_id := id;
            p_name := default EmptyString name;
            needs_specialist := if needs_spec then 1 else 0;
            specialty_required := if needs_spec then spec_answer else None;
            emergency := if emergency_answer then 1 else 0;
            preferred_slots :=
              stored_preferred_slots (typed_preferred_slots pref) |}
  else None.

(** ** [on_add_doctor] *)

(** Lines 430-435 of [on_add_doctor] followed by [add_doctor] and
    [list_doctors]: the row read back for the answers of the dialogs.
    The two [or] of line 435 replace a missing or empty specialty by the
    empty string, and a missing capacity by 1. *)
Definition on_add_doctor (id : Z) (name specialty_answer : option string)
    (cap : option Z) : option doctor :=
  if Py.truthy_str name then
    Some {| d_id := id;
            d_name := default EmptyString name;
            specialty :=
              Some (if Py.truthy_str specialty_answer
                    then default EmptyString specialty_answer
                    else EmptyString);
            capacity_per_slot :=
              match cap with
              | Some c => if Py.truthy_int c then c else 1
              | None => 1
              end |}
  else None.

(** ** [generate_slots] *)

(** A [datetime] with no seconds is the number of minutes since
    1900-01-01 00:00, the day [strptime] gives to a time of day. *)
Module Time.

(** 0001-01-01 00:00 and 9999-12-31 23:59: day 1 and day 3652059 of the
    calendar, 1900-01-01 being day 693596. *)
Definition datetime_min : Z := (1 - 693596) * 1440.
Definition datetime_max : Z := (3652059 - 693596) * 1440 + 1439.

Definition digit (c : ascii) : option Z :=
  let n := Py.code c in
  if (48 <=? n) && (n <=? 57) then Some (n - 48) else None.

(** Alternatives of a regular expression are tried from left to right. *)
Definition orelse {A} (x y : option A) : option A :=
  match x with
  | Some a => Some a
  | None => y
  end.

(** A class of first digits followed by [\d]. *)
Definition match_two {A} (first_ok : Z → bool) (s : string)
    (k : Z → string → option A) : option A :=
  match s with
  | String a (String b r) =>
      match digit a, digit b with
      | Some x, Some y => if first_ok x then k (10 * x + y) r else None
      | _, _ => None
      end
  | _ => None
  end.

(** [\d] *)
Definition match_one {A} (s : string) (k : Z → string → option A) : option A :=
  match s with
  | String a r =>
      match digit a with
      | Some x => k x r
      | None => None
      end
  | EmptyString => None
  end.

(** The group of [%H]: [2[0-3]|[0-1]\d|\d]. *)
Definition match_hour {A} (s : string) (k : Z → string → option A) : option A :=
  orelse (match_two (λ x, x =? 2) s (λ h r, if h <=? 23 then k h r else None))
         (orelse (match_two (λ x, x <=? 1) s k) (match_one s k)).

(** The group of [%M]: [[0-5]\d|\d]. *)
Definition match_minute {A} (s : string) (k : Z → string → option A) : option A :=
  orelse (match_two (λ x, x <=? 5) s k) (match_one s k).

(** [datetime.strptime(s, "%H:%M")]: the expression has to match a prefix of
    [s], and nothing may remain after the match; [None] stands for
    [ValueError]. *)
Definition strptime (s : string) : option Z :=
  match match_hour s (λ h r,
          match r with
          | String c r' =>
              if Ascii.eqb c ":"
              then match_minute r' (λ m rest, Some (h, m, rest))
              else None
          | EmptyString => None
          end) with
  | Some (h, m, EmptyString) => Some (60 * h + m)
  | _ => None
  end.

Definition digit_char (d : Z) : ascii := ascii_of_N (Z.to_N (48 + d)).

Definition two_digits (n : Z) : string :=
  String (digit_char (n / 10)) (String (digit_char (n mod 10)) EmptyString).

(** [t.strftime("%H:%M")] *)
Definition strftime (t : Z) : string :=
  String.append (two_digits (t mod 1440 / 60))
                (String ":" (two_digits (t mod 60))).

End Time.

Inductive exception := ValueError | OverflowError.

Inductive slots_outcome :=
| Slots (slots : list string)
| Raised (e : exception)
| Unfinished.

(** The loop of lines 147-149; [cur + timedelta(minutes=slot_minutes)]
    raises [OverflowError] when the sum is no date. *)
Fixpoint slots_loop (fuel : nat) (cur e slot_minutes : Z) (slots : list string)
  : slots_outcome :=
  match fuel with
  | O => Unfinished
  | S fuel' =>
      if cur <? e then
        let slots := slots ++ [Time.strftime cur] in
        let cur := cur + slot_minutes in
        if (Time.datetime_min <=? cur) && (cur <=? Time.datetime_max)
        then slots_loop fuel' cur e slot_minutes slots
        else Raised OverflowError
      else Slots slots
  end.

(** [generate_slots]; [fuel] bounds the number of tests of the loop. *)
Definition generate_slots (fuel : nat) (start end_ : string) (slot_minutes : Z)
  : slots_outcome :=
  match Time.strptime start with
  | None => Raised ValueError
  | Some s =>
      match Time.strptime end_ with
      | None => Raised ValueError
      | Some e => slots_loop fuel s e slot_minutes []
      end
  end.

(** * The vocabulary of the properties

    Definitions that are not in the source: they name what the properties
    below talk about. *)

(** [d[k]] read as a list, empty when the key is missing. *)
Definition dvals (d : list (Z * list value)) (k : Z) : list value :=
  default [] (dict_get d k).

(** Ascending by slot: no element has a slot strictly above its successor's. *)
Definition slot_le (x y : value) : Prop := String.ltb y.2 x.2 = false.

(** Number of patients an assignment maps to a (doctor, slot) pair. *)
Definition occupancy (a : gmap Z value) (key : value) : nat :=
  size (filter (λ kv : Z * value, kv.2 = key) a).

(** The sparse counter a pair should have, given the assignment. *)
Definition tracked (a : gmap Z value) (key : value) : option Z :=
  match occupancy a key with
  | O => None
  | S n => Some (Z.of_nat (S n))
  end.

Definition positive_counts (cm : gmap value Z) : Prop :=
  ∀ key c, cm !! key = Some c → 0 < c.

Definition event_ok (e : event) : Prop :=
  match e with
  | EvPlace _ cm => positive_counts cm
  | EvUndo _ found cm => (∃ c, found = Some c ∧ 0 < c) ∧ positive_counts cm
  end.

(** The pool of line 192. *)
Definition pool_of (doms : list (Z * list value)) (asg : gmap Z value)
    (patient_meta : gmap Z meta) : list Z :=
  let unassigned := filter (λ vid, asg !! vid = None) (dict_keys doms) in
  let emergencies := filter (λ v, is_emergency patient_meta v) unassigned in
  match emergencies with [] => unassigned | _ => emergencies end.

(** [v] is the first element of [pool] with the fewest remaining values. *)
Definition first_smallest (doms : list (Z * list value)) (pool : list Z)
    (v : Z) : Prop :=
  ∃ before after,
    pool = before ++ v :: after
    ∧ Forall (λ u, (domain_len doms v < domain_len doms u)%nat) before
    ∧ Forall (λ u, (domain_len doms v ≤ domain_len doms u)%nat) after.

Section invariant.
Variable doctor_capacity : gmap Z Z.

(** What holds of the closure variables whenever [backtrack] is entered and
    whenever it returns. *)
Record Inv (st : state) : Prop := {
  inv_keys : NoDup (dict_keys (domains st));
  inv_assigned : ∀ k, is_Some (assigned st !! k) → k ∈ dict_keys (domains st);
  inv_tracker : ∀ key, capacity_map st !! key = tracked (assigned st) key;
  inv_capacity : ∀ key, (0 < occupancy (assigned st) key)%nat →
                        Z.of_nat (occupancy (assigned st) key) ≤ cap_limit doctor_capacity key.1;
  inv_trace : Forall event_ok (trace st)
}.

(** What one call of [backtrack] with fuel [fuel] guarantees, from [st]. *)
Definition post (fuel : nat) (st : state) (r : outcome * state) : Prop :=
  match r.1 with
  | OutOfFuel => (fuel + size (assigned st) ≤ length (domains st))%nat
  | NoSchedule =>
      assigned r.2 = assigned st
      ∧ capacity_map r.2 = capacity_map st
      ∧ dict_keys (domains r.2) = dict_keys (domains st)
      ∧ (∀ k v, v ∈ dvals (domains r.2) k ↔ v ∈ dvals (domains st) k)
      ∧ Forall event_ok (trace r.2)
  | Schedule a =>
      a = assigned r.2
      ∧ Inv r.2
      ∧ size a = length (domains st)
      ∧ dict_keys (domains r.2) = dict_keys (domains st)
      ∧ assigned st ⊆ a
      ∧ (∀ k v, a !! k = Some v →
                assigned st !! k = Some v ∨ v ∈ dvals (domains st) k)
  end.

End invariant.

(** ** Over the store *)

(** Every list reference of a dictionary was allocated at or after [base]. *)
Definition refs_from (base : nat) (d : list (Z * nat)) : Prop :=
  ∀ k ref, (k, ref) ∈ d → (base ≤ ref)%nat.

(** The objects of [h0] are all still there, unchanged, and the closure
    variable [domains] refers to a dictionary made after them whose lists
    were made after them too. *)
Definition framed (h0 : list Store.obj) (st : Store.state) : Prop :=
  h0 `prefix_of` Store.heap st
  ∧ (length h0 ≤ Store.domains st)%nat
  ∧ refs_from (length h0) (Store.read_dict (Store.heap st) (Store.domains st)).

(** The dictionary object is there, no list object is shared between two
    of its entries, and every entry refers to a list object. *)
Definition wf_store (h : list Store.obj) (dref : nat) : Prop :=
  ∃ d, h !! dref = Some (Store.DictObj d)
       ∧ NoDup (map snd d)
       ∧ ∀ k ref, (k, ref) ∈ d → ∃ l, h !! ref = Some (Store.ListObj l).

(** A state over the store and a state of the first embedding that hold the
    same domains, assignment and capacity map. *)
Definition represents (hs : Store.state) (s : state) : Prop :=
  Store.contents (Store.heap hs) (Store.domains hs) = domains s
  ∧ Store.assigned hs = assigned s
  ∧ Store.capacity_map hs = capacity_map s.

Definition agree (rh : outcome * Store.state) (r : outcome * state) : Prop :=
  rh.1 = r.1 ∧ represents rh.2 r.2
  ∧ wf_store (Store.heap rh.2) (Store.domains rh.2).

(** ** Inputs of the worked examples *)

Section example_inputs.
Local Open Scope string_scope.
Local Open Scope Z_scope.

(** Two doctors, two slots; patient 1 is the emergency, patients 2 and 3 can
    only go to doctor 2 at 09:00, patient 4 accepts anything. *)
Definition reorder_doctors : list doctor :=
  [Doctor 1 "Alice" (Some "Cardiology") 1; Doctor 2 "Bob" (Some "General") 1].

Definition reorder_patients : list patient :=
  [Patient 1 "Ann" 0 None 1 None;
   Patient 2 "Ben" 1 (Some "general") 0 (Some "09:00");
   Patient 3 "Cal" 1 (Some "general") 0 (Some "09:00");
   Patient 4 "Dee" 0 None 0 None].

Definition reorder_domains : list (Z * list value) :=
  build_domains reorder_patients reorder_doctors ["09:00"; "09:30"].

Definition reorder_capacity : gmap Z Z := {[1 := 1; 2 := 1]}.

Definition reorder_meta : gmap Z meta :=
  {[1 := Meta (Some 1); 2 := Meta (Some 0); 3 := Meta (Some 0); 4 := Meta (Some 0)]}.

(** A store of a caller: two list objects, each shared by two
    entries of the dictionary at reference 2. *)
Definition shared_store : list Store.obj :=
  [Store.ListObj [(1, "09:00"); (1, "09:30"); (2, "09:00"); (2, "09:30")];
   Store.ListObj [(2, "09:00")];
   Store.DictObj [(1, 0%nat); (2, 1%nat); (3, 1%nat); (4, 0%nat)]].

End example_inputs.

(** ** Schedules *)

(** A complete, admissible schedule for [doms]: every key of [doms] has a
    pair taken from its domain, nothing else has one, and no (doctor, slot)
    pair holds more patients than the doctor's capacity. *)
Definition valid_schedule (doctor_capacity : gmap Z Z)
    (doms : list (Z * list value)) (sol : gmap Z value) : Prop :=
  (∀ k, k ∈ dict_keys doms → ∃ v, sol !! k = Some v ∧ v ∈ dvals doms k)
  ∧ (∀ k, is_Some (sol !! k) → k ∈ dict_keys doms)
  ∧ (∀ key, (0 < occupancy sol key)%nat →
            Z.of_nat (occupancy sol key) ≤ cap_limit doctor_capacity key.1).

(** [sol] can still be reached from the state [st]: it extends the
    assignment, and the pair it gives an unassigned patient is still in that
    patient's domain. *)
Definition reachable_schedule (st : state) (sol : gmap Z value) : Prop :=
  assigned st ⊆ sol
  ∧ (∀ k, k ∈ dict_keys (domains st) → assigned st !! k = None →
          ∃ v, sol !! k = Some v ∧ v ∈ dvals (domains st) k).

(** No counter of the capacity map is above the capacity of its doctor. *)
Definition within_capacity (doctor_capacity : gmap Z Z) (cm : gmap value Z) : Prop :=
  ∀ key c, cm !! key = Some c → c ≤ cap_limit doctor_capacity key.1.

(** The map an event carries is within capacity. *)
Definition event_within (doctor_capacity : gmap Z Z) (e : event) : Prop :=
  match e with
  | EvPlace _ cm => within_capacity doctor_capacity cm
  | EvUndo _ _ cm => within_capacity doctor_capacity cm
  end.


(** No comma in the string. *)
Fixpoint comma_free (s : string) : bool :=
  match s with
  | EmptyString => true
  | String c r => negb (Ascii.eqb c ",") && comma_free r
  end.

(** The times [s], [s + step], ... : [n] of them. *)
Definition slot_times (s step : Z) (n : nat) : list Z :=
  map (λ k : nat, s + Z.of_nat k * step) (seq 0 n).

(** The number of multiples of [step] from [s] on that lie before [e]. *)
Definition slot_count (s e step : Z) : nat := Z.to_nat ((e - s + step - 1) / step).

(** The order [list.sort] puts strings in. *)
Definition str_lt (a b : string) : Prop := String.ltb a b = true.

(** [doctor_capacity] of line 302 and [patient_meta] of line 300. *)
Definition capacity_of_rows (doctors : list doctor) : gmap Z Z :=
  fold_left (λ (m : gmap Z Z) d, <[d_id d := capacity_per_slot d]> m) doctors ∅.

Definition meta_of_rows (patients : list patient) : gmap Z meta :=
  fold_left (λ (m : gmap Z meta) p, <[p_id p := Meta (Some (emergency p))]> m)
            patients ∅.

(** Every (doctor, slot) pair there is. *)
Definition all_pairs (doctors : list doctor) (slots : list string) : list value :=
  flat_map (λ d, map (λ slot, (d_id d, slot)) slots) doctors.

(** The places the pairs of [keys] offer together. *)
Definition capacity_total (doctor_capacity : gmap Z Z) (keys : list value) : Z :=
  foldr (λ key z, cap_limit doctor_capacity key.1 + z) 0 keys.

(** The patients the doctors can see in one slot. *)
Definition capacity_per_round (doctors : list doctor) : Z :=
  foldr (λ d z, capacity_per_slot d + z) 0 doctors.

(** A row with its specialty in lower case. *)
Definition with_lower_specialty (d : doctor) : doctor :=
  {| d_id := d_id d; d_name := d_name d;
     specialty := Py.lower <$> specialty d;
     capacity_per_slot := capacity_per_slot d |}.

Definition with_lower_required (p : patient) : patient :=
  {| p_id := p_id p; p_name := p_name p;
     needs_specialist := needs_specialist p;
     specialty_required := Py.lower <$> specialty_required p;
     emergency := emergency p;
     preferred_slots := preferred_slots p |}.

(** An entry of a preference list that the stored text gives back as it is:
    not empty, no space at either end, no comma. *)
Definition clean_entry (s : string) : Prop :=
  s ≠ EmptyString ∧ Py.strip s = s ∧ comma_free s = true.

(** An answer the capacity dialog can give: none, or a number from
    [minvalue=1] on. *)
Definition capacity_answer (cap : option Z) : Prop :=
  match cap with
  | Some c => 1 ≤ c
  | None => True
  end.

(** A row that [on_add_doctor] made. *)
Definition from_doctor_dialog (d : doctor) : Prop :=
  ∃ id name specialty_answer cap,
    on_add_doctor id name specialty_answer cap = Some d ∧ capacity_answer cap.
(** * Properties *)

(** ** Dictionaries *)

Section dict_facts.
Context {K V : Type} `{EqDecision K}.
Implicit Types (d : list (K * V)) (k : K) (v : V).

Lemma dict_get_set_eq d k v : dict_get (dict_set d k v) k = Some v.
Proof.
  induction d as [|[k' v'] d IH]; simpl.
  - by rewrite decide_True.
  - destruct (decide (k = k')) as [->|Hne]; simpl.
    + by rewrite decide_True.
    + by rewrite decide_False.
Qed.

Lemma dict_get_set_ne d k k' v :
  k ≠ k' → dict_get (dict_set d k v) k' = dict_get d k'.
Proof.
  intros Hne. induction d as [|[k1 v1] d IH]; simpl.
  - by rewrite decide_False.
  - destruct (decide (k = k1)) as [->|Hk]; simpl.
    + by rewrite !decide_False.
    + destruct (decide (k' = k1)); [done | apply IH].
Qed.

Lemma dict_get_None d k : dict_get d k = None ↔ k ∉ dict_keys d.
Proof.
  unfold dict_keys. induction d as [|[k1 v1] d IH]; simpl.
  - split; [intros _; apply not_elem_of_nil | done].
  - rewrite not_elem_of_cons. destruct (decide (k = k1)) as [->|Hk].
    + split; [done | intros [? _]; done].
    + rewrite IH. tauto.
Qed.

Lemma dict_get_is_Some d k : is_Some (dict_get d k) ↔ k ∈ dict_keys d.
Proof.
  rewrite <- not_eq_None_Some, dict_get_None.
  destruct (decide (k ∈ dict_keys d)); tauto.
Qed.

Lemma dict_get_elem_of d k v : dict_get d k = Some v → (k, v) ∈ d.
Proof.
  induction d as [|[k1 v1] d IH]; simpl; [done|].
  destruct (decide (k = k1)) as [->|Hk].
  - intros [= ->]. apply list_elem_of_here.
  - intros Hg. apply list_elem_of_further, IH, Hg.
Qed.

Lemma dict_get_NoDup d k v :
  NoDup (dict_keys d) → (k, v) ∈ d → dict_get d k = Some v.
Proof.
  unfold dict_keys. induction d as [|[k1 v1] d IH]; simpl.
  - intros _ Hin. by apply elem_of_nil in Hin.
  - intros [Hnin Hnd]%NoDup_cons [Heq|Hin]%elem_of_cons.
    + injection Heq as -> ->. by rewrite decide_True.
    + destruct (decide (k = k1)) as [->|Hk]; [|by apply IH].
      exfalso. apply Hnin. apply list_elem_of_fmap. by exists (k1, v).
Qed.

Lemma dict_keys_set_present d k v :
  k ∈ dict_keys d → dict_keys (dict_set d k v) = dict_keys d.
Proof.
  unfold dict_keys. induction d as [|[k1 v1] d IH]; simpl.
  - intros Hin. by apply elem_of_nil in Hin.
  - intros Hin. destruct (decide (k = k1)) as [->|Hk]; simpl; [done|].
    f_equal. apply IH. apply elem_of_cons in Hin as [?|?]; done.
Qed.

Lemma dict_keys_set_absent d k v :
  k ∉ dict_keys d → dict_keys (dict_set d k v) = dict_keys d ++ [k].
Proof.
  unfold dict_keys. induction d as [|[k1 v1] d IH]; simpl; [done|].
  intros [Hne Hnin]%not_elem_of_cons.
  rewrite decide_False by done. simpl. f_equal. by apply IH.
Qed.

Lemma dict_keys_set_NoDup d k v :
  NoDup (dict_keys d) → NoDup (dict_keys (dict_set d k v)).
Proof.
  intros Hnd. destruct (decide (k ∈ dict_keys d)) as [Hin|Hnin].
  - by rewrite dict_keys_set_present.
  - rewrite dict_keys_set_absent by done.
    apply NoDup_app. split_and!; [done| |apply NoDup_singleton].
    intros x Hx ->%list_elem_of_singleton. done.
Qed.

Lemma dict_keys_length d : length (dict_keys d) = length d.
Proof. apply length_map. Qed.

End dict_facts.

Lemma dvals_set_eq d k l : dvals (dict_set d k l) k = l.
Proof. unfold dvals. by rewrite dict_get_set_eq. Qed.

Lemma dvals_set_ne d k k' l : k ≠ k' → dvals (dict_set d k l) k' = dvals d k'.
Proof. intros. unfold dvals. by rewrite dict_get_set_ne. Qed.

Lemma dvals_absent d k : k ∉ dict_keys d → dvals d k = [].
Proof. intros Hk%dict_get_None. unfold dvals. by rewrite Hk. Qed.

(** ** The stable sort by slot *)

Lemma insert_by_slot_perm x l : insert_by_slot x l ≡ₚ x :: l.
Proof.
  induction l as [|y l IH]; simpl; [done|].
  destruct (String.ltb y.2 x.2); [|done].
  rewrite IH. apply Permutation_swap.
Qed.

Lemma sort_by_slot_perm l : sort_by_slot l ≡ₚ l.
Proof.
  induction l as [|x l IH]; simpl; [done|].
  by rewrite insert_by_slot_perm, IH.
Qed.

Lemma elem_of_sort_by_slot v l : v ∈ sort_by_slot l ↔ v ∈ l.
Proof. apply elem_of_Permutation_proper, sort_by_slot_perm. Qed.

Lemma ltb_asym s1 s2 : String.ltb s1 s2 = true → String.ltb s2 s1 = false.
Proof.
  unfold String.ltb. rewrite (String.compare_antisym s1 s2).
  by destruct (String.compare s2 s1).
Qed.

Lemma insert_by_slot_sorted x l :
  Sorted slot_le l → Sorted slot_le (insert_by_slot x l).
Proof.
  induction 1 as [|y l Hs IH Hhd]; simpl.
  - by repeat constructor.
  - destruct (String.ltb y.2 x.2) eqn:Hlt.
    + constructor; [done|].
      destruct Hhd as [|z l Hyz]; simpl.
      * constructor. unfold slot_le. by apply ltb_asym.
      * destruct (String.ltb z.2 x.2); constructor; [done|].
        unfold slot_le. by apply ltb_asym.
    + constructor; [by constructor|]. by constructor.
Qed.

Lemma sort_by_slot_sorted l : Sorted slot_le (sort_by_slot l).
Proof.
  induction l as [|x l IH]; simpl; [constructor|].
  by apply insert_by_slot_sorted.
Qed.

(** ** Forward checking and its undo *)

Section propagation_facts.
Variable doctor_capacity : gmap Z Z.

Local Abbreviation forward_check := (forward_check doctor_capacity).
Local Abbreviation saturated := (saturated doctor_capacity).

Lemma dvals_cons k o r (rest : list (Z * list value)) :
  dvals ((o, r) :: rest) k = if decide (k = o) then r else dvals rest k.
Proof. unfold dvals. simpl. by destruct (decide (k = o)). Qed.

Lemma split_by_saturation cm (l : list value) :
  filter (λ v, ¬ saturated cm v) l ++ filter (λ v, saturated cm v) l ≡ₚ l.
Proof.
  rewrite (comm (++)). apply (filter_app_complement (λ v, saturated cm v)).
Qed.

(** What the loop of lines 241-259 does to the domains and the snapshot. *)
Lemma forward_check_spec asg cm keys :
  ∀ doms snap f doms' snap',
    forward_check asg cm keys doms snap = (f, doms', snap') →
    NoDup keys →
    (∀ k, k ∈ keys → k ∈ dict_keys doms) →
    (∀ k, k ∈ keys → k ∉ dict_keys snap) →
    NoDup (dict_keys snap) →
    dict_keys doms' = dict_keys doms
    ∧ NoDup (dict_keys snap')
    ∧ (∀ k, k ∈ dict_keys snap' → k ∈ dict_keys snap ∨ k ∈ keys)
    ∧ (∀ k, k ∉ keys → dict_get doms' k = dict_get doms k)
    ∧ (∀ k, dvals doms' k `sublist_of` dvals doms k)
    ∧ (∀ k v, v ∈ dvals doms' k ∨ v ∈ dvals snap' k
              ↔ v ∈ dvals doms k ∨ v ∈ dvals snap k)
    ∧ (f = false →
       (∀ k, dvals doms' k ++ dvals snap' k ≡ₚ dvals doms k ++ dvals snap k)
       ∧ (∀ k, k ∈ keys → asg !! k = None → dvals doms' k ≠ [])).
Proof.
  induction keys as [|other rest IH]; intros doms snap f doms' snap' Hfc Hnd Hin Hfresh Hsnap.
  { simpl in Hfc. simplify_eq.
    split_and!; try done; [by left|]. intros _. split; [done|].
    intros k Hk. by apply elem_of_nil in Hk. }
  apply NoDup_cons in Hnd as [Hother Hnd].
  simpl in Hfc. destruct (decide (is_Some (asg !! other))) as [Hasg|Hasg].
  { destruct (IH _ _ _ _ _ Hfc Hnd) as (Hkeys & Hs & Hsk & Hout & Hsub & Hmem & Hok);
      [set_solver..|done|].
    split_and!; try done.
    - intros k Hks. destruct (Hsk k Hks); set_solver.
    - intros k Hk. apply Hout. set_solver.
    - intros Hf. destruct (Hok Hf) as [Hperm Hne]. split; [done|].
      intros k [->|Hk]%elem_of_cons Hnone; [|by apply Hne].
      rewrite Hnone in Hasg. by destruct Hasg. }
  set (cur := default [] (dict_get doms other)) in *.
  remember (filter (λ v, ¬ saturated cm v) cur) as new_domain eqn:Hnew.
  remember (filter (λ v, saturated cm v) cur) as removed eqn:Hrem.
  assert (Hsnap_other : dvals snap other = []).
  { apply dvals_absent, Hfresh. set_solver. }
  assert (Hstep : ∀ k v, v ∈ dvals (dict_set doms other new_domain) k
                         ∨ v ∈ dvals (dict_set snap other removed) k
                         ↔ v ∈ dvals doms k ∨ v ∈ dvals snap k).
  { intros k v. destruct (decide (other = k)) as [<-|Hne].
    - rewrite !dvals_set_eq, Hsnap_other, Hnew, Hrem.
      rewrite !list_elem_of_filter.
      assert (Hd : dvals doms other = cur) by done. rewrite Hd.
      destruct (decide (saturated cm v)); set_solver.
    - by rewrite !dvals_set_ne. }
  destruct (decide (new_domain = [])) as [Hnil|Hnonnil].
  { rewrite Hnil in Hfc. simplify_eq. split_and!; try done.
    - by apply dict_keys_set_NoDup.
    - intros k. destruct (decide (other ∈ dict_keys snap)).
      + rewrite dict_keys_set_present by done. by left.
      + rewrite dict_keys_set_absent by done. set_solver.
    - intros k v. destruct (decide (other = k)) as [<-|Hne].
      + rewrite dvals_set_eq, Hsnap_other.
        rewrite list_elem_of_filter. set_solver.
      + by rewrite dvals_set_ne. }
  assert (Hfc' : forward_check asg cm rest (dict_set doms other new_domain)
                   (dict_set snap other removed) = (f, doms', snap')).
  { by destruct new_domain. }
  clear Hfc. rename Hfc' into Hfc.
  assert (Hother_in : other ∈ dict_keys doms) by (apply Hin; set_solver).
  destruct (IH _ _ _ _ _ Hfc Hnd) as (Hkeys & Hs & Hsk & Hout & Hsub & Hmem & Hok).
  { intros k Hk. rewrite dict_keys_set_present by done. apply Hin. set_solver. }
  { intros k Hk. rewrite dict_keys_set_absent by (apply Hfresh; set_solver).
    rewrite not_elem_of_app. split; [apply Hfresh; set_solver|].
    rewrite list_elem_of_singleton. intros ->. done. }
  { by apply dict_keys_set_NoDup. }
  split_and!.
  - by rewrite Hkeys, dict_keys_set_present.
  - done.
  - intros k Hks. destruct (Hsk k Hks) as [Hks'|?]; [|set_solver].
    rewrite dict_keys_set_absent in Hks' by (apply Hfresh; set_solver).
    set_solver.
  - intros k Hk. rewrite Hout by set_solver.
    apply dict_get_set_ne. set_solver.
  - intros k. etrans; [apply Hsub|].
    destruct (decide (other = k)) as [<-|Hne].
    + rewrite dvals_set_eq, Hnew. apply sublist_filter.
    + by rewrite dvals_set_ne.
  - intros k v. by rewrite Hmem.
  - intros Hf. destruct (Hok Hf) as [Hperm Hne]. split.
    + intros k. rewrite Hperm. destruct (decide (other = k)) as [<-|Hk'].
      * rewrite !dvals_set_eq, Hsnap_other, app_nil_r, Hnew, Hrem.
        apply split_by_saturation.
      * by rewrite !dvals_set_ne.
    + intros k [->|Hkr]%elem_of_cons Hnone; [|by apply Hne].
      unfold dvals. rewrite Hout by done.
      by rewrite dict_get_set_eq.
Qed.

(** What the loop of lines 272-276 does to the domains. *)
Lemma restore_domains_spec snap :
  ∀ doms,
    NoDup (dict_keys snap) →
    (∀ k, k ∈ dict_keys snap → k ∈ dict_keys doms) →
    dict_keys (restore_domains doms snap) = dict_keys doms
    ∧ ∀ k,
        dvals (restore_domains doms snap) k ≡ₚ dvals doms k ++ dvals snap k
        ∧ (dvals snap k = [] →
           dict_get (restore_domains doms snap) k = dict_get doms k)
        ∧ (dvals snap k ≠ [] →
           dvals (restore_domains doms snap) k
           = sort_by_slot (dvals doms k ++ dvals snap k)).
Proof.
  induction snap as [|[o r] rest IH]; intros doms Hnd Hin.
  { simpl. split; [done|]. intros k.
    assert (Hnil : dvals [] k = []) by done.
    rewrite Hnil, app_nil_r. done. }
  unfold dict_keys in Hnd. simpl in Hnd. apply NoDup_cons in Hnd as [Ho Hnd].
  assert (Ho_in : o ∈ dict_keys doms) by (apply Hin; unfold dict_keys; set_solver).
  unfold restore_domains. simpl. fold (restore_domains (restore_one doms (o, r)) rest).
  assert (Hkeys1 : dict_keys (restore_one doms (o, r)) = dict_keys doms).
  { unfold restore_one. simpl. destruct r; [done|].
    by apply dict_keys_set_present. }
  destruct (IH (restore_one doms (o, r)) Hnd) as [Hk Hall].
  { intros k Hk. rewrite Hkeys1. apply Hin. unfold dict_keys in *. set_solver. }
  split; [by rewrite Hk|].
  intros k. destruct (Hall k) as (Hperm & Hsame & Hsort).
  rewrite dvals_cons. destruct (decide (k = o)) as [->|Hne].
  - assert (Hrest : dvals rest o = []) by by apply dvals_absent.
    specialize (Hsame Hrest).
    assert (Hd : dvals (restore_domains (restore_one doms (o, r)) rest) o
                 = dvals (restore_one doms (o, r)) o).
    { unfold dvals. by rewrite Hsame. }
    rewrite Hd, Hsame. unfold restore_one. simpl. destruct r as [|x r].
    + rewrite app_nil_r. done.
    + rewrite dvals_set_eq. split_and!; [|done|done].
      apply sort_by_slot_perm.
  - assert (Hget : dict_get (restore_one doms (o, r)) k = dict_get doms k).
    { unfold restore_one. simpl. destruct r; [done|].
      by apply dict_get_set_ne. }
    assert (Hd : dvals (restore_one doms (o, r)) k = dvals doms k).
    { unfold dvals. by rewrite Hget. }
    rewrite Hd in Hperm, Hsort. rewrite Hget in Hsame. done.
Qed.

End propagation_facts.

(** ** The capacity tracker against the assignment *)

Lemma occupancy_empty key : occupancy ∅ key = O.
Proof. unfold occupancy. by rewrite map_filter_empty, map_size_empty. Qed.

Lemma occupancy_insert (a : gmap Z value) var val key :
  a !! var = None →
  occupancy (<[var := val]> a) key
  = if decide (val = key) then S (occupancy a key) else occupancy a key.
Proof.
  intros Hfresh. unfold occupancy. destruct (decide (val = key)) as [->|Hne].
  - rewrite map_filter_insert_True by done.
    apply map_size_insert_None, map_lookup_filter_None. by left.
  - rewrite map_filter_insert_False by done. by rewrite delete_id.
Qed.

Lemma tracked_usage (a : gmap Z value) (cm : gmap value Z) key :
  (∀ k, cm !! k = tracked a k) →
  default 0 (cm !! key) = Z.of_nat (occupancy a key).
Proof.
  intros Hacc. rewrite Hacc. unfold tracked.
  by destruct (occupancy a key).
Qed.

Lemma tracked_positive (a : gmap Z value) (cm : gmap value Z) :
  (∀ k, cm !! k = tracked a k) → positive_counts cm.
Proof.
  intros Hacc key c. rewrite Hacc. unfold tracked.
  destruct (occupancy a key); [done|]. intros [= <-]. lia.
Qed.

Lemma release_after_place (a : gmap Z value) (cm : gmap value Z) val :
  (∀ k, cm !! k = tracked a k) →
  release (<[val := default 0 (cm !! val) + 1]> cm) val = cm.
Proof.
  intros Hacc. unfold release. rewrite lookup_insert_eq. simpl.
  replace (default 0 (cm !! val) + 1 - 1) with (default 0 (cm !! val)) by lia.
  rewrite insert_insert_eq.
  pose proof (Hacc val) as Hval. unfold tracked in Hval.
  destruct (occupancy a val) as [|n]; rewrite Hval; simpl.
  - rewrite delete_insert_eq. by apply delete_id.
  - destruct (Z.eqb_spec (Z.of_nat (S n)) 0) as [?|_]; [lia|].
    by apply insert_id.
Qed.

(** ** The variable selector *)

Lemma mrv_fold_from doms pool :
  ∀ b,
    ∃ v, fold_left (mrv_step doms) pool (Some (b, domain_len doms b))
         = Some (v, domain_len doms v)
       ∧ ((v = b ∧ Forall (λ u, (domain_len doms b ≤ domain_len doms u)%nat) pool)
          ∨ ((domain_len doms v < domain_len doms b)%nat
             ∧ first_smallest doms pool v)).
Proof.
  induction pool as [|u rest IH]; intros b.
  { exists b. split; [done|]. left. by split. }
  simpl. destruct (Nat.ltb_spec (domain_len doms u) (domain_len doms b)) as [Hlt|Hge].
  - destruct (IH u) as (v & Hv & [[-> Hall]|[Hlt' (pre & post & -> & Hpre & Hpost)]]).
    + exists u. split; [done|]. right. split; [done|].
      exists [], rest. by split_and!.
    + exists v. split; [done|]. right. split; [lia|].
      exists (u :: pre), post. split_and!; [done| |done].
      constructor; [lia|done].
  - destruct (IH b) as (v & Hv & [[-> Hall]|[Hlt' (pre & post & -> & Hpre & Hpost)]]).
    + exists b. split; [done|]. left. split; [done|]. by constructor.
    + exists v. split; [done|]. right. split; [done|].
      exists (u :: pre), post. split_and!; [done| |done].
      constructor; [lia|done].
Qed.

Lemma mrv_fold_spec doms pool :
  match fold_left (mrv_step doms) pool None with
  | None => pool = []
  | Some (v, _) => first_smallest doms pool v
  end.
Proof.
  destruct pool as [|u rest]; [done|]. simpl.
  destruct (mrv_fold_from doms rest u)
    as (v & -> & [[-> Hall]|[Hlt (pre & post & -> & Hpre & Hpost)]]).
  - exists [], rest. by split_and!.
  - exists (u :: pre), post. split_and!; [done| |done].
    constructor; [lia|done].
Qed.

Lemma select_unassigned_var_pool doms asg patient_meta :
  match select_unassigned_var doms asg patient_meta with
  | None => pool_of doms asg patient_meta = []
  | Some v => first_smallest doms (pool_of doms asg patient_meta) v
  end.
Proof.
  unfold select_unassigned_var. fold (pool_of doms asg patient_meta).
  pose proof (mrv_fold_spec doms (pool_of doms asg patient_meta)) as H.
  destruct (fold_left _ _ _) as [[v l]|]; done.
Qed.

Lemma pool_of_unassigned doms asg patient_meta v :
  v ∈ pool_of doms asg patient_meta → v ∈ dict_keys doms ∧ asg !! v = None.
Proof.
  unfold pool_of.
  destruct (filter (λ v, is_emergency patient_meta v) _) as [|e es] eqn:He.
  - by intros [? ?]%list_elem_of_filter.
  - rewrite <- He. intros [_ [? ?]%list_elem_of_filter]%list_elem_of_filter. done.
Qed.

Lemma select_unassigned_var_Some doms asg patient_meta v :
  select_unassigned_var doms asg patient_meta = Some v →
  v ∈ dict_keys doms ∧ asg !! v = None.
Proof.
  intros Hsel. pose proof (select_unassigned_var_pool doms asg patient_meta) as H.
  rewrite Hsel in H. destruct H as (pre & post & Hp & _).
  apply (pool_of_unassigned doms asg patient_meta). rewrite Hp. set_solver.
Qed.

(** ** The invariant of the search *)

Section search_facts.
Variable doctor_capacity : gmap Z Z.
Variable patient_meta : gmap Z meta.


Lemma Inv_size st : Inv doctor_capacity st → (size (assigned st) ≤ length (domains st))%nat.
Proof.
  intros [Hnd Hdom _ _ _].
  rewrite <- (dict_keys_length (domains st)).
  rewrite <- (size_list_to_set (C := gset Z) _ Hnd).
  assert (Hsz : size (dom (assigned st) : gset Z) = size (assigned st))
    by apply size_dom.
  rewrite <- Hsz.
  apply subseteq_size. intros k Hk%elem_of_dom.
  apply elem_of_list_to_set. by apply Hdom.
Qed.

Lemma Inv_complete st :
  Inv doctor_capacity st → size (assigned st) = length (domains st) →
  ∀ k, k ∈ dict_keys (domains st) → is_Some (assigned st !! k).
Proof.
  intros [Hnd Hdom _ _ _] Hsize k Hk.
  apply (elem_of_dom (D := gset Z)).
  assert (Hsub : dom (assigned st) ⊆ (list_to_set (dict_keys (domains st)) : gset Z)).
  { intros x Hx%elem_of_dom. apply elem_of_list_to_set. by apply Hdom. }
  assert (Hsz : size (dom (assigned st) : gset Z) = size (assigned st))
    by apply size_dom.
  apply set_subseteq_size_eq in Hsub.
  - rewrite Hsub. by apply elem_of_list_to_set.
  - rewrite size_list_to_set by done. rewrite Hsz, dict_keys_length. lia.
Qed.

Lemma place_Inv var val st :
  Inv doctor_capacity st → assigned st !! var = None → var ∈ dict_keys (domains st) →
  usage (capacity_map st) val < cap_limit doctor_capacity val.1 →
  Inv doctor_capacity (place var val st).
Proof.
  intros [Hnd Hdom Htr Hcap Htrace] Hfresh Hvar Hroom.
  assert (Htr' : ∀ key,
    <[val := usage (capacity_map st) val + 1]> (capacity_map st) !! key
    = tracked (<[var := val]> (assigned st)) key).
  { intros key. unfold tracked. rewrite occupancy_insert by done.
    destruct (decide (val = key)) as [<-|Hne].
    - rewrite lookup_insert_eq. unfold usage.
      rewrite (tracked_usage (assigned st)) by done. f_equal. lia.
    - rewrite lookup_insert_ne by done. apply Htr. }
  constructor; simpl; try done.
  - intros k [Hk|[Hk Hs]]%lookup_insert_is_Some; [by subst|by apply Hdom].
  - intros key. rewrite occupancy_insert by done.
    destruct (decide (val = key)) as [<-|Hne]; [|apply Hcap].
    intros _. unfold usage in Hroom.
    rewrite (tracked_usage (assigned st)) in Hroom by done. lia.
  - apply Forall_app. split; [done|]. constructor; [|constructor].
    simpl. by apply (tracked_positive (<[var := val]> (assigned st))).
Qed.

Lemma propagate_spec st f st2 snap :
  propagate doctor_capacity st = (f, st2, snap) → NoDup (dict_keys (domains st)) →
  assigned st2 = assigned st ∧ capacity_map st2 = capacity_map st
  ∧ trace st2 = trace st
  ∧ dict_keys (domains st2) = dict_keys (domains st)
  ∧ NoDup (dict_keys snap)
  ∧ (∀ k, k ∈ dict_keys snap → k ∈ dict_keys (domains st))
  ∧ (∀ k, dvals (domains st2) k `sublist_of` dvals (domains st) k)
  ∧ (∀ k v, v ∈ dvals (domains st2) k ∨ v ∈ dvals snap k
            ↔ v ∈ dvals (domains st) k)
  ∧ (f = false →
     (∀ k, dvals (domains st2) k ++ dvals snap k ≡ₚ dvals (domains st) k)
     ∧ (∀ k, k ∈ dict_keys (domains st) → assigned st !! k = None →
             dvals (domains st2) k ≠ [])).
Proof.
  unfold propagate. intros Hp Hnd.
  destruct (forward_check doctor_capacity (assigned st) (capacity_map st)
              (dict_keys (domains st)) (domains st) []) as [[f' doms] snap'] eqn:Hfc.
  simplify_eq.
  destruct (forward_check_spec _ _ _ _ _ _ _ _ _ Hfc Hnd)
    as (Hk & Hs & Hsk & _ & Hsub & Hmem & Hok).
  { done. }
  { intros k _. apply not_elem_of_nil. }
  { constructor. }
  simpl. split_and!; try done.
  - intros k Hks. destruct (Hsk k Hks) as [Hnil|?]; [|done].
    by apply elem_of_nil in Hnil.
  - intros k v. rewrite Hmem. assert (Hnil : dvals [] k = []) by done.
    rewrite Hnil. set_solver.
  - intros Hf. destruct (Hok Hf) as [Hperm Hne]. split; [|done].
    intros k. rewrite Hperm. assert (Hnil : dvals [] k = []) by done.
    by rewrite Hnil, app_nil_r.
Qed.

(** Moving a guarantee between two states that agree on what it reads. *)
Lemma post_transfer fuel st st' r :
  assigned st' = assigned st →
  dict_keys (domains st') = dict_keys (domains st) →
  capacity_map st' = capacity_map st →
  (∀ k v, v ∈ dvals (domains st') k ↔ v ∈ dvals (domains st) k) →
  post doctor_capacity fuel st' r → post doctor_capacity fuel st r.
Proof.
  intros Ha Hk Hc Hm. unfold post.
  assert (Hlen : length (domains st') = length (domains st)).
  { by rewrite <- !dict_keys_length, Hk. }
  destruct r.1.
  - by rewrite Ha, Hlen.
  - rewrite Ha, Hk, Hc. intros (? & ? & ? & Hm' & ?). split_and!; try done.
    intros k v. by rewrite Hm', Hm.
  - rewrite Ha, Hk, Hlen. intros (? & ? & ? & ? & ? & Hv). split_and!; try done.
    intros k v Hkv. destruct (Hv k v Hkv); [by left|right; by apply Hm].
Qed.

Lemma try_values_post rec n var :
  (∀ s, Inv doctor_capacity s → post doctor_capacity n s (rec s)) →
  ∀ vals st,
    Inv doctor_capacity st → assigned st !! var = None → var ∈ dict_keys (domains st) →
    (∀ v, v ∈ vals → v ∈ dvals (domains st) var) →
    post doctor_capacity (S n) st (try_values doctor_capacity rec var vals st).
Proof.
  intros Hrec. induction vals as [|val rest IH]; intros st HI Hfresh Hvar Hvals.
  { simpl. unfold post. simpl. split_and!; try done. apply HI. }
  simpl. destruct (Z.leb_spec (cap_limit doctor_capacity val.1) (usage (capacity_map st) val)) as [Hfull|Hroom].
  { apply IH; try done. intros v Hv. apply Hvals. set_solver. }
  pose proof (place_Inv var val st HI Hfresh Hvar Hroom) as HI1.
  destruct (propagate doctor_capacity (place var val st)) as [[f st2] snap] eqn:Hprop.
  destruct (propagate_spec _ _ _ _ Hprop (inv_keys _ _ HI1))
    as (Ha2 & Hc2 & Ht2 & Hk2 & Hsnd & Hsk & Hsub & Hmem & Hok).
  simpl in Ha2, Hc2, Ht2, Hk2, Hsk, Hsub, Hmem.
  assert (HI2 : Inv doctor_capacity st2).
  { destruct HI1 as [H1 H2 H3 H4 H5].
    constructor; rewrite ?Ha2, ?Hc2, ?Ht2, ?Hk2; done. }
  (* what the undo gives back once the branch has failed *)
  assert (Hundo : ∀ st3,
    assigned st3 = assigned st2 → capacity_map st3 = capacity_map st2 →
    dict_keys (domains st3) = dict_keys (domains st2) →
    (∀ k v, v ∈ dvals (domains st3) k ↔ v ∈ dvals (domains st2) k) →
    Forall event_ok (trace st3) →
    post doctor_capacity (S n) st (try_values doctor_capacity rec var rest (undo var val snap st3))).
  { intros st3 Ha3 Hc3 Hk3 Hm3 Ht3.
    destruct (restore_domains_spec snap (domains st3) Hsnd) as [Hkr Hr].
    { intros k Hk. rewrite Hk3, Hk2. by apply Hsk. }
    assert (Hcm : release (capacity_map st3) val = capacity_map st).
    { rewrite Hc3, Hc2. apply (release_after_place (assigned st)), HI. }
    assert (Hmr : ∀ k v, v ∈ dvals (restore_domains (domains st3) snap) k
                         ↔ v ∈ dvals (domains st) k).
    { intros k v. destruct (Hr k) as [Hperm _].
      rewrite Hperm, elem_of_app, Hm3. apply Hmem. }
    apply (post_transfer _ st (undo var val snap st3)); simpl.
    - rewrite Ha3, Ha2. apply delete_insert_id, Hfresh.
    - by rewrite Hkr, Hk3, Hk2.
    - done.
    - done.
    - apply IH; simpl.
      + destruct HI as [H1 H2 H3 H4 H5].
        constructor; simpl; rewrite ?Hkr, ?Hk3, ?Hk2, ?Hcm, ?Ha3, ?Ha2,
          ?delete_insert_id by done; try done.
        apply Forall_app. split; [done|]. constructor; [|constructor].
        simpl. split; [|by apply (tracked_positive (assigned st))].
        rewrite Hc3, Hc2. simpl. rewrite lookup_insert_eq. eexists. split; [done|].
        unfold usage. rewrite (tracked_usage (assigned st)) by done. lia.
      + rewrite Ha3, Ha2. simpl. rewrite delete_insert_id by done. done.
      + by rewrite Hkr, Hk3, Hk2.
      + intros v Hv. apply Hmr, Hvals. set_solver. }
  destruct f.
  { simpl. apply Hundo; try done. rewrite Ht2. apply HI1. }
  specialize (Hrec st2 HI2). unfold post in Hrec.
  destruct (rec st2) as [[| |a] st3] eqn:Hr; simpl in Hrec.
  - unfold post. simpl. rewrite Ha2 in Hrec. simpl in Hrec.
    rewrite map_size_insert_None in Hrec by done.
    rewrite <- !dict_keys_length, Hk2 in Hrec.
    rewrite <- dict_keys_length. lia.
  - destruct Hrec as (? & ? & ? & ? & ?). by apply Hundo.
  - destruct Hrec as (Heq & HI3 & Hsz & Hk3 & Hsub3 & Hv3).
    unfold post. simpl. split_and!; try done.
    + rewrite Hsz. by rewrite <- !dict_keys_length, Hk2.
    + by rewrite Hk3, Hk2.
    + etrans; [|exact Hsub3]. rewrite Ha2. simpl.
      by apply insert_subseteq.
    + intros k v Hkv. destruct (Hv3 k v Hkv) as [Hin|Hin].
      * rewrite Ha2 in Hin. simpl in Hin.
        apply lookup_insert_Some in Hin as [[<- <-]|[_ Hin]]; [|by left].
        right. apply Hvals. set_solver.
      * right. apply Hmem. by left.
Qed.

(** The guarantee of [backtrack], for every amount of fuel. *)
Lemma backtrack_post fuel : ∀ st, Inv doctor_capacity st → post doctor_capacity fuel st (backtrack doctor_capacity patient_meta fuel st).
Proof.
  induction fuel as [|n IH]; intros st HI.
  { unfold post. simpl. by apply Inv_size. }
  simpl. destruct (decide (size (assigned st) = length (domains st))) as [Hfull|Hpart].
  { unfold post. simpl. split_and!; try done. intros k v Hkv. by left. }
  destruct (select_unassigned_var (domains st) (assigned st) patient_meta) as [var|] eqn:Hsel.
  2: { unfold post. simpl. split_and!; try done. apply HI. }
  apply select_unassigned_var_Some in Hsel as [Hvar Hfresh].
  apply try_values_post; try done.
  intros v Hv. unfold dvals. by apply elem_of_sort_by_slot.
Qed.

End search_facts.

(** ** The whole run *)

Section run_facts.
Variable doctor_capacity : gmap Z Z.
Variable patient_meta : gmap Z meta.

Lemma initial_state_domains doms : domains (initial_state doms) = doms.
Proof.
  unfold initial_state. simpl. induction doms as [|[k l] doms IH]; simpl; [done|].
  by rewrite IH.
Qed.

Lemma initial_state_Inv doms :
  NoDup (dict_keys doms) → Inv doctor_capacity (initial_state doms).
Proof.
  intros Hnd. constructor.
  - by rewrite initial_state_domains.
  - intros k [v Hv]. simpl in Hv. by rewrite lookup_empty in Hv.
  - intros key. simpl. unfold tracked. by rewrite occupancy_empty, lookup_empty.
  - intros key. simpl. rewrite occupancy_empty. lia.
  - constructor.
Qed.

Lemma search_run_post doms :
  NoDup (dict_keys doms) →
  post doctor_capacity (S (length doms)) (initial_state doms)
       (search_run doctor_capacity patient_meta doms).
Proof.
  intros Hnd. unfold search_run. by apply backtrack_post, initial_state_Inv.
Qed.

(** The fuel handed out by [backtracking_search] is enough: the run
    returns a mapping or [None]. *)
Lemma backtrack_total doms :
  NoDup (dict_keys doms) →
  backtracking_search doctor_capacity patient_meta doms ≠ OutOfFuel.
Proof.
  intros Hnd Hout. pose proof (search_run_post doms Hnd) as Hpost.
  unfold backtracking_search in Hout. unfold post in Hpost.
  rewrite Hout, initial_state_domains in Hpost. simpl in Hpost. lia.
Qed.

(** The two ways a run ends, with what is known of the final state. *)
Lemma search_run_cases doms :
  NoDup (dict_keys doms) →
  let r := search_run doctor_capacity patient_meta doms in
  (r.1 = NoSchedule
   ∧ capacity_map r.2 = ∅ ∧ assigned r.2 = ∅
   ∧ dict_keys (domains r.2) = dict_keys doms
   ∧ (∀ k v, v ∈ dvals (domains r.2) k ↔ v ∈ dvals doms k)
   ∧ Forall event_ok (trace r.2))
  ∨ (∃ a, r.1 = Schedule a
        ∧ a = assigned r.2
        ∧ Inv doctor_capacity r.2
        ∧ size a = length doms
        ∧ dict_keys (domains r.2) = dict_keys doms
        ∧ (∀ k v, a !! k = Some v → v ∈ dvals doms k)).
Proof.
  intros Hnd r. pose proof (search_run_post doms Hnd) as Hpost.
  pose proof (backtrack_total doms Hnd) as Htot.
  unfold backtracking_search in Htot. fold r in Hpost, Htot.
  unfold post in Hpost. rewrite initial_state_domains in Hpost.
  destruct r.1 as [| |a]; [done| |].
  - left. simpl in Hpost. destruct Hpost as (? & ? & ? & ? & ?). done.
  - right. exists a. destruct Hpost as (? & ? & ? & ? & _ & Hv).
    split_and!; try done.
    intros k v Hkv. destruct (Hv k v Hkv) as [Hin|?]; [|done].
    simpl in Hin. by rewrite lookup_empty in Hin.
Qed.

(** A returned mapping covers exactly the keys of [domains]. *)
Lemma schedule_complete doms a :
  NoDup (dict_keys doms) →
  backtracking_search doctor_capacity patient_meta doms = Schedule a →
  (∀ p, p ∈ dict_keys doms ↔ is_Some (a !! p)) ∧ size a = length doms.
Proof.
  intros Hnd Hres. unfold backtracking_search in Hres.
  destruct (search_run_cases doms Hnd) as [[Hno _]|(a' & Ha & Heq & HI & Hsz & Hk & _)].
  { by rewrite Hres in Hno. }
  rewrite Hres in Ha. injection Ha as <-. split; [|done].
  intros p. split.
  - intros Hp. rewrite Heq. apply (Inv_complete doctor_capacity); [done| |by rewrite Hk].
    rewrite <- Heq, Hsz. by rewrite <- !dict_keys_length, Hk.
  - intros Hp. rewrite <- Hk. apply (inv_assigned _ _ HI). by rewrite <- Heq.
Qed.

(** Every value of a returned mapping comes from the patient's domain. *)
Lemma schedule_from_domains doms a k v :
  NoDup (dict_keys doms) →
  backtracking_search doctor_capacity patient_meta doms = Schedule a →
  a !! k = Some v → v ∈ dvals doms k.
Proof.
  intros Hnd Hres Hkv. unfold backtracking_search in Hres.
  destruct (search_run_cases doms Hnd) as [[Hno _]|(a' & Ha & _ & _ & _ & _ & Hv)].
  { by rewrite Hres in Hno. }
  rewrite Hres in Ha. injection Ha as <-. by apply Hv.
Qed.

(** An occupied (doctor, slot) pair of a returned mapping is within the
    doctor's capacity. *)
Lemma schedule_occupied_within_capacity doms a key :
  NoDup (dict_keys doms) →
  backtracking_search doctor_capacity patient_meta doms = Schedule a →
  (0 < occupancy a key)%nat →
  Z.of_nat (occupancy a key) ≤ cap_limit doctor_capacity key.1.
Proof.
  intros Hnd Hres Hocc. unfold backtracking_search in Hres.
  destruct (search_run_cases doms Hnd) as [[Hno _]|(a' & Ha & Heq & HI & _)].
  { by rewrite Hres in Hno. }
  rewrite Hres in Ha. injection Ha as <-. rewrite Heq in *.
  by apply (inv_capacity _ _ HI).
Qed.

End run_facts.


Lemma sublist_same_length {A} (l1 l2 : list A) :
  l1 `sublist_of` l2 → (length l2 ≤ length l1)%nat → l1 = l2.
Proof.
  induction 1 as [|x l1 l2 Hsub IH|x l1 l2 Hsub IH]; simpl; intros Hlen.
  - done.
  - f_equal. apply IH. lia.
  - apply sublist_length in Hsub. lia.
Qed.

(** ** Facts about [build_domains] *)

Section build_domains_facts.
Variable doctors : list doctor.
Variable slots : list string.

Local Abbreviation add_patient_domain :=
  (λ (domains : list (Z * list value)) (p : patient),
     dict_set domains (p_id p) (allowed p doctors slots)).

Lemma fold_domains_NoDup patients :
  ∀ acc, NoDup (dict_keys acc) →
         NoDup (dict_keys (fold_left add_patient_domain patients acc)).
Proof.
  induction patients as [|p ps IH]; intros acc Hnd; simpl; [done|].
  by apply IH, dict_keys_set_NoDup.
Qed.

Lemma fold_domains_other patients k :
  ∀ acc, k ∉ map p_id patients →
         dict_get (fold_left add_patient_domain patients acc) k = dict_get acc k.
Proof.
  induction patients as [|p ps IH]; intros acc Hk; simpl; [done|].
  simpl in Hk. apply not_elem_of_cons in Hk as [Hne Hk].
  rewrite IH by done. by apply dict_get_set_ne.
Qed.

Lemma fold_domains_lookup patients p :
  ∀ acc, NoDup (map p_id patients) → p ∈ patients →
         dict_get (fold_left add_patient_domain patients acc) (p_id p)
         = Some (allowed p doctors slots).
Proof.
  induction patients as [|q ps IH]; intros acc Hnd Hp; simpl.
  { by apply elem_of_nil in Hp. }
  simpl in Hnd. apply NoDup_cons in Hnd as [Hq Hnd].
  apply elem_of_cons in Hp as [->|Hp]; [|by apply IH].
  rewrite fold_domains_other by done. apply dict_get_set_eq.
Qed.

Lemma build_domains_NoDup patients :
  NoDup (dict_keys (build_domains patients doctors slots)).
Proof. apply fold_domains_NoDup. constructor. Qed.

Lemma build_domains_lookup patients p :
  NoDup (map p_id patients) → p ∈ patients →
  dict_get (build_domains patients doctors slots) (p_id p)
  = Some (allowed p doctors slots).
Proof. apply fold_domains_lookup. Qed.

Lemma elem_of_allowed p doc slot :
  (doc, slot) ∈ allowed p doctors slots
  ↔ ∃ d, d ∈ doctors ∧ d_id d = doc ∧ doctor_skipped p d = false
         ∧ slot ∈ slots ∧ slot_skipped (pref_list p) slot = false.
Proof.
  unfold allowed. split.
  - intros Hin%list_elem_of_In. apply in_flat_map in Hin as (d & Hd%list_elem_of_In & Hin).
    exists d. destruct (doctor_skipped p d); [done|].
    apply in_flat_map in Hin as (s & Hs%list_elem_of_In & Hin).
    destruct (slot_skipped (pref_list p) s) eqn:Hskip; [done|].
    destruct Hin as [[= <- <-]|[]]. done.
  - intros (d & Hd%list_elem_of_In & <- & Hdoc & Hs%list_elem_of_In & Hslot).
    apply list_elem_of_In, in_flat_map. exists d. split; [done|]. rewrite Hdoc.
    apply in_flat_map. exists slot. split; [done|].
    rewrite Hslot. by left.
Qed.

End build_domains_facts.

Lemma str_in_elem_of x l : Py.str_in x l = true ↔ x ∈ l.
Proof.
  unfold Py.str_in. rewrite existsb_exists. split.
  - intros (y & Hy%list_elem_of_In & ->%String.eqb_eq). done.
  - intros Hx. exists x. by rewrite <- list_elem_of_In, String.eqb_refl.
Qed.

(** ** A patient nobody can take *)

Section dead_end.
Variable doctor_capacity : gmap Z Z.
Variable patient_meta : gmap Z meta.

(** With an unassigned patient [q] whose domain is empty, every placement
    fails in forward checking: the loop never reaches the recursive call. *)
Lemma try_values_dead_end rec rec' var q vals :
  q ≠ var →
  ∀ st,
    NoDup (dict_keys (domains st)) → q ∈ dict_keys (domains st) →
    assigned st !! q = None → dvals (domains st) q = [] →
    try_values doctor_capacity rec var vals st
    = try_values doctor_capacity rec' var vals st.
Proof.
  intros Hq. induction vals as [|val rest IH]; intros st Hnd Hin Hfree Hempty; [done|].
  simpl. destruct (cap_limit doctor_capacity val.1 <=? usage (capacity_map st) val).
  { by apply IH. }
  destruct (propagate doctor_capacity (place var val st)) as [[f st2] snap] eqn:Hprop.
  destruct (propagate_spec _ _ _ _ _ Hprop Hnd)
    as (Ha2 & Hc2 & Ht2 & Hk2 & Hsnd & Hsk & Hsub & Hmem & Hok).
  simpl in Ha2, Hk2, Hsk, Hsub, Hmem.
  destruct f.
  - destruct (restore_domains_spec snap (domains st2) Hsnd) as [Hkr Hr].
    { intros k Hk. rewrite Hk2. by apply Hsk. }
    apply IH; simpl.
    + by rewrite Hkr, Hk2.
    + by rewrite Hkr, Hk2.
    + rewrite Ha2. rewrite lookup_delete_ne by done.
      by rewrite lookup_insert_ne.
    + destruct (Hr q) as [Hperm _]. apply Permutation_nil_r.
      rewrite Hperm. apply Permutation_nil_r.
      assert (Hnone : ∀ v, v ∉ dvals (domains st2) q ++ dvals snap q).
      { intros v Hv. apply elem_of_app, Hmem in Hv. rewrite Hempty in Hv.
        by apply elem_of_nil in Hv. }
      destruct (dvals (domains st2) q ++ dvals snap q) as [|v l]; [done|].
      exfalso. apply (Hnone v). apply list_elem_of_here.
  - exfalso. destruct (Hok eq_refl) as [_ Hne]. apply (Hne q).
    + done.
    + simpl. by rewrite lookup_insert_ne.
    + apply sublist_nil_r. rewrite <- Hempty. apply Hsub.
Qed.

Lemma backtrack_dead_end q st n m :
  NoDup (dict_keys (domains st)) → q ∈ dict_keys (domains st) →
  assigned st !! q = None → dvals (domains st) q = [] →
  backtrack doctor_capacity patient_meta (S n) st
  = backtrack doctor_capacity patient_meta (S m) st.
Proof.
  intros Hnd Hin Hfree Hempty. simpl.
  destruct (decide (size (assigned st) = length (domains st))); [done|].
  destruct (select_unassigned_var _ _ _) as [var|]; [|done].
  destruct (decide (q = var)) as [<-|Hne].
  - unfold dvals in Hempty. by rewrite Hempty.
  - by apply (try_values_dead_end _ _ var q).
Qed.

Lemma search_dead_end doms q :
  NoDup (dict_keys doms) → dict_get doms q = Some [] →
  backtracking_search doctor_capacity patient_meta doms = NoSchedule
  ∧ (backtrack doctor_capacity patient_meta 1 (initial_state doms)).1 = NoSchedule.
Proof.
  intros Hnd Hq.
  assert (Hin : q ∈ dict_keys doms) by (apply dict_get_is_Some; by eexists).
  assert (Hempty : dvals doms q = []) by (unfold dvals; by rewrite Hq).
  assert (Hres : backtracking_search doctor_capacity patient_meta doms = NoSchedule).
  { unfold backtracking_search.
    destruct (search_run_cases doctor_capacity patient_meta doms Hnd)
      as [[Hno _]|(a & Ha & Heq & HI & Hsz & Hk & Hv)]; [done|].
    exfalso.
    assert (His : is_Some (a !! q)).
    { rewrite Heq. apply (Inv_complete doctor_capacity); [done| |by rewrite Hk].
      rewrite <- Heq, Hsz. by rewrite <- !dict_keys_length, Hk. }
    destruct His as [v Hqv]. apply Hv in Hqv. rewrite Hempty in Hqv.
    by apply elem_of_nil in Hqv. }
  split; [done|]. rewrite <- Hres. unfold backtracking_search, search_run.
  f_equal. apply (backtrack_dead_end q); rewrite ?initial_state_domains; done.
Qed.

End dead_end.

(** ** A single patient *)

Lemma select_unassigned_var_single patient_meta pat (l : list value) :
  select_unassigned_var [(pat, l)] ∅ patient_meta = Some pat.
Proof.
  unfold select_unassigned_var, dict_keys. simpl.
  rewrite filter_cons, decide_True by apply lookup_empty.
  rewrite filter_nil, filter_cons, filter_nil.
  by destruct (decide (is_emergency patient_meta pat)).
Qed.

Lemma backtrack_S doctor_capacity patient_meta fuel st :
  backtrack doctor_capacity patient_meta (S fuel) st
  = if decide (size (assigned st) = length (domains st)) then
      (Schedule (assigned st), st)
    else
      match select_unassigned_var (domains st) (assigned st) patient_meta with
      | None => (NoSchedule, st)
      | Some var =>
          try_values doctor_capacity
            (backtrack doctor_capacity patient_meta fuel) var
            (sort_by_slot (default [] (dict_get (domains st) var))) st
      end.
Proof. reflexivity. Qed.

Lemma try_values_cons doctor_capacity rec var val rest st :
  try_values doctor_capacity rec var (val :: rest) st
  = if cap_limit doctor_capacity val.1 <=? usage (capacity_map st) val then
      try_values doctor_capacity rec var rest st
    else
      let '(failure, st2, removed_snapshot) :=
        propagate doctor_capacity (place var val st) in
      let result := if failure then (NoSchedule, st2) else rec st2 in
      match result with
      | (NoSchedule, st3) =>
          try_values doctor_capacity rec var rest
            (undo var val removed_snapshot st3)
      | found => found
      end.
Proof. reflexivity. Qed.

(** With one patient, the first value of the sorted domain is taken as soon
    as its doctor has room for one patient. *)
Lemma backtracking_search_single doctor_capacity patient_meta pat l v vs :
  sort_by_slot l = v :: vs →
  0 < cap_limit doctor_capacity v.1 →
  backtracking_search doctor_capacity patient_meta [(pat, l)]
  = Schedule {[pat := v]}.
Proof.
  intros Hsort Hcap. unfold backtracking_search, search_run.
  rewrite backtrack_S, initial_state_domains. simpl assigned. simpl length.
  rewrite decide_False by (rewrite map_size_empty; lia).
  rewrite select_unassigned_var_single. simpl dict_get.
  rewrite decide_True by done. simpl default. rewrite Hsort.
  rewrite try_values_cons. simpl capacity_map. unfold usage at 1.
  rewrite lookup_empty. simpl default.
  destruct (Z.leb_spec (cap_limit doctor_capacity v.1) 0) as [?|_]; [lia|].
  unfold propagate, place. simpl.
  rewrite decide_True by (rewrite lookup_insert_eq; by eexists).
  simpl. rewrite decide_True; [done|].
  by rewrite map_size_insert_None, map_size_empty by apply lookup_empty.
Qed.

(** ** The store: what the search leaves alone *)

Lemma dict_set_elem_of {K V} `{EqDecision K} (d : list (K * V)) k v kv :
  kv ∈ dict_set d k v → kv ∈ d ∨ kv = (k, v).
Proof.
  induction d as [|[k1 v1] d IH]; simpl.
  - intros ->%list_elem_of_singleton. by right.
  - destruct (decide (k = k1)) as [->|Hne].
    + intros [->|Hin]%elem_of_cons; [by right|]. left. by apply list_elem_of_further.
    + intros [->|Hin]%elem_of_cons; [left; apply list_elem_of_here|].
      destruct (IH Hin) as [?|?]; [left; by apply list_elem_of_further|by right].
Qed.

Lemma prefix_insert_ge {A} (h0 h : list A) i x :
  h0 `prefix_of` h → (length h0 ≤ i)%nat → h0 `prefix_of` <[i := x]> h.
Proof.
  intros [k ->] Hi. rewrite insert_app_r_alt by done. by eexists.
Qed.

Lemma read_dict_snoc_list h l dref :
  Store.read_dict (h ++ [Store.ListObj l]) dref = Store.read_dict h dref.
Proof.
  unfold Store.read_dict. destruct (decide (dref < length h)%nat) as [Hlt|Hge].
  - by rewrite lookup_app_l.
  - rewrite lookup_app_r by lia. rewrite (lookup_ge_None_2 h) by lia.
    by destruct (dref - length h)%nat as [|[|n]].
Qed.

Lemma read_dict_insert_dict h dref d :
  Store.read_dict (<[dref := Store.DictObj d]> h) dref
  = if decide (dref < length h)%nat then d else [].
Proof.
  unfold Store.read_dict. destruct (decide (dref < length h)%nat) as [Hlt|Hge].
  - by rewrite list_lookup_insert_eq.
  - rewrite list_insert_ge by lia. by rewrite lookup_ge_None_2 by lia.
Qed.

Lemma read_dict_insert_list h dref ref l :
  Store.read_dict (<[ref := Store.ListObj l]> h) dref
  = if decide (ref = dref) then [] else Store.read_dict h dref.
Proof.
  unfold Store.read_dict. destruct (decide (ref = dref)) as [->|Hne].
  - destruct (decide (dref < length h)%nat) as [Hlt|Hge].
    + by rewrite list_lookup_insert_eq.
    + rewrite list_insert_ge by lia. by rewrite lookup_ge_None_2 by lia.
  - by rewrite list_lookup_insert_ne.
Qed.

Section store_frame.
Variable doctor_capacity : gmap Z Z.
Variable patient_meta : gmap Z meta.
Variable h0 : list Store.obj.

Lemma forward_check_framed asg cm keys dref :
  (length h0 ≤ dref)%nat →
  ∀ h snap f h' snap',
    Store.forward_check doctor_capacity asg cm keys h dref snap = (f, h', snap') →
    h0 `prefix_of` h → refs_from (length h0) (Store.read_dict h dref) →
    h0 `prefix_of` h' ∧ refs_from (length h0) (Store.read_dict h' dref).
Proof.
  intros Hdref. induction keys as [|other rest IH]; intros h snap f h' snap' Hfc Hpre Hrefs.
  { simpl in Hfc. by simplify_eq. }
  simpl in Hfc. destruct (decide (is_Some (asg !! other))); [by eapply IH|].
  destruct (filter _ _) as [|v0 vs] in Hfc; [by simplify_eq|].
  eapply IH; [exact Hfc| |].
  - apply prefix_insert_ge; [|done]. by apply prefix_app_r.
  - rewrite read_dict_insert_dict, read_dict_snoc_list.
    case_decide; [|by intros ? ? ?%elem_of_nil].
    intros k ref [Hin|Heq]%dict_set_elem_of; [by eapply Hrefs|].
    injection Heq as -> ->. by apply prefix_length.
Qed.

Lemma restore_domains_framed dref snap :
  ∀ h,
    h0 `prefix_of` h → refs_from (length h0) (Store.read_dict h dref) →
    h0 `prefix_of` Store.restore_domains dref h snap
    ∧ refs_from (length h0)
        (Store.read_dict (Store.restore_domains dref h snap) dref).
Proof.
  induction snap as [|[other removed] snap IH]; intros h Hpre Hrefs; [done|].
  unfold Store.restore_domains. simpl.
  fold (Store.restore_domains dref (Store.restore_one dref h (other, removed)) snap).
  apply IH; unfold Store.restore_one; simpl.
  - destruct removed; [done|].
    destruct (dict_get _ other) as [ref|] eqn:Hget; [|done].
    apply prefix_insert_ge; [done|].
    apply dict_get_elem_of in Hget. by eapply Hrefs.
  - destruct removed; [done|].
    destruct (dict_get _ other) as [ref|] eqn:Hget; [|done].
    rewrite read_dict_insert_list. case_decide; [|done].
    by intros ? ? ?%elem_of_nil.
Qed.

Lemma propagate_framed st f st2 snap :
  Store.propagate doctor_capacity st = (f, st2, snap) →
  framed h0 st → framed h0 st2.
Proof.
  unfold Store.propagate. intros Hp (Hpre & Hdref & Hrefs).
  destruct (Store.forward_check _ _ _ _ _ _ _) as [[f' h'] snap'] eqn:Hfc.
  simplify_eq.
  destruct (forward_check_framed _ _ _ _ Hdref _ _ _ _ _ Hfc Hpre Hrefs).
  by split_and!.
Qed.

Lemma undo_framed var val snap st :
  framed h0 st → framed h0 (Store.undo var val snap st).
Proof.
  intros (Hpre & Hdref & Hrefs).
  destruct (restore_domains_framed (Store.domains st) snap _ Hpre Hrefs).
  by split_and!.
Qed.

Lemma try_values_framed rec var :
  (∀ s, framed h0 s → framed h0 (rec s).2) →
  ∀ vals st, framed h0 st →
             framed h0 (Store.try_values doctor_capacity rec var vals st).2.
Proof.
  intros Hrec. induction vals as [|val rest IH]; intros st Hst; [done|].
  simpl. destruct (_ <=? _); [by apply IH|].
  destruct (Store.propagate doctor_capacity (Store.place var val st))
    as [[f st2] snap] eqn:Hprop.
  assert (Hst2 : framed h0 st2) by by eapply propagate_framed.
  destruct f.
  - by apply IH, undo_framed.
  - specialize (Hrec st2 Hst2). destruct (rec st2) as [[| |a] st3]; simpl in *.
    + done.
    + by apply IH, undo_framed.
    + done.
Qed.

Lemma backtrack_framed fuel :
  ∀ st, framed h0 st →
        framed h0 (Store.backtrack doctor_capacity patient_meta fuel st).2.
Proof.
  induction fuel as [|n IH]; intros st Hst; [done|].
  simpl. case_decide; [done|].
  destruct (select_unassigned_var _ _ _); [|done].
  by apply try_values_framed.
Qed.

Lemma copy_entries_framed entries :
  ∀ acc,
    h0 `prefix_of` acc.1 → refs_from (length h0) acc.2 →
    h0 `prefix_of` (fold_left Store.copy_entry entries acc).1
    ∧ refs_from (length h0) (fold_left Store.copy_entry entries acc).2.
Proof.
  induction entries as [|kv entries IH]; intros acc Hpre Hrefs; [done|].
  simpl. apply IH; unfold Store.copy_entry; simpl.
  - by apply prefix_app_r.
  - intros k ref [Hin|Heq]%dict_set_elem_of; [by eapply Hrefs|].
    injection Heq as -> ->. by apply prefix_length.
Qed.

Lemma initial_state_framed dref : framed h0 (Store.initial_state h0 dref).
Proof.
  unfold Store.initial_state, Store.copy_domains.
  destruct (copy_entries_framed (Store.read_dict h0 dref) (h0, []))
    as [Hpre Hrefs]; [done|by intros ? ? ?%elem_of_nil|].
  split_and!; simpl.
  - by apply prefix_app_r.
  - by apply prefix_length.
  - unfold Store.read_dict at 1. by rewrite list_lookup_middle.
Qed.

Lemma search_run_framed dref :
  framed h0 (Store.search_run doctor_capacity patient_meta h0 dref).2.
Proof. apply backtrack_framed, initial_state_framed. Qed.

End store_frame.

Lemma contents_prefix h h' dref :
  h `prefix_of` h' → (dref < length h)%nat →
  (∀ k ref, (k, ref) ∈ Store.read_dict h dref → (ref < length h)%nat) →
  Store.contents h' dref = Store.contents h dref.
Proof.
  intros Hpre Hdref Hrefs.
  assert (Hd : Store.read_dict h' dref = Store.read_dict h dref).
  { unfold Store.read_dict. by rewrite <- (prefix_lookup_lt h h'). }
  unfold Store.contents. rewrite Hd. apply map_ext_in.
  intros [k ref] Hin%list_elem_of_In. simpl. f_equal.
  unfold Store.read_list. rewrite <- (prefix_lookup_lt h h'); [done| |done].
  by eapply Hrefs.
Qed.

(** ** The store: the two embeddings agree *)

Section dict_map.
Context {V W : Type} (g : V → W).

Lemma dict_get_map (d : list (Z * V)) k :
  dict_get (map (λ kv, (kv.1, g kv.2)) d) k = g <$> dict_get d k.
Proof.
  induction d as [|[k1 v1] d IH]; simpl; [done|].
  by destruct (decide (k = k1)).
Qed.

Lemma dict_set_map (d : list (Z * V)) k v :
  map (λ kv, (kv.1, g kv.2)) (dict_set d k v)
  = dict_set (map (λ kv, (kv.1, g kv.2)) d) k (g v).
Proof.
  induction d as [|[k1 v1] d IH]; simpl; [done|].
  destruct (decide (k = k1)); simpl; [done|]. by rewrite IH.
Qed.

End dict_map.

Lemma dict_set_snd_NoDup (d : list (Z * nat)) k r :
  NoDup (map snd d) → r ∉ map snd d → NoDup (map snd (dict_set d k r)).
Proof.
  induction d as [|[k1 r1] d IH]; simpl; intros Hnd Hr.
  - apply NoDup_singleton.
  - apply NoDup_cons in Hnd as [Hr1 Hnd]. apply not_elem_of_cons in Hr as [Hne Hr].
    destruct (decide (k = k1)); simpl.
    + by apply NoDup_cons.
    + apply NoDup_cons. split; [|by apply IH].
      intros Hin. apply list_elem_of_fmap in Hin as ([k' r'] & Heq & Hin).
      simpl in Heq. subst r'. apply dict_set_elem_of in Hin as [Hin|Heq].
      * apply Hr1. apply list_elem_of_fmap. by exists (k', r1).
      * by injection Heq as _ ->.
Qed.

Lemma contents_lookup h dref k :
  match dict_get (Store.read_dict h dref) k with
  | Some ref => Store.read_list h ref
  | None => []
  end = dvals (Store.contents h dref) k.
Proof.
  unfold dvals, Store.contents.
  rewrite (dict_get_map (Store.read_list h)).
  by destruct (dict_get _ k).
Qed.

Lemma contents_keys h dref :
  dict_keys (Store.contents h dref) = dict_keys (Store.read_dict h dref).
Proof.
  unfold Store.contents, dict_keys. rewrite map_map. done.
Qed.

(** [domains[other] = new_domain] on the store is [dict_set] on the
    contents. *)
Lemma store_bind_new_list h dref other new_domain :
  wf_store h dref →
  let h2 := <[dref := Store.DictObj
                (dict_set (Store.read_dict (h ++ [Store.ListObj new_domain]) dref)
                          other (length h))]>
              (h ++ [Store.ListObj new_domain]) in
  Store.contents h2 dref = dict_set (Store.contents h dref) other new_domain
  ∧ wf_store h2 dref.
Proof.
  intros (d & Hd & Hnd & Hrefs) h2.
  assert (Hlt : (dref < length h)%nat) by by eapply lookup_lt_Some.
  assert (Hrd : Store.read_dict h dref = d) by (unfold Store.read_dict; by rewrite Hd).
  assert (Hvalid : ∀ k ref, (k, ref) ∈ d → (ref < length h)%nat ∧ ref ≠ dref).
  { intros k ref Hin. destruct (Hrefs k ref Hin) as [l Hl]. split.
    - by eapply lookup_lt_Some.
    - intros ->. by rewrite Hd in Hl. }
  assert (Hfresh : length h ∉ map snd d).
  { intros ([k ref] & Heq & Hin)%list_elem_of_fmap. simpl in Heq. subst ref.
    destruct (Hvalid _ _ Hin). lia. }
  assert (Hd2 : Store.read_dict h2 dref = dict_set d other (length h)).
  { unfold h2. rewrite read_dict_insert_dict, read_dict_snoc_list, Hrd.
    rewrite decide_True; [done|]. rewrite length_app. simpl. lia. }
  assert (Hnew : h2 !! length h = Some (Store.ListObj new_domain)).
  { unfold h2. rewrite list_lookup_insert_ne by lia. by rewrite list_lookup_middle. }
  assert (Hold : ∀ ref, (ref < length h)%nat → ref ≠ dref → h2 !! ref = h !! ref).
  { intros ref Href Hne. unfold h2. rewrite list_lookup_insert_ne by done.
    by rewrite lookup_app_l. }
  split.
  - unfold Store.contents. rewrite Hd2, Hrd.
    rewrite (dict_set_map (Store.read_list h2)). f_equal.
    + apply map_ext_in. intros [k ref] Hin%list_elem_of_In. simpl. f_equal.
      destruct (Hvalid _ _ Hin). unfold Store.read_list. by rewrite Hold.
    + unfold Store.read_list. by rewrite Hnew.
  - exists (dict_set d other (length h)). split_and!.
    + unfold h2. rewrite list_lookup_insert_eq; [by rewrite read_dict_snoc_list, Hrd|].
      rewrite length_app. simpl. lia.
    + by apply dict_set_snd_NoDup.
    + intros k ref [Hin|Heq]%dict_set_elem_of.
      * destruct (Hvalid _ _ Hin). rewrite Hold by done. by eapply Hrefs.
      * injection Heq as -> ->. by eexists.
Qed.

(** [domains[other].extend(removed)] and [.sort(...)] on the store are
    [dict_set] on the contents. *)
Lemma store_write_list_in_place h dref other ref l :
  wf_store h dref →
  dict_get (Store.read_dict h dref) other = Some ref →
  let h' := <[ref := Store.ListObj l]> h in
  Store.contents h' dref = dict_set (Store.contents h dref) other l
  ∧ wf_store h' dref.
Proof.
  intros (d & Hd & Hnd & Hrefs) Hget h'.
  assert (Hrd : Store.read_dict h dref = d) by (unfold Store.read_dict; by rewrite Hd).
  rewrite Hrd in Hget.
  assert (Hin : (other, ref) ∈ d) by by apply dict_get_elem_of.
  destruct (Hrefs _ _ Hin) as [l0 Hl0].
  assert (Hne : ref ≠ dref) by (intros ->; by rewrite Hd in Hl0).
  assert (Hd' : h' !! dref = Some (Store.DictObj d)).
  { unfold h'. by rewrite list_lookup_insert_ne. }
  split.
  - unfold Store.contents, Store.read_dict. rewrite Hd', Hd.
    clear Hd Hd' Hrd Hrefs Hin. revert Hget Hnd.
    induction d as [|[k1 r1] d IH]; simpl; [done|].
    intros Hget [Hr1 Hnd]%NoDup_cons.
    destruct (decide (other = k1)) as [->|Hk].
    + injection Hget as ->. f_equal.
      * f_equal. unfold Store.read_list, h'.
        rewrite list_lookup_insert_eq; [done|by eapply lookup_lt_Some].
      * apply map_ext_in. intros [k r] Hkr%list_elem_of_In. simpl. f_equal.
        unfold Store.read_list, h'. rewrite list_lookup_insert_ne; [done|].
        intros <-. apply Hr1. apply list_elem_of_fmap. by exists (k, ref).
    + f_equal; [|by apply IH]. f_equal.
      unfold Store.read_list, h'. rewrite list_lookup_insert_ne; [done|].
      intros <-. apply Hr1. apply list_elem_of_fmap. exists (other, ref).
      split; [done|]. by apply dict_get_elem_of.
  - exists d. split_and!; [done|done|].
    intros k r Hkr. unfold h'. destruct (decide (ref = r)) as [<-|Hr].
    + rewrite list_lookup_insert_eq; [by eexists|by eapply lookup_lt_Some].
    + rewrite list_lookup_insert_ne by done. by eapply Hrefs.
Qed.

Section store_refines.
Variable doctor_capacity : gmap Z Z.
Variable patient_meta : gmap Z meta.

Lemma forward_check_agree asg cm dref keys :
  ∀ h snap,
    wf_store h dref →
    ∃ h',
      Store.forward_check doctor_capacity asg cm keys h dref snap
      = ((forward_check doctor_capacity asg cm keys (Store.contents h dref) snap).1.1,
         h',
         (forward_check doctor_capacity asg cm keys (Store.contents h dref) snap).2)
      ∧ Store.contents h' dref
        = (forward_check doctor_capacity asg cm keys (Store.contents h dref) snap).1.2
      ∧ wf_store h' dref.
Proof.
  induction keys as [|other rest IH]; intros h snap Hwf; simpl.
  { by exists h. }
  destruct (decide (is_Some (asg !! other))); [by apply IH|].
  rewrite contents_lookup. fold (dvals (Store.contents h dref) other).
  destruct (filter (λ v, ¬ saturated doctor_capacity cm v)
              (dvals (Store.contents h dref) other)) as [|v0 vs] eqn:Hnew.
  { by exists h. }
  rewrite <- Hnew.
  destruct (store_bind_new_list h dref other
              (filter (λ v, ¬ saturated doctor_capacity cm v)
                 (dvals (Store.contents h dref) other)) Hwf) as [Hc Hwf2].
  simpl in Hc, Hwf2.
  destruct (IH _ (dict_set snap other
                    (filter (λ v, saturated doctor_capacity cm v)
                       (dvals (Store.contents h dref) other))) Hwf2)
    as (h' & Hfc & Hc' & Hwf').
  rewrite Hc in Hfc, Hc'. by exists h'.
Qed.

Lemma restore_domains_agree dref snap :
  ∀ h,
    wf_store h dref →
    (∀ k, k ∈ dict_keys snap → k ∈ dict_keys (Store.contents h dref)) →
    Store.contents (Store.restore_domains dref h snap) dref
    = restore_domains (Store.contents h dref) snap
    ∧ wf_store (Store.restore_domains dref h snap) dref.
Proof.
  induction snap as [|[other removed] snap IH]; intros h Hwf Hkeys; [done|].
  unfold Store.restore_domains, restore_domains. simpl.
  fold (Store.restore_domains dref (Store.restore_one dref h (other, removed)) snap).
  fold (restore_domains (restore_one (Store.contents h dref) (other, removed)) snap).
  assert (Hone : Store.contents (Store.restore_one dref h (other, removed)) dref
                 = restore_one (Store.contents h dref) (other, removed)
                 ∧ wf_store (Store.restore_one dref h (other, removed)) dref).
  { unfold Store.restore_one, restore_one. simpl. destruct removed as [|x xs]; [done|].
    assert (Hin : other ∈ dict_keys (Store.read_dict h dref)).
    { rewrite <- contents_keys. apply Hkeys. unfold dict_keys. simpl. set_solver. }
    apply dict_get_is_Some in Hin as [ref Hget]. rewrite Hget.
    pose proof (contents_lookup h dref other) as Hl. rewrite Hget in Hl.
    rewrite Hl. fold (dvals (Store.contents h dref) other).
    by apply store_write_list_in_place. }
  destruct Hone as [Hc Hwf1]. rewrite <- Hc. apply IH; [done|].
  intros k Hk. rewrite Hc.
  assert (Hk' : k ∈ dict_keys (Store.contents h dref)).
  { apply Hkeys. unfold dict_keys in *. simpl. set_solver. }
  unfold restore_one. simpl. destruct removed; [done|].
  rewrite dict_keys_set_present; [done|].
  apply Hkeys. unfold dict_keys. simpl. set_solver.
Qed.

Lemma propagate_agree hs s :
  represents hs s → wf_store (Store.heap hs) (Store.domains hs) →
  ∃ hs2,
    Store.propagate doctor_capacity hs
    = ((propagate doctor_capacity s).1.1, hs2, (propagate doctor_capacity s).2)
    ∧ represents hs2 (propagate doctor_capacity s).1.2
    ∧ wf_store (Store.heap hs2) (Store.domains hs2)
    ∧ Store.domains hs2 = Store.domains hs.
Proof.
  intros (Hc & Ha & Hcm) Hwf. unfold Store.propagate, propagate.
  rewrite <- contents_keys, Hc, Ha, Hcm.
  destruct (forward_check_agree (assigned s) (capacity_map s) (Store.domains hs)
              (dict_keys (domains s)) (Store.heap hs) [] Hwf) as (h' & Hfc & Hc' & Hwf').
  rewrite Hc in Hfc, Hc'. rewrite Hfc.
  destruct (forward_check doctor_capacity (assigned s) (capacity_map s)
              (dict_keys (domains s)) (domains s) []) as [[f doms] snap].
  simpl in *. eexists. split; [done|]. by split_and!.
Qed.

End store_refines.

Section store_search_refines.
Variable doctor_capacity : gmap Z Z.
Variable patient_meta : gmap Z meta.

Lemma propagate_Inv st f st2 snap :
  Inv doctor_capacity st →
  propagate doctor_capacity st = (f, st2, snap) →
  Inv doctor_capacity st2.
Proof.
  intros HI Hprop.
  destruct (propagate_spec _ _ _ _ _ Hprop (inv_keys _ _ HI))
    as (Ha2 & Hc2 & Ht2 & Hk2 & _).
  destruct HI as [H1 H2 H3 H4 H5].
  constructor; rewrite ?Ha2, ?Hc2, ?Ht2, ?Hk2; done.
Qed.

(** The undo of a placement gives back the assignment and the capacity map
    of before the placement, whatever happened to the domains meanwhile. *)
Lemma undo_after_place var val st f st2 snap st3 :
  Inv doctor_capacity st → assigned st !! var = None →
  var ∈ dict_keys (domains st) →
  usage (capacity_map st) val < cap_limit doctor_capacity val.1 →
  propagate doctor_capacity (place var val st) = (f, st2, snap) →
  assigned st3 = assigned st2 → capacity_map st3 = capacity_map st2 →
  dict_keys (domains st3) = dict_keys (domains st2) →
  Forall event_ok (trace st3) →
  Inv doctor_capacity (undo var val snap st3)
  ∧ assigned (undo var val snap st3) = assigned st
  ∧ capacity_map (undo var val snap st3) = capacity_map st
  ∧ dict_keys (domains (undo var val snap st3)) = dict_keys (domains st)
  ∧ (∀ k, k ∈ dict_keys snap → k ∈ dict_keys (domains st3)).
Proof.
  intros HI Hfresh Hvar Hroom Hprop Ha3 Hc3 Hk3 Ht3.
  pose proof (place_Inv doctor_capacity var val st HI Hfresh Hvar Hroom) as HI1.
  destruct (propagate_spec _ _ _ _ _ Hprop (inv_keys _ _ HI1))
    as (Ha2 & Hc2 & Ht2 & Hk2 & Hsnd & Hsk & _).
  simpl in Ha2, Hc2, Ht2, Hk2, Hsk.
  assert (Hsk3 : ∀ k, k ∈ dict_keys snap → k ∈ dict_keys (domains st3)).
  { intros k Hk. rewrite Hk3, Hk2. by apply Hsk. }
  destruct (restore_domains_spec snap (domains st3) Hsnd Hsk3) as [Hkr _].
  assert (Hcm : release (capacity_map st3) val = capacity_map st).
  { rewrite Hc3, Hc2. apply (release_after_place (assigned st)), HI. }
  assert (Hasg : delete var (assigned st3) = assigned st).
  { rewrite Ha3, Ha2. by apply delete_insert_id. }
  split_and!; simpl; try done; [|by rewrite Hkr, Hk3, Hk2].
  destruct HI as [H1 H2 H3 H4 H5].
  constructor; simpl; rewrite ?Hkr, ?Hk3, ?Hk2, ?Hcm, ?Hasg; try done.
  apply Forall_app. split; [done|]. constructor; [|constructor].
  simpl. split; [|by apply (tracked_positive (assigned st))].
  rewrite Hc3, Hc2, lookup_insert_eq. eexists. split; [done|].
  unfold usage. rewrite (tracked_usage (assigned st)) by done. lia.
Qed.

Lemma place_represents var val hs s :
  represents hs s → represents (Store.place var val hs) (place var val s).
Proof. intros (Hc & Ha & Hcm). split_and!; simpl; by rewrite ?Ha, ?Hcm. Qed.

Lemma undo_agree var val snap hs s :
  represents hs s → wf_store (Store.heap hs) (Store.domains hs) →
  (∀ k, k ∈ dict_keys snap → k ∈ dict_keys (domains s)) →
  represents (Store.undo var val snap hs) (undo var val snap s)
  ∧ wf_store (Store.heap (Store.undo var val snap hs))
             (Store.domains (Store.undo var val snap hs)).
Proof.
  intros (Hc & Ha & Hcm) Hwf Hkeys.
  destruct (restore_domains_agree (Store.domains hs) snap (Store.heap hs) Hwf)
    as [Hr Hwf']; [by rewrite Hc|].
  split; [|done]. split_and!; simpl; by rewrite ?Hr, ?Hc, ?Ha, ?Hcm.
Qed.

Lemma try_values_agree rech rec n var :
  (∀ s, Inv doctor_capacity s → post doctor_capacity n s (rec s)) →
  (∀ hs s, represents hs s → wf_store (Store.heap hs) (Store.domains hs) →
           Inv doctor_capacity s → agree (rech hs) (rec s)) →
  ∀ vals hs s,
    represents hs s → wf_store (Store.heap hs) (Store.domains hs) →
    Inv doctor_capacity s → assigned s !! var = None →
    var ∈ dict_keys (domains s) →
    agree (Store.try_values doctor_capacity rech var vals hs)
          (try_values doctor_capacity rec var vals s).
Proof.
  intros Hpost Hrel. induction vals as [|val rest IH]; intros hs s Hrep Hwf HI Hfresh Hvar.
  { by split_and!. }
  rewrite try_values_cons. simpl Store.try_values.
  assert (Hcm : Store.capacity_map hs = capacity_map s) by apply Hrep.
  rewrite Hcm.
  destruct (Z.leb_spec (cap_limit doctor_capacity val.1) (usage (capacity_map s) val))
    as [Hfull|Hroom]; [by apply IH|].
  destruct (propagate_agree doctor_capacity (Store.place var val hs) (place var val s))
    as (hs2 & Hp & Hrep2 & Hwf2 & _); [by apply place_represents|done|].
  rewrite Hp.
  destruct (propagate doctor_capacity (place var val s)) as [[f st2] snap] eqn:Hprop.
  simpl in Hrep2 |- *.
  pose proof (place_Inv doctor_capacity var val s HI Hfresh Hvar Hroom) as HI1.
  pose proof (propagate_Inv _ _ _ _ HI1 Hprop) as HI2.
  assert (Hnext : ∀ hs3 st3,
    represents hs3 st3 → wf_store (Store.heap hs3) (Store.domains hs3) →
    assigned st3 = assigned st2 → capacity_map st3 = capacity_map st2 →
    dict_keys (domains st3) = dict_keys (domains st2) →
    Forall event_ok (trace st3) →
    agree (Store.try_values doctor_capacity rech var rest
             (Store.undo var val snap hs3))
          (try_values doctor_capacity rec var rest (undo var val snap st3))).
  { intros hs3 st3 Hrep3 Hwf3 Ha3 Hc3 Hk3 Ht3.
    destruct (undo_after_place var val s f st2 snap st3)
      as (HIu & Hau & _ & Hku & Hsk); try done.
    destruct (undo_agree var val snap hs3 st3 Hrep3 Hwf3 Hsk) as [Hrepu Hwfu].
    apply IH; try done.
    - by rewrite Hau.
    - by rewrite Hku. }
  destruct f.
  { apply Hnext; try done. apply HI2. }
  specialize (Hrel hs2 st2 Hrep2 Hwf2 HI2). specialize (Hpost st2 HI2).
  destruct Hrel as (Hout & Hrep3 & Hwf3). unfold post in Hpost.
  destruct (rech hs2) as [oh hs3]. destruct (rec st2) as [o st3].
  simpl in Hout, Hrep3, Hwf3, Hpost. subst oh.
  destruct o as [| |a].
  - by split_and!.
  - destruct Hpost as (? & ? & ? & _ & ?). by apply Hnext.
  - by split_and!.
Qed.

Lemma backtrack_agree fuel :
  ∀ hs s,
    represents hs s → wf_store (Store.heap hs) (Store.domains hs) →
    Inv doctor_capacity s →
    agree (Store.backtrack doctor_capacity patient_meta fuel hs)
          (backtrack doctor_capacity patient_meta fuel s).
Proof.
  induction fuel as [|n IH]; intros hs s Hrep Hwf HI.
  { by split_and!. }
  rewrite backtrack_S. simpl Store.backtrack.
  destruct Hrep as (Hc & Ha & Hcm). rewrite Hc, Ha.
  case_decide.
  { by split_and!. }
  destruct (select_unassigned_var (domains s) (assigned s) patient_meta)
    as [var|] eqn:Hsel; [|by split_and!].
  apply select_unassigned_var_Some in Hsel as [Hvar Hfresh].
  apply (try_values_agree _ _ n); try done.
  intros s' HI'. by apply backtrack_post.
Qed.

(** Line 281 on the store makes a state with the contents of the caller's
    dictionary. *)
Lemma copy_entries_agree h todo :
  ∀ ha ea,
    h `prefix_of` ha →
    (∀ k ref, (k, ref) ∈ todo → (ref < length h)%nat) →
    NoDup (dict_keys ea ++ dict_keys todo) →
    NoDup (map snd ea) →
    (∀ k r, (k, r) ∈ ea → ∃ l, ha !! r = Some (Store.ListObj l)) →
    let acc := fold_left Store.copy_entry todo (ha, ea) in
    map (λ kv, (kv.1, Store.read_list acc.1 kv.2)) acc.2
    = map (λ kv, (kv.1, Store.read_list ha kv.2)) ea
      ++ map (λ kv, (kv.1, Store.read_list h kv.2)) todo
    ∧ NoDup (map snd acc.2)
    ∧ (∀ k r, (k, r) ∈ acc.2 → ∃ l, acc.1 !! r = Some (Store.ListObj l)).
Proof.
  induction todo as [|[k ref] todo IH]; intros ha ea Hpre Hvalid Hnd Hrefs Hlists.
  { simpl. by rewrite app_nil_r. }
  simpl.
  change (Store.copy_entry (ha, ea) (k, ref))
    with (ha ++ [Store.ListObj (Store.read_list ha ref)], dict_set ea k (length ha)).
  assert (Hk : k ∉ dict_keys ea).
  { apply NoDup_app in Hnd as (_ & Hdisj & _). intros Hin.
    apply (Hdisj k Hin). unfold dict_keys. simpl. set_solver. }
  assert (Hea : dict_set ea k (length ha) = ea ++ [(k, length ha)]).
  { clear -Hk. induction ea as [|[k1 r1] ea IH]; simpl; [done|].
    unfold dict_keys in Hk. simpl in Hk. apply not_elem_of_cons in Hk as [Hne Hk].
    rewrite decide_False by done. f_equal. by apply IH. }
  assert (Hread : Store.read_list ha ref = Store.read_list h ref).
  { unfold Store.read_list. rewrite <- (prefix_lookup_lt h ha); [done| |done].
    eapply Hvalid. apply list_elem_of_here. }
  assert (Hold : ∀ k' r, (k', r) ∈ ea →
            Store.read_list (ha ++ [Store.ListObj (Store.read_list ha ref)]) r
            = Store.read_list ha r).
  { intros k' r Hin. destruct (Hlists _ _ Hin) as [l Hl].
    unfold Store.read_list. by rewrite (lookup_app_l_Some _ _ _ _ Hl), Hl. }
  destruct (IH (ha ++ [Store.ListObj (Store.read_list ha ref)])
               (dict_set ea k (length ha))) as (Hmap & Hnd' & Hlists').
  - by apply prefix_app_r.
  - intros k' r' Hin. eapply Hvalid. by apply list_elem_of_further.
  - rewrite Hea. unfold dict_keys in *. rewrite map_app. simpl in *.
    by rewrite <- (assoc_L (++)).
  - rewrite Hea, map_app. simpl. apply NoDup_app. split_and!; [done| |apply NoDup_singleton].
    intros r ([k' r'] & Heq & Hin)%list_elem_of_fmap ->%list_elem_of_singleton.
    simpl in Heq. subst r'. destruct (Hlists _ _ Hin) as [l Hl].
    apply lookup_lt_Some in Hl. lia.
  - rewrite Hea. intros k' r [Hin| [= -> ->]%list_elem_of_singleton]%elem_of_app.
    + destruct (Hlists _ _ Hin) as [l Hl]. exists l. by apply lookup_app_l_Some.
    + eexists. by apply list_lookup_middle.
  - split_and!; [|done|done].
    rewrite Hmap, Hea, map_app. simpl. rewrite <- (assoc_L (++)). simpl.
    f_equal.
    + apply map_ext_in. intros [k' r] Hin%list_elem_of_In. simpl. f_equal.
      by eapply Hold.
    + f_equal. f_equal. unfold Store.read_list at 1.
      rewrite list_lookup_middle by done. exact Hread.
Qed.

Lemma initial_state_agree h dref :
  NoDup (dict_keys (Store.read_dict h dref)) →
  (∀ k ref, (k, ref) ∈ Store.read_dict h dref → (ref < length h)%nat) →
  represents (Store.initial_state h dref) (initial_state (Store.contents h dref))
  ∧ wf_store (Store.heap (Store.initial_state h dref))
             (Store.domains (Store.initial_state h dref)).
Proof.
  intros Hnd Hvalid. unfold Store.initial_state, Store.copy_domains.
  destruct (copy_entries_agree h (Store.read_dict h dref) h [])
    as (Hmap & Hrefs & Hlists); try done.
  { constructor. }
  { by intros ? ? ?%elem_of_nil. }
  set (acc := fold_left Store.copy_entry (Store.read_dict h dref) (h, [])) in *.
  simpl in Hmap.
  assert (Hd : Store.read_dict (acc.1 ++ [Store.DictObj acc.2]) (length acc.1) = acc.2).
  { unfold Store.read_dict. by rewrite list_lookup_middle. }
  split.
  - split_and!; [|done|done].
    rewrite initial_state_domains. simpl. unfold Store.contents at 1. rewrite Hd.
    unfold Store.contents. rewrite <- Hmap.
    apply map_ext_in. intros [k r] Hin%list_elem_of_In.
    simpl. f_equal. destruct (Hlists _ _ Hin) as [l Hl].
    unfold Store.read_list. by rewrite (lookup_app_l_Some _ _ _ _ Hl), Hl.
  - simpl. exists acc.2. split_and!; [by apply list_lookup_middle|done|].
    intros k r Hin. destruct (Hlists _ _ Hin) as [l Hl]. exists l.
    by apply lookup_app_l_Some.
Qed.

(** On a caller's dictionary with distinct keys and live list references,
    the search over the store returns what the first embedding returns on
    the contents of that dictionary. *)
Lemma store_search_agrees h dref :
  NoDup (dict_keys (Store.read_dict h dref)) →
  (∀ k ref, (k, ref) ∈ Store.read_dict h dref → (ref < length h)%nat) →
  Store.backtracking_search doctor_capacity patient_meta h dref
  = backtracking_search doctor_capacity patient_meta (Store.contents h dref).
Proof.
  intros Hnd Hvalid. unfold Store.backtracking_search, backtracking_search.
  unfold Store.search_run, search_run.
  destruct (initial_state_agree h dref Hnd Hvalid) as [Hrep Hwf].
  assert (Hlen : length (Store.contents h dref) = length (Store.read_dict h dref)).
  { unfold Store.contents. by rewrite length_map. }
  rewrite Hlen.
  apply backtrack_agree; [done|done|].
  apply initial_state_Inv. by rewrite contents_keys.
Qed.

End store_search_refines.

(** ** The search finds a schedule when there is one *)

Lemma occupancy_subseteq (a b : gmap Z value) key :
  a ⊆ b → (occupancy a key ≤ occupancy b key)%nat.
Proof.
  intros Hsub. unfold occupancy. apply map_subseteq_size.
  by apply map_filter_subseteq_mono.
Qed.

Lemma occupancy_room (a sol : gmap Z value) k v :
  a ⊆ sol → a !! k = None → sol !! k = Some v →
  (occupancy a v < occupancy sol v)%nat.
Proof.
  intros Hsub Hk Hv.
  assert (Hins : <[k := v]> a ⊆ sol) by by apply insert_subseteq_l.
  apply (occupancy_subseteq _ _ v) in Hins.
  rewrite occupancy_insert in Hins by done. rewrite decide_True in Hins by done. lia.
Qed.

Section complete.
Variable doctor_capacity : gmap Z Z.
Variable patient_meta : gmap Z meta.

(** Forward checking keeps every value that is not saturated, and does not
    fail when every unassigned patient has such a value. *)
Lemma forward_check_keeps asg cm keys :
  ∀ doms snap f doms' snap',
    forward_check doctor_capacity asg cm keys doms snap = (f, doms', snap') →
    NoDup keys →
    (∀ q, q ∈ keys → asg !! q = None →
          ∃ v, v ∈ dvals doms q ∧ ¬ saturated doctor_capacity cm v) →
    f = false
    ∧ ∀ q v, v ∈ dvals doms q → ¬ saturated doctor_capacity cm v →
             v ∈ dvals doms' q.
Proof.
  induction keys as [|other rest IH]; intros doms snap f doms' snap' Hfc Hnd Hlive.
  { simpl in Hfc. by simplify_eq. }
  apply NoDup_cons in Hnd as [Hother Hnd]. simpl in Hfc.
  destruct (decide (is_Some (asg !! other))) as [Hasg|Hasg].
  { eapply IH; [exact Hfc|done|]. intros q Hq. apply Hlive. set_solver. }
  assert (Hfree : asg !! other = None).
  { destruct (asg !! other) eqn:E; [|done]. exfalso. apply Hasg. by eexists. }
  destruct (Hlive other) as (v0 & Hv0 & Hsat0); [set_solver|done|].
  fold (dvals doms other) in Hfc.
  remember (filter (λ v, ¬ saturated doctor_capacity cm v) (dvals doms other))
    as new_domain eqn:Hnew.
  assert (Hin0 : v0 ∈ new_domain).
  { rewrite Hnew. by apply list_elem_of_filter. }
  destruct new_domain as [|x xs]; [by apply elem_of_nil in Hin0|].
  rewrite Hnew in Hfc.
  destruct (IH _ _ _ _ _ Hfc Hnd) as [Hf Hkeep].
  { intros q Hq Hqfree. rewrite dvals_set_ne by (intros ->; done).
    apply Hlive; [set_solver|done]. }
  split; [done|]. intros q v Hv Hsat. apply Hkeep; [|done].
  destruct (decide (other = q)) as [<-|Hne].
  - rewrite dvals_set_eq. by apply list_elem_of_filter.
  - by rewrite dvals_set_ne.
Qed.

Lemma propagate_keeps st f st2 snap :
  propagate doctor_capacity st = (f, st2, snap) →
  NoDup (dict_keys (domains st)) →
  (∀ q, q ∈ dict_keys (domains st) → assigned st !! q = None →
        ∃ v, v ∈ dvals (domains st) q
             ∧ ¬ saturated doctor_capacity (capacity_map st) v) →
  f = false
  ∧ ∀ q v, v ∈ dvals (domains st) q →
           ¬ saturated doctor_capacity (capacity_map st) v →
           v ∈ dvals (domains st2) q.
Proof.
  unfold propagate. intros Hp Hnd Hlive.
  destruct (forward_check _ _ _ _ _ _) as [[f' doms] snap'] eqn:Hfc.
  simplify_eq. simpl. by eapply forward_check_keeps.
Qed.

(** After the undo of a placement the domains hold the values they held
    before it, provided the branch in between gave them back. *)
Lemma undo_after_place_values var val st f st2 snap st3 :
  Inv doctor_capacity st → assigned st !! var = None →
  var ∈ dict_keys (domains st) →
  usage (capacity_map st) val < cap_limit doctor_capacity val.1 →
  propagate doctor_capacity (place var val st) = (f, st2, snap) →
  dict_keys (domains st3) = dict_keys (domains st2) →
  (∀ k v, v ∈ dvals (domains st3) k ↔ v ∈ dvals (domains st2) k) →
  ∀ k v, v ∈ dvals (domains (undo var val snap st3)) k
         ↔ v ∈ dvals (domains st) k.
Proof.
  intros HI Hfresh Hvar Hroom Hprop Hk3 Hm3 k v.
  pose proof (place_Inv doctor_capacity var val st HI Hfresh Hvar Hroom) as HI1.
  destruct (propagate_spec _ _ _ _ _ Hprop (inv_keys _ _ HI1))
    as (_ & _ & _ & Hk2 & Hsnd & Hsk & _ & Hmem & _).
  simpl in Hk2, Hsk, Hmem.
  destruct (restore_domains_spec snap (domains st3) Hsnd) as [_ Hr].
  { intros k' Hk'. rewrite Hk3, Hk2. by apply Hsk. }
  destruct (Hr k) as [Hperm _]. simpl.
  rewrite Hperm, elem_of_app, Hm3. apply Hmem.
Qed.

Lemma reachable_has_room st sol k v :
  Inv doctor_capacity st →
  (∀ key, (0 < occupancy sol key)%nat →
          Z.of_nat (occupancy sol key) ≤ cap_limit doctor_capacity key.1) →
  assigned st ⊆ sol → assigned st !! k = None → sol !! k = Some v →
  usage (capacity_map st) v < cap_limit doctor_capacity v.1.
Proof.
  intros HI Hcap Hsub Hk Hv.
  pose proof (occupancy_room _ _ _ _ Hsub Hk Hv) as Hroom.
  unfold usage. rewrite (tracked_usage (assigned st)) by apply HI.
  specialize (Hcap v). lia.
Qed.

Lemma try_values_complete rec n var sol target :
  (∀ key, (0 < occupancy sol key)%nat →
          Z.of_nat (occupancy sol key) ≤ cap_limit doctor_capacity key.1) →
  sol !! var = Some target →
  (∀ s, Inv doctor_capacity s → post doctor_capacity n s (rec s)) →
  (∀ s, Inv doctor_capacity s → reachable_schedule s sol →
        (length (domains s) < n + size (assigned s))%nat →
        ∃ a, (rec s).1 = Schedule a) →
  ∀ vals st,
    Inv doctor_capacity st → reachable_schedule st sol →
    (length (domains st) < S n + size (assigned st))%nat →
    assigned st !! var = None → var ∈ dict_keys (domains st) →
    target ∈ vals →
    ∃ a, (try_values doctor_capacity rec var vals st).1 = Schedule a.
Proof.
  intros Hcap Htarget Hpost Hrec.
  induction vals as [|val rest IH]; intros st HI Hreach Hfuel Hfresh Hvar Hin.
  { by apply elem_of_nil in Hin. }
  destruct Hreach as [Hsub Hlive].
  rewrite try_values_cons.
  destruct (Z.leb_spec (cap_limit doctor_capacity val.1) (usage (capacity_map st) val))
    as [Hfull|Hroom].
  { apply IH; try done. apply elem_of_cons in Hin as [->|Hin]; [|done].
    pose proof (reachable_has_room st sol var val HI Hcap Hsub Hfresh Htarget). lia. }
  pose proof (place_Inv doctor_capacity var val st HI Hfresh Hvar Hroom) as HI1.
  destruct (propagate doctor_capacity (place var val st)) as [[f st2] snap] eqn:Hprop.
  pose proof (propagate_Inv _ _ _ _ _ HI1 Hprop) as HI2.
  destruct (propagate_spec _ _ _ _ _ Hprop (inv_keys _ _ HI1))
    as (Ha2 & Hc2 & Ht2 & Hk2 & _).
  simpl in Ha2, Hc2, Ht2, Hk2.
  assert (Hsize2 : size (assigned st2) = S (size (assigned st))).
  { rewrite Ha2. by apply map_size_insert_None. }
  assert (Hlen2 : length (domains st2) = length (domains st)).
  { by rewrite <- !dict_keys_length, Hk2. }
  (* the branch failed: undo, and go on with the rest *)
  assert (Hnext : val ≠ target → ∀ st3,
    assigned st3 = assigned st2 → capacity_map st3 = capacity_map st2 →
    dict_keys (domains st3) = dict_keys (domains st2) →
    (∀ k v, v ∈ dvals (domains st3) k ↔ v ∈ dvals (domains st2) k) →
    Forall event_ok (trace st3) →
    ∃ a, (try_values doctor_capacity rec var rest (undo var val snap st3)).1
         = Schedule a).
  { intros Hne st3 Ha3 Hc3 Hk3 Hm3 Ht3.
    destruct (undo_after_place doctor_capacity var val st f st2 snap st3)
      as (HIu & Hau & _ & Hku & _); try done.
    pose proof (undo_after_place_values var val st f st2 snap st3
                  HI Hfresh Hvar Hroom Hprop Hk3 Hm3) as Hmu.
    apply IH; try done.
    - split; [by rewrite Hau|]. intros k Hk Hkfree.
      rewrite Hku in Hk. rewrite Hau in Hkfree.
      destruct (Hlive k Hk Hkfree) as (v & Hv & Hvin). exists v.
      split; [done|]. by apply Hmu.
    - rewrite Hau. by rewrite <- dict_keys_length, Hku, dict_keys_length.
    - by rewrite Hau.
    - by rewrite Hku.
    - apply elem_of_cons in Hin as [->|Hin]; done. }
  destruct (decide (val = target)) as [->|Hne].
  - (* the pair of the schedule: forward checking passes, the call succeeds *)
    assert (Hins : <[var := target]> (assigned st) ⊆ sol)
      by by apply insert_subseteq_l.
    assert (Hroom_after : ∀ q v,
      <[var := target]> (assigned st) !! q = None → sol !! q = Some v →
      ¬ saturated doctor_capacity (capacity_map (place var target st)) v).
    { intros q v Hq Hv. unfold saturated.
      pose proof (reachable_has_room _ sol q v HI1 Hcap Hins Hq Hv) as Hr.
      intros Hsat. apply Is_true_true in Hsat. apply Z.leb_le in Hsat. lia. }
    destruct (propagate_keeps _ _ _ _ Hprop (inv_keys _ _ HI1)) as [-> Hkeep].
    { intros q Hq Hqfree. simpl in Hq, Hqfree.
      assert (Hqfree' : assigned st !! q = None).
      { apply lookup_insert_None in Hqfree as [? _]. done. }
      destruct (Hlive q Hq Hqfree') as (v & Hv & Hvin).
      exists v. split; [done|]. by eapply Hroom_after. }
    destruct (Hrec st2 HI2) as [a Ha].
    + split; [by rewrite Ha2|]. intros q Hq Hqfree.
      rewrite Hk2 in Hq. rewrite Ha2 in Hqfree.
      assert (Hqfree' : assigned st !! q = None).
      { apply lookup_insert_None in Hqfree as [? _]. done. }
      destruct (Hlive q Hq Hqfree') as (v & Hv & Hvin).
      exists v. split; [done|]. apply Hkeep; [done|]. by eapply Hroom_after.
    + lia.
    + exists a. simpl. destruct (rec st2) as [o st3]. simpl in Ha. by subst o.
  - destruct f.
    + simpl. apply Hnext; try done. rewrite Ht2. apply HI1.
    + specialize (Hpost st2 HI2). unfold post in Hpost.
      destruct (rec st2) as [[| |a] st3]; simpl in Hpost |- *.
      * lia.
      * destruct Hpost as (? & ? & ? & ? & ?). by apply Hnext.
      * by exists a.
Qed.

Lemma unassigned_exists st :
  Inv doctor_capacity st → size (assigned st) ≠ length (domains st) →
  ∃ k, k ∈ dict_keys (domains st) ∧ assigned st !! k = None.
Proof.
  intros HI Hne.
  destruct (decide (Forall (λ k, is_Some (assigned st !! k)) (dict_keys (domains st))))
    as [Hall|Hnot].
  - exfalso. apply Hne. apply Nat.le_antisymm; [by apply (Inv_size doctor_capacity)|].
    rewrite <- (dict_keys_length (domains st)).
    rewrite <- (size_list_to_set (C := gset Z) _ (inv_keys _ _ HI)).
    assert (Hsz : size (dom (assigned st) : gset Z) = size (assigned st))
      by apply size_dom.
    rewrite <- Hsz. apply subseteq_size. intros k Hk%elem_of_list_to_set.
    apply elem_of_dom. rewrite Forall_forall in Hall. by apply Hall.
  - apply not_Forall_Exists in Hnot; [|apply _].
    apply Exists_exists in Hnot as (k & Hk & Hnone). exists k. split; [done|].
    destruct (assigned st !! k) eqn:E; [|done]. exfalso. apply Hnone. by eexists.
Qed.

Lemma backtrack_complete sol fuel :
  (∀ key, (0 < occupancy sol key)%nat →
          Z.of_nat (occupancy sol key) ≤ cap_limit doctor_capacity key.1) →
  ∀ st,
    Inv doctor_capacity st → reachable_schedule st sol →
    (length (domains st) < fuel + size (assigned st))%nat →
    ∃ a, (backtrack doctor_capacity patient_meta fuel st).1 = Schedule a.
Proof.
  intros Hcap. induction fuel as [|n IH]; intros st HI Hreach Hfuel.
  { pose proof (Inv_size doctor_capacity st HI). lia. }
  rewrite backtrack_S. case_decide as Hfull; [by eexists|].
  destruct (select_unassigned_var (domains st) (assigned st) patient_meta)
    as [var|] eqn:Hsel.
  - apply select_unassigned_var_Some in Hsel as [Hvar Hfresh].
    destruct Hreach as [Hsub Hlive].
    destruct (Hlive var Hvar Hfresh) as (target & Htarget & Hin).
    apply (try_values_complete _ n var sol target); try done.
    + intros s Hs. by apply backtrack_post.
    + by apply elem_of_sort_by_slot.
  - exfalso. destruct (unassigned_exists st HI Hfull) as (k & Hk & Hfree).
    pose proof (select_unassigned_var_pool (domains st) (assigned st) patient_meta) as Hp.
    rewrite Hsel in Hp. unfold pool_of in Hp.
    assert (Hku : k ∈ filter (λ vid, assigned st !! vid = None) (dict_keys (domains st))).
    { by apply list_elem_of_filter. }
    destruct (filter (λ v, is_emergency patient_meta v) _) as [|e es] eqn:He.
    + rewrite Hp in Hku. by apply elem_of_nil in Hku.
    + done.
Qed.

Lemma search_complete doms sol :
  NoDup (dict_keys doms) → valid_schedule doctor_capacity doms sol →
  ∃ a, backtracking_search doctor_capacity patient_meta doms = Schedule a.
Proof.
  intros Hnd (Hall & Hdom & Hcap). unfold backtracking_search, search_run.
  apply (backtrack_complete sol); [done| | |].
  - by apply initial_state_Inv.
  - split; [apply map_empty_subseteq|].
    intros k Hk _. rewrite initial_state_domains in Hk |- *. by apply Hall.
  - rewrite initial_state_domains. simpl. lia.
Qed.

Lemma search_sound doms a :
  NoDup (dict_keys doms) →
  backtracking_search doctor_capacity patient_meta doms = Schedule a →
  valid_schedule doctor_capacity doms a.
Proof.
  intros Hnd Hres. split_and!.
  - intros k Hk.
    destruct (schedule_complete doctor_capacity patient_meta doms a Hnd Hres) as [Hkeys _].
    destruct (proj1 (Hkeys k) Hk) as [v Hv]. exists v. split; [done|].
    by eapply schedule_from_domains.
  - intros k Hk.
    destruct (schedule_complete doctor_capacity patient_meta doms a Hnd Hres) as [Hkeys _].
    by apply Hkeys.
  - intros key Hocc. by eapply schedule_occupied_within_capacity.
Qed.

End complete.

(** ** A forward check that fails *)

Lemma filter_all_when_complement_empty {A} (P : A → Prop) `{∀ x, Decision (P x)}
    (l : list A) :
  filter (λ x, ¬ P x) l = [] → filter P l = l.
Proof.
  induction l as [|x l IH]; [done|].
  rewrite !filter_cons. destruct (decide (P x)) as [Hp|Hp].
  - rewrite decide_False by tauto. intros Hl. by rewrite IH.
  - rewrite decide_True by done. done.
Qed.

Section failed_check.
Variable doctor_capacity : gmap Z Z.

(** The loop of lines 241-259 fails at one unassigned patient, all of whose
    values are saturated: it records the whole domain as removed and leaves
    the domain in place. *)
Lemma forward_check_fails asg cm keys :
  ∀ doms snap doms' snap',
    forward_check doctor_capacity asg cm keys doms snap = (true, doms', snap') →
    NoDup keys → (∀ k, k ∈ keys → k ∉ dict_keys snap) →
    ∃ q, q ∈ keys ∧ asg !! q = None
         ∧ dvals doms' q = dvals doms q
         ∧ dvals snap' q = dvals doms q
         ∧ ∀ v, v ∈ dvals doms q → saturated doctor_capacity cm v.
Proof.
  induction keys as [|other rest IH]; intros doms snap doms' snap' Hfc Hnd Hfresh.
  { simpl in Hfc. by simplify_eq. }
  apply NoDup_cons in Hnd as [Hother Hnd]. simpl in Hfc.
  destruct (decide (is_Some (asg !! other))) as [Hasg|Hasg].
  { destruct (IH _ _ _ _ Hfc Hnd) as (q & Hq & Hrest); [set_solver|].
    exists q. split; [set_solver|done]. }
  assert (Hfree : asg !! other = None).
  { destruct (asg !! other) eqn:E; [|done]. exfalso. apply Hasg. by eexists. }
  fold (dvals doms other) in Hfc.
  destruct (filter (λ v, ¬ saturated doctor_capacity cm v) (dvals doms other))
    as [|x xs] eqn:Hnew.
  - simplify_eq. exists other. split_and!; [set_solver|done|done| |].
    + rewrite dvals_set_eq. by apply filter_all_when_complement_empty.
    + intros v Hv. destruct (decide (saturated doctor_capacity cm v)) as [|Hn]; [done|].
      assert (Hin : v ∈ filter (λ v, ¬ saturated doctor_capacity cm v) (dvals doms' other))
        by by apply list_elem_of_filter.
      rewrite Hnew in Hin. by apply elem_of_nil in Hin.
  - destruct (IH _ _ _ _ Hfc Hnd) as (q & Hq & Hqfree & Hd & Hs & Hsat).
    { intros k Hk. rewrite dict_keys_set_absent by (apply Hfresh; set_solver).
      rewrite not_elem_of_app. split; [apply Hfresh; set_solver|].
      rewrite list_elem_of_singleton. intros ->. done. }
    assert (Hne : other ≠ q) by (intros ->; done).
    rewrite dvals_set_ne in Hd, Hs, Hsat by done.
    exists q. split_and!; try done. set_solver.
Qed.

Lemma failed_check_doubles st var val st2 snap :
  NoDup (dict_keys (domains st)) →
  propagate doctor_capacity (place var val st) = (true, st2, snap) →
  ∃ q, q ∈ dict_keys (domains st) ∧ q ≠ var ∧ assigned st !! q = None
       ∧ (∀ v, v ∈ dvals (domains st) q →
               saturated doctor_capacity (capacity_map (place var val st)) v)
       ∧ dvals (domains (undo var val snap st2)) q
         = sort_by_slot (dvals (domains st) q ++ dvals (domains st) q).
Proof.
  intros Hnd Hprop.
  destruct (propagate_spec _ _ _ _ _ Hprop Hnd)
    as (_ & _ & _ & Hk2 & Hsnd & Hsk & _).
  simpl in Hk2, Hsk.
  unfold propagate in Hprop.
  destruct (forward_check _ _ _ _ _ _) as [[f doms] snap'] eqn:Hfc.
  assert (Hf : f = true) by by injection Hprop.
  assert (Hdoms : domains st2 = doms) by (injection Hprop as _ <- _; done).
  assert (Hsnap : snap' = snap) by by injection Hprop.
  subst f snap'. clear Hprop. simpl in Hfc.
  destruct (forward_check_fails _ _ _ _ _ _ _ Hfc Hnd)
    as (q & Hq & Hqfree & Hd & Hs & Hsat).
  { intros k _. apply not_elem_of_nil. }
  apply lookup_insert_None in Hqfree as [Hqfree Hne].
  exists q. split_and!; try done.
  destruct (restore_domains_spec snap (domains st2) Hsnd) as [_ Hr].
  { intros k Hk. rewrite Hk2. by apply Hsk. }
  destruct (Hr q) as (_ & Hsame & Hsort). rewrite Hdoms, Hs, Hd in *. simpl.
  destruct (dvals (domains st) q) as [|x xs] eqn:Hdq.
  - unfold dvals at 1. rewrite Hdoms, Hsame by done. fold (dvals doms q). by rewrite Hd.
  - rewrite Hdoms. by apply Hsort.
Qed.

End failed_check.

(** ** The capacity map never goes above a capacity *)

Section trace_within.
Variable doctor_capacity : gmap Z Z.
Variable patient_meta : gmap Z meta.

Lemma Inv_within st :
  Inv doctor_capacity st → within_capacity doctor_capacity (capacity_map st).
Proof.
  intros HI key c Hc. rewrite (inv_tracker _ _ HI) in Hc. unfold tracked in Hc.
  destruct (occupancy (assigned st) key) as [|n] eqn:Hocc; [done|].
  injection Hc as <-. rewrite <- Hocc. apply (inv_capacity _ _ HI). lia.
Qed.

Lemma try_values_within rec n var :
  (∀ s, Inv doctor_capacity s → post doctor_capacity n s (rec s)) →
  (∀ s, Inv doctor_capacity s →
        Forall (event_within doctor_capacity) (trace s) →
        Forall (event_within doctor_capacity) (trace (rec s).2)) →
  ∀ vals st,
    Inv doctor_capacity st → assigned st !! var = None →
    var ∈ dict_keys (domains st) →
    Forall (event_within doctor_capacity) (trace st) →
    Forall (event_within doctor_capacity)
           (trace (try_values doctor_capacity rec var vals st).2).
Proof.
  intros Hpost Hrec. induction vals as [|val rest IH]; intros st HI Hfresh Hvar Htr; [done|].
  rewrite try_values_cons.
  destruct (Z.leb_spec (cap_limit doctor_capacity val.1) (usage (capacity_map st) val))
    as [Hfull|Hroom]; [by apply IH|].
  pose proof (place_Inv doctor_capacity var val st HI Hfresh Hvar Hroom) as HI1.
  destruct (propagate doctor_capacity (place var val st)) as [[f st2] snap] eqn:Hprop.
  pose proof (propagate_Inv _ _ _ _ _ HI1 Hprop) as HI2.
  destruct (propagate_spec _ _ _ _ _ Hprop (inv_keys _ _ HI1))
    as (Ha2 & Hc2 & Ht2 & Hk2 & _).
  simpl in Ha2, Hc2, Ht2, Hk2.
  assert (Htr2 : Forall (event_within doctor_capacity) (trace st2)).
  { rewrite Ht2. apply Forall_app. split; [done|]. constructor; [|constructor].
    simpl. apply (Inv_within _ HI1). }
  assert (Hnext : ∀ st3,
    assigned st3 = assigned st2 → capacity_map st3 = capacity_map st2 →
    dict_keys (domains st3) = dict_keys (domains st2) →
    Forall event_ok (trace st3) →
    Forall (event_within doctor_capacity) (trace st3) →
    Forall (event_within doctor_capacity)
      (trace (try_values doctor_capacity rec var rest (undo var val snap st3)).2)).
  { intros st3 Ha3 Hc3 Hk3 Hok3 Hw3.
    destruct (undo_after_place doctor_capacity var val st f st2 snap st3)
      as (HIu & Hau & Hcu & Hku & _); try done.
    apply IH; try done.
    - by rewrite Hau.
    - by rewrite Hku.
    - simpl. apply Forall_app. split; [done|]. constructor; [|constructor].
      simpl. simpl in Hcu. rewrite Hcu. by apply Inv_within. }
  destruct f.
  { simpl. apply Hnext; try done. apply HI2. }
  specialize (Hpost st2 HI2). specialize (Hrec st2 HI2 Htr2). unfold post in Hpost.
  destruct (rec st2) as [[| |a] st3]; simpl in Hpost, Hrec |- *; [done| |done].
  destruct Hpost as (? & ? & ? & ? & ?). by apply Hnext.
Qed.

Lemma backtrack_within fuel :
  ∀ st,
    Inv doctor_capacity st →
    Forall (event_within doctor_capacity) (trace st) →
    Forall (event_within doctor_capacity)
           (trace (backtrack doctor_capacity patient_meta fuel st).2).
Proof.
  induction fuel as [|n IH]; intros st HI Htr; [done|].
  rewrite backtrack_S. case_decide; [done|].
  destruct (select_unassigned_var _ _ _) as [var|] eqn:Hsel; [|done].
  apply select_unassigned_var_Some in Hsel as [Hvar Hfresh].
  apply (try_values_within _ n); try done.
  intros s Hs. by apply backtrack_post.
Qed.

End trace_within.

(** ** More on [build_domains] *)

Section build_domains_more.
Variable doctors : list doctor.
Variable slots : list string.

Lemma fold_domains_keys patients :
  ∀ acc : list (Z * list value),
    NoDup (dict_keys acc ++ map p_id patients) →
    dict_keys (fold_left
                 (λ domains p, dict_set domains (p_id p) (allowed p doctors slots))
                 patients acc)
    = dict_keys acc ++ map p_id patients.
Proof.
  induction patients as [|p ps IH]; intros acc Hnd; simpl.
  { by rewrite app_nil_r. }
  simpl in Hnd.
  assert (Hp : p_id p ∉ dict_keys acc).
  { apply NoDup_app in Hnd as (_ & Hdisj & _). intros Hin.
    apply (Hdisj _ Hin). apply list_elem_of_here. }
  rewrite IH; rewrite dict_keys_set_absent by done.
  - by rewrite <- (assoc_L (++)).
  - by rewrite <- (assoc_L (++)).
Qed.

Lemma build_domains_keys patients :
  NoDup (map p_id patients) →
  dict_keys (build_domains patients doctors slots) = map p_id patients.
Proof. intros Hnd. unfold build_domains. by rewrite fold_domains_keys. Qed.

Lemma build_domains_elem_of_keys patients k :
  k ∈ dict_keys (build_domains patients doctors slots) ↔ k ∈ map p_id patients.
Proof.
  unfold build_domains.
  assert (Hgen : ∀ acc : list (Z * list value),
    k ∈ dict_keys (fold_left
                     (λ domains p, dict_set domains (p_id p) (allowed p doctors slots))
                     patients acc)
    ↔ k ∈ dict_keys acc ∨ k ∈ map p_id patients).
  { induction patients as [|p ps IH]; intros acc; simpl.
    - rewrite elem_of_nil. tauto.
    - rewrite IH, elem_of_cons.
      destruct (decide (p_id p ∈ dict_keys acc)) as [Hin|Hnin].
      + rewrite dict_keys_set_present by done.
        split; [tauto|]. intros [?|[->|?]]; tauto.
      + rewrite dict_keys_set_absent, elem_of_app, list_elem_of_singleton by done.
        tauto. }
  rewrite Hgen. unfold dict_keys. simpl. rewrite elem_of_nil. tauto.
Qed.

(** With two rows of the same id, the later one decides the domain. *)
Lemma build_domains_last_wins before p after :
  p_id p ∉ map p_id after →
  dict_get (build_domains (before ++ p :: after) doctors slots) (p_id p)
  = Some (allowed p doctors slots).
Proof.
  intros Hlast. unfold build_domains. rewrite fold_left_app. simpl.
  rewrite (fold_domains_other doctors slots) by done. apply dict_get_set_eq.
Qed.

Lemma allowed_no_doctor p :
  (∀ d, d ∈ doctors → doctor_skipped p d = true) →
  allowed p doctors slots = [].
Proof.
  intros Hskip. unfold allowed. induction doctors as [|d ds IH]; [done|].
  simpl. rewrite Hskip by apply list_elem_of_here. simpl.
  apply IH. intros d' Hd'. apply Hskip. by apply list_elem_of_further.
Qed.

Lemma allowed_no_slot p :
  (∀ s, s ∈ slots → slot_skipped (pref_list p) s = true) →
  allowed p doctors slots = [].
Proof.
  intros Hskip. unfold allowed.
  assert (Hinner : ∀ d : doctor,
    flat_map (λ slot, if slot_skipped (pref_list p) slot then []
                      else [(d_id d, slot)]) slots = []).
  { intros d. induction slots as [|s ss IH]; [done|].
    simpl. rewrite Hskip by apply list_elem_of_here. simpl.
    apply IH. intros s' Hs'. apply Hskip. by apply list_elem_of_further. }
  induction doctors as [|d ds IH]; [done|].
  simpl. rewrite Hinner, IH. by destruct (doctor_skipped p d).
Qed.

End build_domains_more.

(** ** Case of the specialty labels *)

Lemma lower_char_idemp c : Py.lower_char (Py.lower_char c) = Py.lower_char c.
Proof. destruct c as [[] [] [] [] [] [] [] []]; reflexivity. Qed.

Lemma lower_idemp s : Py.lower (Py.lower s) = Py.lower s.
Proof.
  induction s as [|c s IH]; [done|]. simpl. by rewrite lower_char_idemp, IH.
Qed.

Lemma lower_empty s : Py.lower s = EmptyString ↔ s = EmptyString.
Proof. by destruct s. Qed.

Lemma truthy_str_lower s :
  Py.truthy_str (Some (Py.lower s)) = Py.truthy_str (Some s).
Proof. by destruct s. Qed.

(** ** The preference text, written and read back *)

Lemma split_comma_nonempty s : Py.split_comma s ≠ [].
Proof.
  destruct s as [|c s]; [done|]. simpl.
  destruct (Ascii.eqb c ","); [done|]. by destruct (Py.split_comma s).
Qed.

Lemma split_comma_free s : comma_free s = true → Py.split_comma s = [s].
Proof.
  induction s as [|c s IH]; [done|]. simpl.
  destruct (Ascii.eqb c ","); [done|]. simpl. intros Hs. by rewrite IH.
Qed.

Lemma split_comma_append s t :
  comma_free s = true →
  Py.split_comma (String.append s (String "," t)) = s :: Py.split_comma t.
Proof.
  induction s as [|c s IH]; [done|]. simpl.
  destruct (Ascii.eqb c ","); [done|]. simpl. intros Hs. by rewrite IH.
Qed.

Lemma split_comma_join l :
  l ≠ [] → Forall (λ s, comma_free s = true) l →
  Py.split_comma (join_comma l) = l.
Proof.
  induction l as [|s l IH]; [done|]. intros _ Hall.
  apply Forall_cons in Hall as [Hs Hall].
  destruct l as [|t l]; simpl.
  - by apply split_comma_free.
  - rewrite split_comma_append by done. f_equal. by apply IH.
Qed.

Lemma split_comma_pieces_free s :
  Forall (λ p, comma_free p = true) (Py.split_comma s).
Proof.
  induction s as [|c s IH]; simpl; [by repeat constructor|].
  destruct (Ascii.eqb c ",") eqn:Hc; [by constructor|].
  destruct (Py.split_comma s) as [|h t] eqn:Hsp;
    [by apply split_comma_nonempty in Hsp|].
  apply Forall_cons in IH as [Hh Ht]. constructor; [|done]. simpl. by rewrite Hc.
Qed.

Lemma lstrip_comma_free s : comma_free s = true → comma_free (Py.lstrip s) = true.
Proof.
  induction s as [|c s IH]; [done|]. simpl.
  destruct (Py.is_space c); [|done]. intros [_ Hs]%andb_prop. by apply IH.
Qed.

Lemma rstrip_comma_free s : comma_free s = true → comma_free (Py.rstrip s) = true.
Proof.
  induction s as [|c s IH]; [done|]. simpl. intros [Hc Hs]%andb_prop.
  specialize (IH Hs). destruct (Py.rstrip s) as [|c' r'].
  - destruct (Py.is_space c); [done|]. simpl. by rewrite Hc.
  - simpl in *. by rewrite Hc, IH.
Qed.

Lemma strip_comma_free s : comma_free s = true → comma_free (Py.strip s) = true.
Proof. intros. by apply rstrip_comma_free, lstrip_comma_free. Qed.

Lemma lstrip_head s :
  Py.lstrip s = EmptyString
  ∨ ∃ c r, Py.lstrip s = String c r ∧ Py.is_space c = false.
Proof.
  induction s as [|c s IH]; [by left|]. simpl.
  destruct (Py.is_space c) eqn:Hc; [done|]. right. by exists c, s.
Qed.

Lemma rstrip_idemp s : Py.rstrip (Py.rstrip s) = Py.rstrip s.
Proof.
  induction s as [|c s IH]; [done|]. simpl.
  destruct (Py.rstrip s) as [|c' r'] eqn:Hr.
  - destruct (Py.is_space c) eqn:Hc; [done|]. simpl. by rewrite Hc.
  - simpl in IH |- *. by rewrite IH.
Qed.

Lemma rstrip_keeps_head c r :
  Py.is_space c = false → ∃ r', Py.rstrip (String c r) = String c r'.
Proof.
  intros Hc. simpl. destruct (Py.rstrip r); [|by eexists].
  rewrite Hc. by eexists.
Qed.

Lemma strip_idemp s : Py.strip (Py.strip s) = Py.strip s.
Proof.
  unfold Py.strip. destruct (lstrip_head s) as [->|(c & r & -> & Hc)]; [done|].
  destruct (rstrip_keeps_head c r Hc) as [r' Hr]. rewrite Hr.
  assert (Hl : Py.lstrip (String c r') = String c r') by (simpl; by rewrite Hc).
  rewrite Hl, <- Hr. apply rstrip_idemp.
Qed.

(** What the comprehension keeps: stripped, non-empty, comma-free pieces. *)
Lemma parse_slots_entries text :
  Forall (λ s, s ≠ EmptyString ∧ Py.strip s = s ∧ comma_free s = true)
         (parse_slots text).
Proof.
  unfold parse_slots. apply Forall_forall. intros s [Hne Hin]%list_elem_of_filter.
  apply list_elem_of_fmap in Hin as (piece & -> & Hpiece).
  split_and!; [done|apply strip_idemp|].
  apply strip_comma_free.
  pose proof (split_comma_pieces_free text) as Hall.
  rewrite Forall_forall in Hall. by apply Hall.
Qed.

Lemma join_comma_nonempty s l : s ≠ EmptyString → join_comma (s :: l) ≠ EmptyString.
Proof. intros Hs. destruct l; simpl; [done|]. by destruct s. Qed.

(** Reading back the text written for a parsed list gives the list. *)
Lemma parse_slots_join l :
  l ≠ [] →
  Forall (λ s, s ≠ EmptyString ∧ Py.strip s = s ∧ comma_free s = true) l →
  parse_slots (join_comma l) = l.
Proof.
  intros Hne Hall. unfold parse_slots. rewrite split_comma_join; [|done|].
  - induction Hall as [|s l (Hs & Hstrip & _) Hall IH]; [done|].
    simpl. rewrite filter_cons, Hstrip, decide_True by done. f_equal.
    destruct l; [done|]. by apply IH.
  - eapply Forall_impl; [exact Hall|]. by intros s (_ & _ & ?).
Qed.

(** ** [generate_slots] *)

Lemma digit_range c d : Time.digit c = Some d → 0 ≤ d ≤ 9.
Proof.
  unfold Time.digit. destruct (_ && _) eqn:Hc; [|done].
  apply andb_prop in Hc as [?%Z.leb_le ?%Z.leb_le]. intros [= <-]. lia.
Qed.

Lemma orelse_Some {A} (x y : option A) a :
  Time.orelse x y = Some a → x = Some a ∨ y = Some a.
Proof. destruct x; simpl; auto. Qed.

Lemma match_two_Some {A} first_ok s (k : Z → string → option A) a :
  Time.match_two first_ok s k = Some a →
  ∃ x y r, 0 ≤ x ≤ 9 ∧ 0 ≤ y ≤ 9 ∧ first_ok x = true ∧ k (10 * x + y) r = Some a.
Proof.
  unfold Time.match_two. destruct s as [|c1 [|c2 r]]; [done..|].
  destruct (Time.digit c1) as [x|] eqn:Hx; [|done].
  destruct (Time.digit c2) as [y|] eqn:Hy; [|done].
  destruct (first_ok x) eqn:Hok; [|done]. intros Hk.
  exists x, y, r. pose proof (digit_range _ _ Hx). pose proof (digit_range _ _ Hy).
  done.
Qed.

Lemma match_one_Some {A} s (k : Z → string → option A) a :
  Time.match_one s k = Some a → ∃ x r, 0 ≤ x ≤ 9 ∧ k x r = Some a.
Proof.
  unfold Time.match_one. destruct s as [|c r]; [done|].
  destruct (Time.digit c) as [x|] eqn:Hx; [|done]. intros Hk.
  exists x, r. pose proof (digit_range _ _ Hx). done.
Qed.

Lemma match_hour_Some {A} s (k : Z → string → option A) a :
  Time.match_hour s k = Some a → ∃ h r, 0 ≤ h ≤ 23 ∧ k h r = Some a.
Proof.
  unfold Time.match_hour.
  intros [H|[H|H]%orelse_Some]%orelse_Some.
  - apply match_two_Some in H as (x & y & r & Hx & Hy & _ & Hk).
    destruct (10 * x + y <=? 23) eqn:Hle; [|done]. apply Z.leb_le in Hle.
    exists (10 * x + y), r. split; [lia|done].
  - apply match_two_Some in H as (x & y & r & Hx & Hy & Hok%Z.leb_le & Hk).
    exists (10 * x + y), r. split; [lia|done].
  - apply match_one_Some in H as (x & r & Hx & Hk).
    exists x, r. split; [lia|done].
Qed.

Lemma match_minute_Some {A} s (k : Z → string → option A) a :
  Time.match_minute s k = Some a → ∃ m r, 0 ≤ m ≤ 59 ∧ k m r = Some a.
Proof.
  unfold Time.match_minute. intros [H|H]%orelse_Some.
  - apply match_two_Some in H as (x & y & r & Hx & Hy & Hok%Z.leb_le & Hk).
    exists (10 * x + y), r. split; [lia|done].
  - apply match_one_Some in H as (x & r & Hx & Hk).
    exists x, r. split; [lia|done].
Qed.

(** An accepted string is a time of the day. *)
Lemma strptime_range s t : Time.strptime s = Some t → 0 ≤ t < 1440.
Proof.
  unfold Time.strptime.
  destruct (Time.match_hour _ _) as [[[h m] rest]|] eqn:Hm; [|done].
  apply match_hour_Some in Hm as (h' & r & Hh & Hk).
  destruct r as [|c r']; [done|]. destruct (Ascii.eqb c ":"); [|done].
  apply match_minute_Some in Hk as (m' & r'' & Hmin & [= <- <- <-]).
  destruct r''; [|done]. intros [= <-]. lia.
Qed.

Lemma strftime_mod t : Time.strftime (t mod 1440) = Time.strftime t.
Proof.
  unfold Time.strftime. rewrite Z.mod_mod by done.
  replace ((t mod 1440) mod 60) with (t mod 60); [done|].
  rewrite <- (Znumtheory.Zmod_div_mod 60 1440 t); [done|lia|lia|].
  by exists 24.
Qed.

(** Reading a written time gives the time back. *)
Lemma strptime_strftime_day :
  Forall (λ t, Time.strptime (Time.strftime t) = Some t) (seqZ 0 1440).
Proof. apply (bool_decide_unpack _). vm_compute. reflexivity. Qed.

Lemma strptime_strftime t :
  Time.strptime (Time.strftime t) = Some (t mod 1440).
Proof.
  rewrite <- strftime_mod.
  pose proof strptime_strftime_day as Hall. rewrite Forall_seqZ in Hall.
  apply Hall. pose proof (Z.mod_pos_bound t 1440). lia.
Qed.

(** Written times compare as the times do. *)
Lemma strftime_next :
  Forall (λ t, String.ltb (Time.strftime t) (Time.strftime (t + 1)) = true)
         (seqZ 0 1439).
Proof. apply (bool_decide_unpack _). vm_compute. reflexivity. Qed.

Lemma str_lt_trans a b c : str_lt a b → str_lt b c → str_lt a c.
Proof.
  unfold str_lt, String.ltb. intros Hab Hbc.
  destruct (String.compare a b) eqn:H1; try done.
  destruct (String.compare b c) eqn:H2; try done.
  apply OrderedTypeEx.String_as_OT.cmp_lt in H1, H2.
  pose proof (OrderedTypeEx.String_as_OT.lt_trans _ _ _ H1 H2) as H3.
  apply OrderedTypeEx.String_as_OT.cmp_lt in H3.
  unfold OrderedTypeEx.String_as_OT.cmp in H3. by rewrite H3.
Qed.

Lemma str_lt_irrefl a : ¬ str_lt a a.
Proof. intros H. pose proof (ltb_asym _ _ H). unfold str_lt in H. congruence. Qed.

Lemma strftime_lt a b :
  0 ≤ a → a < b → b < 1440 → str_lt (Time.strftime a) (Time.strftime b).
Proof.
  intros Ha Hab Hb.
  pose proof strftime_next as Hnext. rewrite Forall_seqZ in Hnext.
  assert (Hind : ∀ n : nat, a + 1 + Z.of_nat n < 1440 →
            str_lt (Time.strftime a) (Time.strftime (a + 1 + Z.of_nat n))).
  { induction n as [|n IH]; intros Hn.
    - rewrite Z.add_0_r. apply Hnext. lia.
    - eapply str_lt_trans; [apply IH; lia|].
      replace (a + 1 + Z.of_nat (S n)) with (a + 1 + Z.of_nat n + 1) by lia.
      apply Hnext. lia. }
  replace b with (a + 1 + Z.of_nat (Z.to_nat (b - a - 1))) by lia.
  apply Hind. lia.
Qed.

Lemma slot_times_S s step n :
  slot_times s step (S n) = s :: slot_times (s + step) step n.
Proof.
  unfold slot_times. simpl. f_equal; [lia|].
  rewrite <- fmap_S_seq. rewrite <- list_fmap_compose.
  apply list_fmap_ext. intros _ k _. simpl. lia.
Qed.

(** The loop, when the test holds [n] times and every sum is a date. *)
Lemma slots_loop_returns n : ∀ fuel cur e step acc,
  (n < fuel)%nat →
  (∀ k : nat, (k < n)%nat → cur + Z.of_nat k * step < e) →
  e ≤ cur + Z.of_nat n * step →
  (∀ k : nat, (1 ≤ k ≤ n)%nat →
     Time.datetime_min ≤ cur + Z.of_nat k * step ≤ Time.datetime_max) →
  slots_loop fuel cur e step acc
  = Slots (acc ++ map Time.strftime (slot_times cur step n)).
Proof.
  induction n as [|n IH]; intros fuel cur e step acc Hfuel Hlt Hge Hrange.
  - destruct fuel as [|fuel]; [lia|]. simpl.
    rewrite (proj2 (Z.ltb_ge cur e)) by lia. by rewrite app_nil_r.
  - destruct fuel as [|fuel]; [lia|]. rewrite slot_times_S. simpl.
    rewrite (proj2 (Z.ltb_lt cur e)) by (specialize (Hlt 0%nat); lia).
    pose proof (Hrange 1%nat) as H1.
    rewrite (proj2 (Z.leb_le _ _)), (proj2 (Z.leb_le _ _)) by lia. simpl.
    rewrite (IH fuel (cur + step) e step).
    + by rewrite <- app_assoc.
    + lia.
    + intros k Hk. specialize (Hlt (S k)). lia.
    + lia.
    + intros k Hk. specialize (Hrange (S k)). lia.
Qed.

Lemma slot_count_spec s e step :
  0 < step →
  (∀ k : nat, (k < slot_count s e step)%nat → s + Z.of_nat k * step < e)
  ∧ e ≤ s + Z.of_nat (slot_count s e step) * step.
Proof.
  intros Hstep. unfold slot_count.
  pose proof (Z.mul_div_le (e - s + step - 1) step Hstep) as Hle.
  pose proof (Z.mul_succ_div_gt (e - s + step - 1) step Hstep) as Hgt.
  set (q := (e - s + step - 1) / step) in *. split.
  - intros k Hk. nia.
  - destruct (decide (0 ≤ q)); [rewrite Z2Nat.id by done; nia|].
    rewrite Z2Nat.nonpos by lia. nia.
Qed.

Lemma slot_count_bound s e step :
  0 < step → 0 ≤ s → e < 1440 → (slot_count s e step < 1440)%nat.
Proof.
  intros Hstep Hs He. unfold slot_count.
  assert ((e - s + step - 1) / step < 1440); [|lia].
  apply Z.div_lt_upper_bound; [done|]. nia.
Qed.

(** With a step of zero the loop goes on for ever. *)
Lemma slots_loop_zero fuel : ∀ cur e acc,
  cur < e → Time.datetime_min ≤ cur ≤ Time.datetime_max →
  slots_loop fuel cur e 0 acc = Unfinished.
Proof.
  induction fuel as [|fuel IH]; intros cur e acc Hlt Hr; [done|]. simpl.
  rewrite (proj2 (Z.ltb_lt cur e)) by done. rewrite Z.add_0_r.
  rewrite (proj2 (Z.leb_le _ _)), (proj2 (Z.leb_le _ _)) by lia. simpl.
  by apply IH.
Qed.

(** With a negative step the loop never returns ... *)
Lemma slots_loop_negative fuel : ∀ cur e step acc,
  step < 0 → cur < e →
  slots_loop fuel cur e step acc = Unfinished
  ∨ slots_loop fuel cur e step acc = Raised OverflowError.
Proof.
  induction fuel as [|fuel IH]; intros cur e step acc Hstep Hlt; [by left|].
  simpl. rewrite (proj2 (Z.ltb_lt cur e)) by done.
  destruct (_ && _); [|by right]. apply IH; lia.
Qed.

(** ... and ends in [OverflowError] once the walk leaves the calendar. *)
Lemma slots_loop_negative_raises fuel : ∀ cur e step acc,
  step < 0 → cur < e → Time.datetime_min ≤ cur →
  (Z.to_nat (cur - Time.datetime_min) < fuel)%nat →
  slots_loop fuel cur e step acc = Raised OverflowError.
Proof.
  induction fuel as [|fuel IH]; intros cur e step acc Hstep Hlt Hmin Hfuel; [lia|].
  simpl. rewrite (proj2 (Z.ltb_lt cur e)) by done.
  destruct (_ && _) eqn:Hr; [|done].
  apply andb_prop in Hr as [?%Z.leb_le ?%Z.leb_le]. apply IH; lia.
Qed.

(** A step beyond the calendar raises [OverflowError] after the first slot. *)
Lemma slots_loop_too_far fuel cur e step acc :
  cur < e → Time.datetime_max < cur + step →
  slots_loop (S fuel) cur e step acc = Raised OverflowError.
Proof.
  intros Hlt Hfar. simpl. rewrite (proj2 (Z.ltb_lt cur e)) by done.
  rewrite (proj2 (Z.leb_gt (cur + step) Time.datetime_max)) by done.
  by rewrite andb_false_r.
Qed.

(** ** Counting the places *)

Lemma sum_occupancy_empty keys : sum_list (map (occupancy ∅) keys) = O.
Proof. induction keys as [|k keys IH]; simpl; [done|]. by rewrite occupancy_empty. Qed.

Lemma sum_list_bump (f : value → nat) x keys :
  NoDup keys →
  sum_list (map (λ key, if decide (x = key) then S (f key) else f key) keys)
  = if decide (x ∈ keys) then S (sum_list (map f keys)) else sum_list (map f keys).
Proof.
  induction 1 as [|k keys Hk Hnd IH]; simpl; [done|]. rewrite IH.
  repeat case_decide; simplify_eq; try lia; exfalso; set_solver.
Qed.

(** The patients of an assignment, counted pair by pair. *)
Lemma size_sum_occupancy (a : gmap Z value) keys :
  NoDup keys → (∀ k v, a !! k = Some v → v ∈ keys) →
  size a = sum_list (map (occupancy a) keys).
Proof.
  intros Hnd. induction a as [|i x m Hfresh IH] using map_ind; intros Hin.
  - by rewrite map_size_empty, sum_occupancy_empty.
  - rewrite map_size_insert_None by done.
    assert (Hext : map (occupancy (<[i:=x]> m)) keys
                   = map (λ key, if decide (x = key) then S (occupancy m key)
                                 else occupancy m key) keys).
    { apply list_fmap_ext. intros _ key _. by apply occupancy_insert. }
    rewrite Hext, sum_list_bump by done.
    rewrite decide_True by (apply (Hin i); by rewrite lookup_insert_eq).
    f_equal. apply IH. intros k v Hk. apply (Hin k).
    rewrite lookup_insert_ne; [done|]. intros ->. congruence.
Qed.

Lemma sum_occupancy_le doctor_capacity (a : gmap Z value) keys :
  (∀ key, key ∈ keys → Z.of_nat (occupancy a key) ≤ cap_limit doctor_capacity key.1) →
  Z.of_nat (sum_list (map (occupancy a) keys)) ≤ capacity_total doctor_capacity keys.
Proof.
  induction keys as [|k keys IH]; intros Hle; simpl; [done|].
  pose proof (Hle k ltac:(left)).
  assert (Z.of_nat (sum_list (map (occupancy a) keys))
          ≤ capacity_total doctor_capacity keys).
  { apply IH. intros key Hkey. apply Hle. by right. }
  lia.
Qed.

Section pigeonhole.
Variable doctor_capacity : gmap Z Z.
Variable patient_meta : gmap Z meta.

(** More patients than places: no schedule. *)
Lemma search_pigeonhole doms keys :
  NoDup (dict_keys doms) → NoDup keys →
  (∀ k v, v ∈ dvals doms k → v ∈ keys) →
  (∀ key, key ∈ keys → 0 ≤ cap_limit doctor_capacity key.1) →
  capacity_total doctor_capacity keys < Z.of_nat (length doms) →
  backtracking_search doctor_capacity patient_meta doms = NoSchedule.
Proof.
  intros Hnd Hkeys Hvals Hpos Hfew.
  destruct (backtracking_search doctor_capacity patient_meta doms) as [| |a] eqn:Hrun;
    [by apply backtrack_total in Hrun|done|exfalso].
  destruct (schedule_complete _ _ _ _ Hnd Hrun) as [_ Hsize].
  assert (Hin : ∀ k v, a !! k = Some v → v ∈ keys).
  { intros k v Hk. apply (Hvals k). by eapply schedule_from_domains. }
  pose proof (size_sum_occupancy a keys Hkeys Hin) as Hsum.
  assert (Hle : ∀ key, key ∈ keys →
            Z.of_nat (occupancy a key) ≤ cap_limit doctor_capacity key.1).
  { intros key Hkey. destruct (occupancy a key) as [|n] eqn:Hocc.
    - by apply Hpos.
    - rewrite <- Hocc. eapply schedule_occupied_within_capacity; [done..|lia]. }
  pose proof (sum_occupancy_le doctor_capacity a keys Hle). lia.
Qed.

End pigeonhole.

(** ** [schedule_for_date] *)

Lemma fold_capacity_other doctors k :
  ∀ m : gmap Z Z, k ∉ map d_id doctors →
    fold_left (λ (m : gmap Z Z) d, <[d_id d := capacity_per_slot d]> m) doctors m !! k
    = m !! k.
Proof.
  induction doctors as [|d doctors IH]; intros m Hk; simpl; [done|].
  rewrite IH by (intros ?; apply Hk; by right).
  apply lookup_insert_ne. intros Heq. apply Hk. rewrite <- Heq. left.
Qed.

Lemma fold_capacity_last before d after :
  ∀ m : gmap Z Z, d_id d ∉ map d_id after →
    fold_left (λ (m : gmap Z Z) d, <[d_id d := capacity_per_slot d]> m)
              (before ++ d :: after) m !! d_id d
    = Some (capacity_per_slot d).
Proof.
  intros m Hlast. rewrite fold_left_app. simpl.
  rewrite fold_capacity_other by done. apply lookup_insert_eq.
Qed.

(** The limit of a doctor is the capacity of the last row with the
    doctor's id. *)
Lemma capacity_of_rows_last before d after :
  d_id d ∉ map d_id after →
  cap_limit (capacity_of_rows (before ++ d :: after)) (d_id d) = capacity_per_slot d.
Proof.
  intros Hlast. unfold cap_limit, capacity_of_rows.
  by rewrite fold_capacity_last.
Qed.

Lemma capacity_of_rows_lookup doctors d :
  NoDup (map d_id doctors) → d ∈ doctors →
  cap_limit (capacity_of_rows doctors) (d_id d) = capacity_per_slot d.
Proof.
  intros Hnd (before & after & ->)%list_elem_of_split.
  apply capacity_of_rows_last.
  rewrite map_app in Hnd. apply NoDup_app in Hnd as (_ & _ & Hnd).
  simpl in Hnd. by apply NoDup_cons in Hnd as [? _].
Qed.

(** A doctor without a row has the limit 1 of [doctor_capacity.get(_, 1)]. *)
Lemma capacity_of_rows_missing doctors k :
  k ∉ map d_id doctors → cap_limit (capacity_of_rows doctors) k = 1.
Proof.
  intros Hk. unfold cap_limit, capacity_of_rows.
  by rewrite fold_capacity_other, lookup_empty.
Qed.

Lemma schedule_for_date_searched doctors patients slots :
  doctors ≠ [] → patients ≠ [] →
  schedule_for_date doctors patients slots
  = Searched (backtracking_search (capacity_of_rows doctors) (meta_of_rows patients)
                (build_domains patients doctors slots)).
Proof. intros Hd Hp. by destruct doctors, patients. Qed.

Lemma elem_of_all_pairs doctors slots doc slot :
  (doc, slot) ∈ all_pairs doctors slots
  ↔ (∃ d, d ∈ doctors ∧ d_id d = doc) ∧ slot ∈ slots.
Proof.
  unfold all_pairs. split.
  - intros Hin%list_elem_of_In.
    apply in_flat_map in Hin as (d & Hd%list_elem_of_In & Hin%list_elem_of_In).
    apply list_elem_of_fmap in Hin as (s & [= -> ->] & Hs). eauto.
  - intros [(d & Hd & <-) Hs]. apply list_elem_of_In, in_flat_map.
    exists d. split; [by apply list_elem_of_In|].
    apply list_elem_of_In, list_elem_of_fmap. eauto.
Qed.

Lemma all_pairs_NoDup doctors slots :
  NoDup (map d_id doctors) → NoDup slots → NoDup (all_pairs doctors slots).
Proof.
  intros Hd Hs. induction doctors as [|d doctors IH]; simpl; [constructor|].
  simpl in Hd. apply NoDup_cons in Hd as [Hd Hnd].
  apply NoDup_app. split_and!.
  - apply NoDup_fmap_2; [|done]. by intros s1 s2 [= ->].
  - intros [doc slot] (s & [= -> ->] & _)%list_elem_of_fmap
           [(d' & Hd' & Heq) _]%elem_of_all_pairs.
    apply Hd. rewrite <- Heq. by apply list_elem_of_fmap_2.
  - by apply IH.
Qed.

Lemma capacity_total_app doctor_capacity k1 k2 :
  capacity_total doctor_capacity (k1 ++ k2)
  = capacity_total doctor_capacity k1 + capacity_total doctor_capacity k2.
Proof. induction k1 as [|k k1 IH]; simpl; [done|]. rewrite IH. lia. Qed.

Lemma capacity_total_row doctor_capacity doc slots :
  capacity_total doctor_capacity (map (λ slot, (doc, slot)) slots)
  = Z.of_nat (length slots) * cap_limit doctor_capacity doc.
Proof. induction slots as [|s slots IH]; simpl; [lia|]. rewrite IH. lia. Qed.

Lemma capacity_total_all_pairs doctor_capacity doctors slots :
  (∀ d, d ∈ doctors → cap_limit doctor_capacity (d_id d) = capacity_per_slot d) →
  capacity_total doctor_capacity (all_pairs doctors slots)
  = Z.of_nat (length slots) * capacity_per_round doctors.
Proof.
  induction doctors as [|d doctors IH]; intros Hcap; simpl; [lia|].
  rewrite capacity_total_app, capacity_total_row, IH.
  - rewrite (Hcap d) by left. lia.
  - intros d' Hd'. apply Hcap. by right.
Qed.

Lemma build_domains_values patients doctors slots k v :
  NoDup (map p_id patients) →
  v ∈ dvals (build_domains patients doctors slots) k →
  ∃ p, p ∈ patients ∧ p_id p = k ∧ v ∈ allowed p doctors slots.
Proof.
  intros Hnd Hv. unfold dvals in Hv.
  destruct (dict_get _ k) as [l|] eqn:Hget; [|by apply elem_of_nil in Hv].
  assert (Hk : k ∈ map p_id patients).
  { apply (build_domains_elem_of_keys doctors slots).
    apply dict_get_is_Some. eauto. }
  apply list_elem_of_fmap in Hk as (p & -> & Hp).
  rewrite (build_domains_lookup doctors slots patients p Hnd Hp) in Hget.
  injection Hget as <-. eauto.
Qed.

Lemma build_domains_length patients doctors slots :
  NoDup (map p_id patients) →
  length (build_domains patients doctors slots) = length patients.
Proof.
  intros Hnd.
  rewrite <- dict_keys_length, build_domains_keys by done. apply length_map.
Qed.

(** ** Upper and lower case in specialties *)

Lemma truthy_str_lower_option o :
  Py.truthy_str (Py.lower <$> o) = Py.truthy_str o.
Proof. destruct o as [s|]; [apply truthy_str_lower|done]. Qed.

Lemma default_lower o :
  Py.lower (default EmptyString (Py.lower <$> o))
  = Py.lower (default EmptyString o).
Proof. destruct o as [s|]; [apply lower_idemp|done]. Qed.

Lemma doctor_skipped_lower p d :
  doctor_skipped (with_lower_required p) (with_lower_specialty d)
  = doctor_skipped p d.
Proof.
  unfold doctor_skipped. simpl.
  by rewrite !truthy_str_lower_option, !default_lower.
Qed.

Lemma allowed_lower p doctors slots :
  allowed (with_lower_required p) (map with_lower_specialty doctors) slots
  = allowed p doctors slots.
Proof.
  unfold allowed.
  change (pref_list (with_lower_required p)) with (pref_list p).
  induction doctors as [|d doctors IH]; simpl; [done|].
  by rewrite IH, doctor_skipped_lower.
Qed.

Lemma fold_domains_lower doctors slots patients :
  ∀ acc,
    fold_left (λ domains p,
                 dict_set domains (p_id p)
                   (allowed p (map with_lower_specialty doctors) slots))
              (map with_lower_required patients) acc
    = fold_left (λ domains p, dict_set domains (p_id p) (allowed p doctors slots))
                patients acc.
Proof.
  induction patients as [|p patients IH]; intros acc; simpl; [done|].
  by rewrite allowed_lower, IH.
Qed.

(** ** The preference list of a stored row *)

Lemma truthy_str_Some s : s ≠ EmptyString → Py.truthy_str (Some s) = true.
Proof.
  intros Hs. simpl. apply negb_true_iff. by apply String.eqb_neq.
Qed.

Lemma pref_list_stored p l :
  preferred_slots p = stored_preferred_slots (Some l) →
  Forall clean_entry l → pref_list p = l.
Proof.
  intros Hp Hall. unfold pref_list. rewrite Hp.
  destruct l as [|s l]; [done|]. unfold stored_preferred_slots.
  assert (Hs : s ≠ EmptyString).
  { apply Forall_cons in Hall as [[Hs _] _]. done. }
  rewrite truthy_str_Some by (by apply join_comma_nonempty).
  by apply (parse_slots_join (s :: l)).
Qed.

Lemma pref_list_typed p pref :
  preferred_slots p = stored_preferred_slots (typed_preferred_slots pref) →
  pref_list p = default [] (typed_preferred_slots pref)
  ∧ Forall clean_entry (pref_list p).
Proof.
  intros Hp. unfold typed_preferred_slots in *.
  destruct (Py.truthy_str pref) eqn:Htruthy.
  - pose proof (parse_slots_entries (default EmptyString pref)) as Hall.
    rewrite (pref_list_stored p _ Hp Hall). done.
  - unfold pref_list. rewrite Hp. simpl. split; [done|constructor].
Qed.

(** ** The order of the generated slots *)

Lemma elem_of_slot_times t s step n :
  t ∈ slot_times s step n ↔ ∃ k : nat, (k < n)%nat ∧ t = s + Z.of_nat k * step.
Proof.
  unfold slot_times. rewrite list_elem_of_fmap. split.
  - intros (k & -> & Hk%elem_of_seq). exists k. split; [lia|done].
  - intros (k & Hk & ->). exists k. split; [done|]. apply elem_of_seq. lia.
Qed.

Lemma slots_sorted n : ∀ s step,
  0 ≤ s → 0 < step →
  (∀ k : nat, (k < n)%nat → s + Z.of_nat k * step < 1440) →
  StronglySorted str_lt (map Time.strftime (slot_times s step n)).
Proof.
  induction n as [|n IH]; intros s step Hs Hstep Hday; [constructor|].
  rewrite slot_times_S. simpl. constructor.
  - apply IH; [lia|done|]. intros k Hk. specialize (Hday (S k)). lia.
  - apply Forall_forall. intros x (t & -> & Ht)%list_elem_of_fmap.
    apply elem_of_slot_times in Ht as (k & Hk & ->).
    specialize (Hday (S k)). apply strftime_lt; nia.
Qed.

Lemma str_lt_sorted_NoDup l : StronglySorted str_lt l → NoDup l.
Proof.
  induction 1 as [|x l Hl IH Hx]; constructor; [|done].
  intros Hin. rewrite Forall_forall in Hx. by apply (str_lt_irrefl x), Hx.
Qed.

Lemma slots_parse_back s step n x :
  0 ≤ s → 0 ≤ step →
  (∀ k : nat, (k < n)%nat → s + Z.of_nat k * step < 1440) →
  x ∈ map Time.strftime (slot_times s step n) →
  ∃ t, t ∈ slot_times s step n ∧ x = Time.strftime t ∧ Time.strptime x = Some t.
Proof.
  intros Hs Hstep Hday (t & -> & Ht)%list_elem_of_fmap.
  exists t. split_and!; [done..|].
  apply elem_of_slot_times in Ht as (k & Hk & ->). specialize (Hday k Hk).
  rewrite strptime_strftime. f_equal. apply Z.mod_small. nia.
Qed.

(** What [generate_slots] returns for a step that is positive and leaves
    the last sum in the calendar. *)
Lemma slots_loop_positive fuel s e step :
  0 ≤ s → e < 1440 → 0 < step → step ≤ Time.datetime_max - 1439 →
  (1440 ≤ fuel)%nat →
  slots_loop fuel s e step []
  = Slots (map Time.strftime (slot_times s step (slot_count s e step))).
Proof.
  intros Hs He Hstep Hmax Hfuel.
  destruct (slot_count_spec s e step Hstep) as [Hlt Hge].
  pose proof (slot_count_bound s e step Hstep Hs He) as Hn.
  rewrite (slots_loop_returns (slot_count s e step)); [done|lia|done|done|].
  intros k Hk. specialize (Hlt (k - 1)%nat).
  unfold Time.datetime_min, Time.datetime_max in *. nia.
Qed.

(** ** Patients nobody can see *)

Lemma allowed_empty p doctors slots :
  (∀ d slot, d ∈ doctors → slot ∈ slots →
             doctor_skipped p d = true ∨ slot_skipped (pref_list p) slot = true) →
  allowed p doctors slots = [].
Proof.
  intros Hnone. destruct (allowed p doctors slots) as [|[doc slot] l] eqn:Hall; [done|].
  assert (Hin : (doc, slot) ∈ allowed p doctors slots) by (rewrite Hall; left).
  apply elem_of_allowed in Hin as (d & Hd & _ & Hdoc & Hs & Hslot).
  destruct (Hnone d slot Hd Hs); congruence.
Qed.

Lemma schedule_dead_patient doctors before p after slots :
  doctors ≠ [] → p_id p ∉ map p_id after →
  allowed p doctors slots = [] →
  schedule_for_date doctors (before ++ p :: after) slots = Searched NoSchedule.
Proof.
  intros Hd Hlast Hempty.
  rewrite schedule_for_date_searched; [|done|by destruct before].
  f_equal. eapply search_dead_end; [apply build_domains_NoDup|].
  rewrite build_domains_last_wins by done. by rewrite Hempty.
Qed.

Lemma schedule_without_slots doctors patients :
  doctors ≠ [] → patients ≠ [] →
  schedule_for_date doctors patients [] = Searched NoSchedule.
Proof.
  intros Hd Hp. destruct patients as [|p patients _] using rev_ind; [done|].
  apply schedule_dead_patient; [done|by intros ?%elem_of_nil|].
  apply allowed_no_slot. by intros s ?%elem_of_nil.
Qed.

Lemma slot_count_lt s e step (k : nat) :
  0 < step → (k < slot_count s e step)%nat ↔ s + Z.of_nat k * step < e.
Proof.
  intros Hstep. destruct (slot_count_spec s e step Hstep) as [Hlt Hge].
  split; [apply Hlt|]. intros Hk.
  destruct (decide (k < slot_count s e step)%nat); [done|]. nia.
Qed.

(** ** Doctors added through the dialogs *)

Lemma on_add_doctor_capacity id name specialty_answer cap d :
  on_add_doctor id name specialty_answer cap = Some d →
  capacity_answer cap → 1 ≤ capacity_per_slot d.
Proof.
  unfold on_add_doctor. destruct (Py.truthy_str name); [|done].
  intros [= <-] Hcap. simpl. destruct cap as [c|]; [|done].
  simpl in Hcap. by destruct (Py.truthy_int c).
Qed.

Lemma fold_capacity_ge doctors :
  (∀ d, d ∈ doctors → 1 ≤ capacity_per_slot d) →
  ∀ m : gmap Z Z,
    (∀ k c, m !! k = Some c → 1 ≤ c) →
    ∀ k c,
      fold_left (λ (m : gmap Z Z) d, <[d_id d := capacity_per_slot d]> m) doctors m
      !! k = Some c →
      1 ≤ c.
Proof.
  induction doctors as [|d doctors IH]; intros Hall m Hm k c; simpl; [apply Hm|].
  apply IH.
  - intros d' Hd'. apply Hall. by right.
  - intros k' c' [[_ <-]|[_ Hold]]%lookup_insert_Some.
    + apply Hall. left.
    + by apply (Hm k').
Qed.

Lemma capacity_of_rows_ge doctors k :
  (∀ d, d ∈ doctors → 1 ≤ capacity_per_slot d) →
  1 ≤ cap_limit (capacity_of_rows doctors) k.
Proof.
  intros Hall. unfold cap_limit.
  destruct (capacity_of_rows doctors !! k) as [c|] eqn:Hk; simpl; [|done].
  unfold capacity_of_rows in Hk.
  eapply (fold_capacity_ge doctors Hall ∅); [|exact Hk].
  intros k' c' Hempty. by rewrite lookup_empty in Hempty.
Qed.
(** * The claims *)

Local Open Scope string_scope.
Local Open Scope Z_scope.

(** C1.  For every mapping returned by [backtracking_search] and every
    (doctor, slot) pair, the number of patients mapped to the pair is at most
    the doctor's capacity, read from [doctor_capacity] with default 1.  The
    capacity is a count (the data model makes it a positive integer), which
    is what bounds a pair no patient is mapped to. *)
Theorem capacity_invariant (doctor_capacity : gmap Z Z)
    (patient_meta : gmap Z meta) (doms : list (Z * list value))
    (a : gmap Z value) (d : Z) (s : string) :
  NoDup (dict_keys doms) →
  backtracking_search doctor_capacity patient_meta doms = Schedule a →
  0 ≤ cap_limit doctor_capacity d →
  Z.of_nat (occupancy a (d, s)) ≤ cap_limit doctor_capacity d.
Proof.
  intros Hnd Hres Hcap.
  destruct (occupancy a (d, s)) as [|n] eqn:Hocc; [done|].
  rewrite <- Hocc.
  apply (schedule_occupied_within_capacity doctor_capacity patient_meta doms a (d, s));
    [done|done|lia].
Qed.

Lemma capacity_invariant_witness :
  NoDup (dict_keys [(10, [(1, "09:00"); (1, "09:30")])])
  ∧ backtracking_search {[1 := 1]} ∅ [(10, [(1, "09:00"); (1, "09:30")])]
    = Schedule {[10 := (1, "09:00")]}
  ∧ 0 ≤ cap_limit {[1 := 1]} 1
  ∧ Z.of_nat (occupancy {[10 := (1, "09:00")]} (1, "09:00")) ≤ cap_limit {[1 := 1]} 1.
Proof.
  assert (H1 : NoDup (dict_keys [(10, [(1, "09:00"); (1, "09:30")])]))
    by apply NoDup_singleton.
  assert (H2 : backtracking_search {[1 := 1]} ∅ [(10, [(1, "09:00"); (1, "09:30")])]
               = Schedule {[10 := (1, "09:00")]}) by (vm_compute; reflexivity).
  assert (H3 : 0 ≤ cap_limit {[1 := 1]} 1) by (vm_compute; discriminate).
  refine (conj H1 (conj H2 (conj H3 _))).
  exact (capacity_invariant _ _ _ _ 1 "09:00" H1 H2 H3).
Defined.

(** C3.  A mapping returned by [backtracking_search] has exactly the keys of
    [domains], each bound to one (doctor, slot) pair; its size is the number
    of patients, so no patient is left out. *)
Theorem success_is_complete (doctor_capacity : gmap Z Z)
    (patient_meta : gmap Z meta) (doms : list (Z * list value))
    (a : gmap Z value) :
  NoDup (dict_keys doms) →
  backtracking_search doctor_capacity patient_meta doms = Schedule a →
  (∀ p, p ∈ dict_keys doms ↔ ∃ doc slot, a !! p = Some (doc, slot))
  ∧ size a = length doms.
Proof.
  intros Hnd Hres.
  destruct (schedule_complete doctor_capacity patient_meta doms a Hnd Hres)
    as [Hkeys Hsize].
  split; [|done]. intros p. rewrite Hkeys. split.
  - intros [[doc slot] Hv]. by exists doc, slot.
  - intros (doc & slot & Hv). by eexists.
Qed.

Lemma success_is_complete_witness :
  NoDup (dict_keys [(10, [(1, "09:00")]); (11, [(1, "09:00"); (1, "09:30")])])
  ∧ backtracking_search {[1 := 1]} ∅
      [(10, [(1, "09:00")]); (11, [(1, "09:00"); (1, "09:30")])]
    = Schedule {[10 := (1, "09:00"); 11 := (1, "09:30")]}
  ∧ ((∀ p, p ∈ dict_keys [(10, [(1, "09:00")]); (11, [(1, "09:00"); (1, "09:30")])]
          ↔ ∃ doc slot,
              ({[10 := (1, "09:00"); 11 := (1, "09:30")]} : gmap Z value) !! p
              = Some (doc, slot))
     ∧ size ({[10 := (1, "09:00"); 11 := (1, "09:30")]} : gmap Z value)
       = length [(10, [(1, "09:00")]); (11, [(1, "09:00"); (1, "09:30")])]).
Proof.
  assert (H1 : NoDup (dict_keys [(10, [(1, "09:00")]); (11, [(1, "09:00"); (1, "09:30")])])).
  { apply (bool_decide_unpack _). vm_compute. exact I. }
  assert (H2 : backtracking_search {[1 := 1]} ∅
                 [(10, [(1, "09:00")]); (11, [(1, "09:00"); (1, "09:30")])]
               = Schedule {[10 := (1, "09:00"); 11 := (1, "09:30")]})
    by (vm_compute; reflexivity).
  refine (conj H1 (conj H2 _)).
  exact (success_is_complete _ _ _ _ H1 H2).
Defined.

(** C8.  In every run, each undo finds the key it releases in
    [capacity_map] with a positive count, so the default [1] of line 268 is
    never used and the decrement is subtract-one, delete-at-zero; and
    [capacity_map] holds positive counts only, after every placement, after
    every undo and when the run ends. *)
Theorem release_never_defaults (doctor_capacity : gmap Z Z)
    (patient_meta : gmap Z meta) (doms : list (Z * list value)) :
  NoDup (dict_keys doms) →
  let final := (search_run doctor_capacity patient_meta doms).2 in
  (∀ cap_key found cm_after,
     EvUndo cap_key found cm_after ∈ trace final →
     (∃ c, found = Some c ∧ 0 < c) ∧ positive_counts cm_after)
  ∧ (∀ cap_key cm_after,
       EvPlace cap_key cm_after ∈ trace final → positive_counts cm_after)
  ∧ positive_counts (capacity_map final)
  ∧ (∀ cm cap_key c,
       cm !! cap_key = Some c →
       release cm cap_key
       = if c - 1 =? 0 then delete cap_key cm else <[cap_key := c - 1]> cm).
Proof.
  intros Hnd final. subst final.
  set (final := (search_run doctor_capacity patient_meta doms).2).
  assert (Hfinal : Forall event_ok (trace final) ∧ positive_counts (capacity_map final)).
  { destruct (search_run_cases doctor_capacity patient_meta doms Hnd)
      as [(_ & Hcm & _ & _ & _ & Htr)|(a & _ & _ & HI & _)].
    - split; [done|]. unfold final. rewrite Hcm. intros key c Hc. by rewrite lookup_empty in Hc.
    - split; [apply HI|]. apply (tracked_positive (assigned final)), HI. }
  destruct Hfinal as [Htrace Hpos]. rewrite Forall_forall in Htrace.
  split_and!; [| |done|].
  - intros cap_key found cm_after Hin. apply (Htrace _ Hin).
  - intros cap_key cm_after Hin. apply (Htrace _ Hin).
  - intros cm cap_key c Hc. unfold release. rewrite Hc. simpl.
    destruct (c - 1 =? 0); [|done]. by rewrite delete_insert_eq.
Qed.

Lemma release_never_defaults_witness :
  NoDup (dict_keys [(10, [(1, "09:00")]); (11, [(1, "09:00")])])
  ∧ trace (search_run {[1 := 1]} ∅ [(10, [(1, "09:00")]); (11, [(1, "09:00")])]).2
    = [EvPlace (1, "09:00") {[(1, "09:00") := 1]};
       EvUndo (1, "09:00") (Some 1) ∅]
  ∧ (∃ c, Some 1 = Some c ∧ 0 < c) ∧ positive_counts (∅ : gmap value Z).
Proof.
  assert (H1 : NoDup (dict_keys [(10, [(1, "09:00")]); (11, [(1, "09:00")])])).
  { apply (bool_decide_unpack _). vm_compute. exact I. }
  assert (H2 : trace (search_run {[1 := 1]} ∅
                        [(10, [(1, "09:00")]); (11, [(1, "09:00")])]).2
               = [EvPlace (1, "09:00") {[(1, "09:00") := 1]};
                  EvUndo (1, "09:00") (Some 1) ∅]) by (vm_compute; reflexivity).
  refine (conj H1 (conj H2 _)).
  apply (proj1 (release_never_defaults {[1 := 1]} ∅ _ H1) (1, "09:00") (Some 1) ∅).
  rewrite H2. apply list_elem_of_further, list_elem_of_here.
Defined.

(** C4.  If [build_domains] gives some patient an empty candidate list, the
    run returns [None].  It does so without ever reaching the recursive
    call: fuel for the outermost call of [backtrack] alone is enough. *)
Theorem empty_domain_fails (patients : list patient) (doctors : list doctor)
    (slots : list string) (doctor_capacity : gmap Z Z)
    (patient_meta : gmap Z meta) (q : Z) :
  dict_get (build_domains patients doctors slots) q = Some [] →
  backtracking_search doctor_capacity patient_meta
    (build_domains patients doctors slots) = NoSchedule
  ∧ (backtrack doctor_capacity patient_meta 1
       (initial_state (build_domains patients doctors slots))).1 = NoSchedule.
Proof.
  intros Hq. apply (search_dead_end _ _ _ q); [|done].
  apply build_domains_NoDup.
Qed.

Lemma empty_domain_fails_witness :
  dict_get (build_domains [Patient 7 "Eve" 0 None 0 (Some "18:00")]
              [Doctor 1 "Alice" None 1] ["09:00"; "09:30"]) 7 = Some []
  ∧ backtracking_search {[1 := 1]} ∅
      (build_domains [Patient 7 "Eve" 0 None 0 (Some "18:00")]
         [Doctor 1 "Alice" None 1] ["09:00"; "09:30"]) = NoSchedule.
Proof.
  assert (H1 : dict_get (build_domains [Patient 7 "Eve" 0 None 0 (Some "18:00")]
                 [Doctor 1 "Alice" None 1] ["09:00"; "09:30"]) 7 = Some [])
    by (vm_compute; reflexivity).
  refine (conj H1 _).
  exact (proj1 (empty_domain_fails _ _ _ {[1 := 1]} ∅ 7 H1)).
Defined.

(** C2.  In a mapping returned for the domains of [build_domains], every
    patient has a pair; if the patient's [needs_specialist] is set and a
    non-empty [specialty_required] is present, the pair's doctor is one of
    the doctors, with a specialty equal to the requirement once both are
    lower-cased; if the patient's parsed preference list is not empty, the
    pair's slot is in it. *)
Theorem specialty_and_preference_respected (patients : list patient)
    (doctors : list doctor) (slots : list string)
    (doctor_capacity : gmap Z Z) (patient_meta : gmap Z meta)
    (a : gmap Z value) (p : patient) :
  NoDup (map p_id patients) →
  backtracking_search doctor_capacity patient_meta
    (build_domains patients doctors slots) = Schedule a →
  p ∈ patients →
  ∃ doc slot,
    a !! p_id p = Some (doc, slot)
    ∧ (∀ req, needs_specialist p ≠ 0 → specialty_required p = Some req →
              req ≠ EmptyString →
              ∃ d sp, d ∈ doctors ∧ d_id d = doc ∧ specialty d = Some sp
                      ∧ sp ≠ EmptyString ∧ Py.lower sp = Py.lower req)
    ∧ (pref_list p ≠ [] → slot ∈ pref_list p).
Proof.
  intros Hids Hres Hp.
  pose proof (build_domains_NoDup doctors slots patients) as Hnd.
  pose proof (build_domains_lookup doctors slots patients p Hids Hp) as Hdom.
  destruct (schedule_complete _ _ _ _ Hnd Hres) as [Hkeys _].
  destruct (proj1 (Hkeys (p_id p))) as [[doc slot] Hv].
  { apply dict_get_is_Some. by eexists. }
  exists doc, slot. split; [done|].
  pose proof (schedule_from_domains _ _ _ _ _ _ Hnd Hres Hv) as Hin.
  unfold dvals in Hin. rewrite Hdom in Hin. simpl in Hin.
  apply elem_of_allowed in Hin as (d & Hd & Hid & Hdoc & Hs & Hslot).
  split.
  - intros req Hneeds Hreq Hne. exists d.
    unfold doctor_skipped in Hdoc. rewrite Hreq in Hdoc. simpl in Hdoc.
    assert (Hflag : Py.truthy_int (needs_specialist p) = true).
    { unfold Py.truthy_int. by destruct (Z.eqb_spec (needs_specialist p) 0). }
    assert (Hpresent : negb (String.eqb req EmptyString) = true).
    { by destruct (String.eqb_spec req EmptyString). }
    rewrite Hflag, Hpresent in Hdoc. simpl in Hdoc.
    apply orb_false_elim in Hdoc as [Hsp Hlow].
    apply negb_false_iff in Hsp, Hlow.
    destruct (specialty d) as [sp|]; [|done]. simpl in Hsp, Hlow.
    exists sp. split_and!; try done.
    + intros ->. done.
    + by apply String.eqb_eq.
  - intros Hpref. unfold slot_skipped in Hslot.
    destruct (pref_list p) as [|x l]; [done|].
    apply negb_false_iff in Hslot. by apply str_in_elem_of.
Qed.

Lemma specialty_and_preference_respected_witness :
  let patients := [Patient 11 "Charlie" 0 None 0 None;
                   Patient 10 "Jane" 1 (Some "cardiology") 0 (Some "09:30, 10:00")] in
  let doctors := [Doctor 1 "Bob" (Some "General") 1;
                  Doctor 2 "Alice" (Some "Cardiology") 1] in
  let slots := ["09:00"; "09:30"] in
  NoDup (map p_id patients)
  ∧ backtracking_search {[1 := 1; 2 := 1]} ∅ (build_domains patients doctors slots)
    = Schedule {[10 := (2, "09:30"); 11 := (1, "09:00")]}
  ∧ ∃ doc slot,
      ({[10 := (2, "09:30"); 11 := (1, "09:00")]} : gmap Z value) !! 10
      = Some (doc, slot)
      ∧ (∀ req, 1 ≠ 0 → Some "cardiology" = Some req → req ≠ EmptyString →
                ∃ d sp, d ∈ doctors ∧ d_id d = doc ∧ specialty d = Some sp
                        ∧ sp ≠ EmptyString ∧ Py.lower sp = Py.lower req)
      ∧ (pref_list (Patient 10 "Jane" 1 (Some "cardiology") 0 (Some "09:30, 10:00")) ≠ []
         → slot ∈ pref_list (Patient 10 "Jane" 1 (Some "cardiology") 0 (Some "09:30, 10:00"))).
Proof.
  intros patients doctors slots.
  assert (H1 : NoDup (map p_id patients)).
  { apply (bool_decide_unpack _). vm_compute. exact I. }
  assert (H2 : backtracking_search {[1 := 1; 2 := 1]} ∅
                 (build_domains patients doctors slots)
               = Schedule {[10 := (2, "09:30"); 11 := (1, "09:00")]})
    by (vm_compute; reflexivity).
  assert (H3 : Patient 10 "Jane" 1 (Some "cardiology") 0 (Some "09:30, 10:00") ∈ patients).
  { apply list_elem_of_further, list_elem_of_here. }
  refine (conj H1 (conj H2 _)).
  exact (specialty_and_preference_respected _ _ _ _ _ _ _ H1 H2 H3).
Defined.

(** C10.  A patient whose [needs_specialist] is set while
    [specialty_required] is missing or empty skips no doctor: the domain
    [build_domains] gives the patient pairs every doctor with every slot the
    preference test lets through. *)
Theorem specialist_flag_without_specialty (patients : list patient)
    (doctors : list doctor) (slots : list string) (p : patient) :
  NoDup (map p_id patients) →
  p ∈ patients →
  needs_specialist p ≠ 0 →
  specialty_required p = None ∨ specialty_required p = Some EmptyString →
  (∀ d, doctor_skipped p d = false)
  ∧ dict_get (build_domains patients doctors slots) (p_id p)
    = Some (flat_map (λ d,
              map (λ slot, (d_id d, slot))
                  (filter (λ slot, slot_skipped (pref_list p) slot = false) slots))
              doctors).
Proof.
  intros Hids Hp _ Hreq.
  assert (Hskip : ∀ d, doctor_skipped p d = false).
  { intros d. unfold doctor_skipped.
    destruct Hreq as [-> | ->]; simpl; by rewrite andb_false_r. }
  split; [done|].
  rewrite (build_domains_lookup doctors slots patients p Hids Hp). f_equal.
  unfold allowed. induction doctors as [|d ds IH]; simpl; [done|].
  rewrite Hskip, IH. f_equal.
  clear. induction slots as [|s ss IHs]; simpl; [done|].
  rewrite filter_cons. destruct (slot_skipped (pref_list p) s) eqn:Hs.
  - rewrite decide_False by done. done.
  - rewrite decide_True by done. simpl. by rewrite IHs.
Qed.

Lemma specialist_flag_without_specialty_witness :
  let p := Patient 5 "Mallory" 1 (Some EmptyString) 0 None in
  let doctors := [Doctor 1 "Bob" (Some "General") 1; Doctor 2 "Alice" None 1] in
  NoDup (map p_id [p]) ∧ p ∈ [p] ∧ needs_specialist p ≠ 0
  ∧ dict_get (build_domains [p] doctors ["09:00"; "09:30"]) 5
    = Some [(1, "09:00"); (1, "09:30"); (2, "09:00"); (2, "09:30")].
Proof.
  intros p doctors.
  assert (H1 : NoDup (map p_id [p])) by apply NoDup_singleton.
  assert (H2 : p ∈ [p]) by apply list_elem_of_here.
  assert (H3 : needs_specialist p ≠ 0) by (vm_compute; discriminate).
  refine (conj H1 (conj H2 (conj H3 _))).
  exact (proj2 (specialist_flag_without_specialty [p] doctors ["09:00"; "09:30"] p
                  H1 H2 H3 (or_intror eq_refl))).
Defined.

(** C6.  [select_unassigned_var] draws from the unassigned emergency
    patients when there is one and from all unassigned patients otherwise;
    it returns the first patient of that pool, in the iteration order of
    [domains], among those with the fewest remaining values; it returns
    [None] exactly when no patient is unassigned. *)
Theorem select_unassigned_var_policy (doms : list (Z * list value))
    (asg : gmap Z value) (patient_meta : gmap Z meta) :
  let unassigned := filter (λ vid, asg !! vid = None) (dict_keys doms) in
  let emergencies := filter (λ v, is_emergency patient_meta v) unassigned in
  (select_unassigned_var doms asg patient_meta = None ↔ unassigned = [])
  ∧ ∀ v, select_unassigned_var doms asg patient_meta = Some v →
         (emergencies ≠ [] → first_smallest doms emergencies v)
         ∧ (emergencies = [] → first_smallest doms unassigned v).
Proof.
  intros unassigned emergencies.
  pose proof (select_unassigned_var_pool doms asg patient_meta) as Hsel.
  unfold pool_of in Hsel. fold unassigned in Hsel. fold emergencies in Hsel.
  split.
  - split.
    + intros Hnone. rewrite Hnone in Hsel.
      destruct emergencies as [|e es] eqn:He; [done|].
      rewrite <- He in Hsel. by rewrite Hsel in He.
    + intros Hempty.
      destruct (select_unassigned_var doms asg patient_meta) as [v|]; [|done].
      assert (He : emergencies = []) by (unfold emergencies; by rewrite Hempty).
      rewrite He, Hempty in Hsel. destruct Hsel as (pre & post & Hp & _).
      by destruct pre.
  - intros v Hv. rewrite Hv in Hsel. split.
    + intros Hne. by destruct emergencies.
    + intros He. by rewrite He in Hsel.
Qed.

(** C7.  One doctor of capacity 1 without specialty, one patient without
    emergency, specialty or preferred slot, two slots: the search succeeds
    and gives the patient that doctor at the earlier of the two slots. *)
Theorem single_patient_gets_earliest_slot (doc : Z) (doc_name : string)
    (pat : Z) (pat_name : string) (s1 s2 : string) :
  schedule_for_date [Doctor doc doc_name None 1]
                    [Patient pat pat_name 0 None 0 None] [s1; s2]
  = Searched (Schedule {[pat := (doc, if String.ltb s2 s1 then s2 else s1)]}).
Proof.
  assert (Hdomains : build_domains [Patient pat pat_name 0 None 0 None]
                       [Doctor doc doc_name None 1] [s1; s2]
                     = [(pat, [(doc, s1); (doc, s2)])]) by reflexivity.
  unfold schedule_for_date. rewrite Hdomains. f_equal.
  assert (Hroom : ∀ s : string, 0 < cap_limit (<[doc := 1]> ∅) (doc, s).1).
  { intros s. unfold cap_limit. simpl. by rewrite lookup_insert_eq. }
  destruct (String.ltb s2 s1) eqn:Hlt.
  - apply (backtracking_search_single _ _ _ _ (doc, s2) [(doc, s1)]); [|done].
    simpl. by rewrite Hlt.
  - apply (backtracking_search_single _ _ _ _ (doc, s1) [(doc, s2)]); [|done].
    simpl. by rewrite Hlt.
Qed.

(** C5, as amended.  Forward checking only removes values: each domain
    after it is a sub-list of the domain before.  When the forward check of a
    placement emptied no domain and the placement is undone at once, every
    domain is a permutation of what it was before the placement; a domain
    that lost nothing is unchanged, and a domain that lost values is the
    stable sort by slot of the kept values followed by the removed ones,
    hence ascending by slot, in an order that can differ from the earlier
    one.  Over a whole call of [backtrack] that returns [None], every domain
    ends with the same set of values it started with. *)
Theorem undo_restores_values_not_order (doctor_capacity : gmap Z Z)
    (patient_meta : gmap Z meta) :
  (∀ st var val failure st2 removed_snapshot,
     NoDup (dict_keys (domains st)) →
     propagate doctor_capacity (place var val st)
     = (failure, st2, removed_snapshot) →
     dict_keys (domains st2) = dict_keys (domains st)
     ∧ (∀ k, dvals (domains st2) k `sublist_of` dvals (domains st) k)
     ∧ (failure = false →
        let st' := undo var val removed_snapshot st2 in
        dict_keys (domains st') = dict_keys (domains st)
        ∧ ∀ k,
            dvals (domains st') k ≡ₚ dvals (domains st) k
            ∧ (dvals (domains st2) k = dvals (domains st) k →
               dvals (domains st') k = dvals (domains st) k)
            ∧ (dvals (domains st2) k ≠ dvals (domains st) k →
               dvals (domains st') k
               = sort_by_slot (dvals (domains st2) k ++ dvals removed_snapshot k)
               ∧ Sorted slot_le (dvals (domains st') k))))
  ∧ (∀ fuel st st',
       Inv doctor_capacity st →
       backtrack doctor_capacity patient_meta fuel st = (NoSchedule, st') →
       dict_keys (domains st') = dict_keys (domains st)
       ∧ ∀ k v, v ∈ dvals (domains st') k ↔ v ∈ dvals (domains st) k).
Proof.
  split.
  - intros st var val f st2 snap Hnd Hprop.
    destruct (propagate_spec _ _ _ _ _ Hprop Hnd)
      as (_ & _ & _ & Hk2 & Hsnd & Hsk & Hsub & _ & Hok).
    simpl in Hk2, Hsk, Hsub. split_and!; [done|done|].
    intros Hf st'. destruct (Hok Hf) as [Hperm _]. simpl in Hperm.
    destruct (restore_domains_spec snap (domains st2) Hsnd) as [Hkr Hr].
    { intros k Hk. rewrite Hk2. by apply Hsk. }
    subst st'. simpl. split; [by rewrite Hkr|].
    intros k. destruct (Hr k) as (Hp & Hsame & Hsort). split_and!.
    + by rewrite Hp, Hperm.
    + intros Heq. destruct (dvals snap k) as [|x xs] eqn:Hs.
      * unfold dvals at 1. rewrite Hsame by done. by fold (dvals (domains st2) k).
      * exfalso. pose proof (Hperm k) as Hlen. apply Permutation_length in Hlen.
        rewrite length_app, Heq, Hs in Hlen. simpl in Hlen. lia.
    + intros Hne. destruct (decide (dvals snap k = [])) as [Hs|Hs].
      * exfalso. apply Hne. apply sublist_same_length; [apply Hsub|].
        pose proof (Hperm k) as Hlen. apply Permutation_length in Hlen.
        rewrite length_app, Hs in Hlen. simpl in Hlen. lia.
      * rewrite Hsort by done. split; [done|]. apply sort_by_slot_sorted.
  - intros fuel st st' HI Hrun.
    pose proof (backtrack_post doctor_capacity patient_meta fuel st HI) as Hpost.
    unfold post in Hpost. rewrite Hrun in Hpost. simpl in Hpost.
    destruct Hpost as (_ & _ & Hk & Hm & _). done.
Qed.

Lemma undo_restores_values_not_order_witness :
  let st := initial_state reorder_domains in
  let r := propagate reorder_capacity (place 1 (1, "09:00") st) in
  NoDup (dict_keys (domains st))
  ∧ r.1.1 = false
  ∧ dvals (domains (undo 1 (1, "09:00") r.2 r.1.2)) 4 ≡ₚ dvals (domains st) 4
  ∧ Sorted slot_le (dvals (domains (undo 1 (1, "09:00") r.2 r.1.2)) 4).
Proof.
  intros st r.
  assert (H1 : NoDup (dict_keys (domains st))).
  { apply (bool_decide_unpack _). vm_compute. exact I. }
  assert (H2 : r.1.1 = false) by (vm_compute; reflexivity).
  assert (H3 : propagate reorder_capacity (place 1 (1, "09:00") st)
               = (r.1.1, r.1.2, r.2)).
  { unfold r. by destruct (propagate _ _) as [[? ?] ?]. }
  assert (H4 : dvals (domains r.1.2) 4 ≠ dvals (domains st) 4)
    by (vm_compute; discriminate).
  refine (conj H1 (conj H2 _)).
  destruct (proj1 (undo_restores_values_not_order reorder_capacity reorder_meta)
              st 1 (1, "09:00") _ _ _ H1 H3) as (_ & _ & Hundo).
  destruct (Hundo H2) as [_ Hall]. destruct (Hall 4) as (Hperm & _ & Hsorted).
  split; [exact Hperm|]. exact (proj2 (Hsorted H4)).
Defined.

(** C5 as stated fails: in the run on this input, patient 1 is placed first
    at (1, 09:00), forward checking empties no domain and takes (1, 09:00)
    away from patient 4; undoing the placement at once gives patient 4 the
    same four values in another order than before the placement. *)
Lemma undo_restores_values_not_order_counterexample :
  let st := initial_state reorder_domains in
  let r := propagate reorder_capacity (place 1 (1, "09:00") st) in
  select_unassigned_var (domains st) (assigned st) reorder_meta = Some 1
  ∧ head (sort_by_slot (dvals (domains st) 1)) = Some (1, "09:00")
  ∧ r.1.1 = false
  ∧ dvals (domains st) 4
    = [(1, "09:00"); (1, "09:30"); (2, "09:00"); (2, "09:30")]
  ∧ dvals (domains (undo 1 (1, "09:00") r.2 r.1.2)) 4
    = [(2, "09:00"); (1, "09:00"); (1, "09:30"); (2, "09:30")]
  ∧ domains (undo 1 (1, "09:00") r.2 r.1.2) ≠ domains st.
Proof.
  intros st r. split_and!; try (vm_compute; reflexivity).
  vm_compute. discriminate.
Qed.

(** The same run to its end: it returns [None], patient 4 is left in yet
    another order, and patient 2, whose whole domain a failed forward check
    had recorded as removed without replacing it, holds its only value
    twice. *)
Example failed_run_leaves_other_domains :
  let r := search_run reorder_capacity reorder_meta reorder_domains in
  r.1 = NoSchedule
  ∧ dvals reorder_domains 4
    = [(1, "09:00"); (1, "09:30"); (2, "09:00"); (2, "09:30")]
  ∧ dvals (domains r.2) 4
    = [(2, "09:00"); (1, "09:00"); (1, "09:30"); (2, "09:30")]
  ∧ dvals reorder_domains 2 = [(2, "09:00")]
  ∧ dvals (domains r.2) 2 = [(2, "09:00"); (2, "09:00")].
Proof. intros r. split_and!; vm_compute; reflexivity. Qed.

(** C9.  [backtracking_search] leaves every object of its caller as it
    was, whatever it returns: the store after the call is the store before
    it followed by the objects the call made.  So the dictionary passed in
    still has the same entries, and each of its lists the same elements in
    the same order. *)
Theorem caller_domains_untouched (doctor_capacity : gmap Z Z)
    (patient_meta : gmap Z meta) (h : list Store.obj) (dref : nat) :
  let final := Store.heap (Store.search_run doctor_capacity patient_meta h dref).2 in
  h `prefix_of` final
  ∧ (∀ ref, (ref < length h)%nat → final !! ref = h !! ref)
  ∧ ((dref < length h)%nat →
     (∀ k ref, (k, ref) ∈ Store.read_dict h dref → (ref < length h)%nat) →
     Store.read_dict final dref = Store.read_dict h dref
     ∧ Store.contents final dref = Store.contents h dref).
Proof.
  intros final.
  destruct (search_run_framed doctor_capacity patient_meta h dref) as [Hpre _].
  fold final in Hpre. split_and!; [done| |].
  - intros ref Href. symmetry. by apply prefix_lookup_lt.
  - intros Hdref Hrefs. split; [|by apply contents_prefix].
    unfold Store.read_dict. by rewrite <- (prefix_lookup_lt h final).
Qed.

Lemma caller_domains_untouched_witness :
  let r := Store.search_run reorder_capacity reorder_meta shared_store 2 in
  (2 < length shared_store)%nat
  ∧ (∀ k ref, (k, ref) ∈ Store.read_dict shared_store 2 →
              (ref < length shared_store)%nat)
  ∧ r.1 = NoSchedule
  ∧ dvals (Store.contents (Store.heap r.2) (Store.domains r.2)) 4
    = [(2, "09:00"); (1, "09:00"); (1, "09:30"); (2, "09:30")]
  ∧ Store.contents (Store.heap r.2) 2
    = [(1, [(1, "09:00"); (1, "09:30"); (2, "09:00"); (2, "09:30")]);
       (2, [(2, "09:00")]); (3, [(2, "09:00")]);
       (4, [(1, "09:00"); (1, "09:30"); (2, "09:00"); (2, "09:30")])].
Proof.
  intros r.
  assert (H1 : (2 < length shared_store)%nat) by (vm_compute; lia).
  assert (H2 : ∀ k ref, (k, ref) ∈ Store.read_dict shared_store 2 →
                        (ref < length shared_store)%nat).
  { intros k ref Hin. simpl in Hin.
    repeat (apply elem_of_cons in Hin as [[= -> ->]|Hin]; [simpl; lia|]).
    by apply elem_of_nil in Hin. }
  assert (H3 : r.1 = NoSchedule) by (vm_compute; reflexivity).
  assert (H4 : dvals (Store.contents (Store.heap r.2) (Store.domains r.2)) 4
               = [(2, "09:00"); (1, "09:00"); (1, "09:30"); (2, "09:30")])
    by (vm_compute; reflexivity).
  refine (conj H1 (conj H2 (conj H3 (conj H4 _)))).
  destruct (caller_domains_untouched reorder_capacity reorder_meta shared_store 2)
    as (_ & _ & Hsame).
  destruct (Hsame H1 H2) as [_ Hcontents]. fold r in Hcontents.
  rewrite Hcontents. vm_compute. reflexivity.
Defined.

(** * Further properties of the code *)

(** X1.  [backtracking_search] decides whether the domains admit a schedule:
    the mapping it returns gives every patient of [domains] one of the
    values of the patient's domain and keeps every occupied (doctor, slot)
    pair within the doctor's limit; and when it returns [None], no mapping
    does so.  The fuel of the embedding is never used up. *)
Theorem search_decides_feasibility (doctor_capacity : gmap Z Z)
    (patient_meta : gmap Z meta) (doms : list (Z * list value)) :
  NoDup (dict_keys doms) →
  match backtracking_search doctor_capacity patient_meta doms with
  | Schedule a => valid_schedule doctor_capacity doms a
  | NoSchedule => ∀ sol, ¬ valid_schedule doctor_capacity doms sol
  | OutOfFuel => False
  end.
Proof.
  intros Hnd.
  destruct (backtracking_search doctor_capacity patient_meta doms) as [| |a] eqn:Hrun.
  - by apply backtrack_total in Hrun.
  - intros sol Hsol.
    destruct (search_complete doctor_capacity patient_meta doms sol Hnd Hsol)
      as [a Ha].
    congruence.
  - by apply (search_sound doctor_capacity patient_meta).
Qed.

Lemma search_decides_feasibility_witness :
  NoDup (dict_keys [(10, [(1, "09:00")]); (11, [(1, "09:00")])])
  ∧ backtracking_search {[1 := 1]} ∅ [(10, [(1, "09:00")]); (11, [(1, "09:00")])]
    = NoSchedule
  ∧ ∀ sol, ¬ valid_schedule {[1 := 1]}
               [(10, [(1, "09:00")]); (11, [(1, "09:00")])] sol.
Proof.
  assert (H1 : NoDup (dict_keys [(10, [(1, "09:00")]); (11, [(1, "09:00")])]))
    by apply (bool_decide_unpack _), I.
  assert (H2 : backtracking_search {[1 := 1]} ∅
                 [(10, [(1, "09:00")]); (11, [(1, "09:00")])] = NoSchedule)
    by (vm_compute; reflexivity).
  refine (conj H1 (conj H2 _)).
  pose proof (search_decides_feasibility {[1 := 1]} ∅ _ H1) as H.
  rewrite H2 in H. exact H.
Defined.

(** X2.  When the forward check of a tentative placement fails at a patient
    [q], every value of [q] is taken at that moment, [domains[q]] has not
    been replaced, and the undo that follows appends the whole of it to
    itself: after the undo [domains[q]] is its former content twice over,
    sorted by slot. *)
Theorem failed_forward_check_doubles_domain (doctor_capacity : gmap Z Z)
    (st : state) (var : Z) (val : value) (st2 : state)
    (removed_snapshot : list (Z * list value)) :
  NoDup (dict_keys (domains st)) →
  propagate doctor_capacity (place var val st) = (true, st2, removed_snapshot) →
  ∃ q, q ∈ dict_keys (domains st) ∧ q ≠ var ∧ assigned st !! q = None
       ∧ (∀ v, v ∈ dvals (domains st) q →
               saturated doctor_capacity (capacity_map (place var val st)) v)
       ∧ dvals (domains (undo var val removed_snapshot st2)) q
         = sort_by_slot (app (dvals (domains st) q) (dvals (domains st) q)).
Proof. apply failed_check_doubles. Qed.

Lemma failed_forward_check_doubles_domain_witness :
  let st := initial_state [(10, [(1, "09:00")]); (11, [(1, "09:00")])] in
  let r := propagate {[1 := 1]} (place 10 (1, "09:00") st) in
  NoDup (dict_keys (domains st))
  ∧ r = (true, r.1.2, r.2)
  ∧ ∃ q, q ∈ dict_keys (domains st) ∧ q ≠ 10 ∧ assigned st !! q = None
         ∧ (∀ v, v ∈ dvals (domains st) q →
                 saturated {[1 := 1]} (capacity_map (place 10 (1, "09:00") st)) v)
         ∧ dvals (domains (undo 10 (1, "09:00") r.2 r.1.2)) q
           = sort_by_slot (app (dvals (domains st) q) (dvals (domains st) q)).
Proof.
  intros st r.
  assert (H1 : NoDup (dict_keys (domains st))) by apply (bool_decide_unpack _), I.
  assert (H2 : r = (true, r.1.2, r.2)) by (vm_compute; reflexivity).
  refine (conj H1 (conj H2 _)).
  exact (failed_forward_check_doubles_domain {[1 := 1]} st 10 (1, "09:00")
           r.1.2 r.2 H1 H2).
Defined.

(** X3.  At every write of [capacity_map] during a search, by a placement or
    by an undo, every counter the map holds is at most the limit of its
    doctor: the search never overbooks a pair, not even for the time of a
    tentative placement. *)
Theorem tracker_within_capacity_throughout (doctor_capacity : gmap Z Z)
    (patient_meta : gmap Z meta) (doms : list (Z * list value)) :
  NoDup (dict_keys doms) →
  Forall (event_within doctor_capacity)
         (trace (search_run doctor_capacity patient_meta doms).2).
Proof.
  intros Hnd. unfold search_run. apply backtrack_within.
  - by apply initial_state_Inv.
  - constructor.
Qed.

Lemma tracker_within_capacity_throughout_witness :
  NoDup (dict_keys [(10, [(1, "09:00")]); (11, [(1, "09:00"); (1, "09:30")])])
  ∧ length (trace (search_run {[1 := 1]} ∅
              [(10, [(1, "09:00")]); (11, [(1, "09:00"); (1, "09:30")])]).2) = 2%nat
  ∧ Forall (event_within {[1 := 1]})
           (trace (search_run {[1 := 1]} ∅
              [(10, [(1, "09:00")]); (11, [(1, "09:00"); (1, "09:30")])]).2).
Proof.
  assert (H1 : NoDup (dict_keys [(10, [(1, "09:00")]);
                                 (11, [(1, "09:00"); (1, "09:30")])]))
    by apply (bool_decide_unpack _), I.
  refine (conj H1 (conj _ _)); [vm_compute; reflexivity|].
  exact (tracker_within_capacity_throughout {[1 := 1]} ∅ _ H1).
Defined.

(** X4.  A search that fails leaves its closure variables as it found them:
    [assigned] and [capacity_map] are empty again, and the working copy of
    the domains has the keys it had, in the same order, each with the same
    values (possibly in another order and more than once). *)
Theorem failed_search_restores_state (doctor_capacity : gmap Z Z)
    (patient_meta : gmap Z meta) (doms : list (Z * list value)) :
  NoDup (dict_keys doms) →
  let r := search_run doctor_capacity patient_meta doms in
  r.1 = NoSchedule →
  assigned r.2 = ∅ ∧ capacity_map r.2 = ∅
  ∧ dict_keys (domains r.2) = dict_keys doms
  ∧ ∀ k v, v ∈ dvals (domains r.2) k ↔ v ∈ dvals doms k.
Proof.
  intros Hnd r Hfail.
  destruct (search_run_cases doctor_capacity patient_meta doms Hnd)
    as [(_ & Hcm & Hasg & Hkeys & Hvals & _)|(a & Ha & _)].
  - done.
  - fold r in Ha. congruence.
Qed.

Lemma failed_search_restores_state_witness :
  let doms := [(10, [(1, "09:00")]); (11, [(1, "09:00")])] in
  let r := search_run {[1 := 1]} ∅ doms in
  NoDup (dict_keys doms) ∧ r.1 = NoSchedule
  ∧ dvals (domains r.2) 11 = [(1, "09:00"); (1, "09:00")]
  ∧ assigned r.2 = ∅ ∧ capacity_map r.2 = ∅
  ∧ dict_keys (domains r.2) = dict_keys doms
  ∧ ∀ k v, v ∈ dvals (domains r.2) k ↔ v ∈ dvals doms k.
Proof.
  intros doms r.
  assert (H1 : NoDup (dict_keys doms)) by apply (bool_decide_unpack _), I.
  assert (H2 : r.1 = NoSchedule) by (vm_compute; reflexivity).
  assert (H3 : dvals (domains r.2) 11 = [(1, "09:00"); (1, "09:00")])
    by (vm_compute; reflexivity).
  refine (conj H1 (conj H2 (conj H3 _))).
  exact (failed_search_restores_state {[1 := 1]} ∅ doms H1 H2).
Defined.

(** X5.  When the patient rows have distinct ids, the keys of the
    dictionary [build_domains] returns are the ids of the rows in the order
    of the rows.  The order of the rows is therefore the order in which
    [select_unassigned_var] meets the patients, and decides its ties. *)
Theorem build_domains_keeps_patient_order (patients : list patient)
    (doctors : list doctor) (slots : list string) :
  NoDup (map p_id patients) →
  dict_keys (build_domains patients doctors slots) = map p_id patients.
Proof. apply build_domains_keys. Qed.

Lemma build_domains_keeps_patient_order_witness :
  let patients := [Patient 7 "Eve" 0 None 0 None; Patient 3 "Dan" 0 None 1 None] in
  NoDup (map p_id patients)
  ∧ dict_keys (build_domains patients [Doctor 1 "Alice" None 1] ["09:00"]) = [7; 3].
Proof.
  intros patients.
  assert (H1 : NoDup (map p_id patients)) by apply (bool_decide_unpack _), I.
  refine (conj H1 _).
  exact (build_domains_keeps_patient_order patients
           [Doctor 1 "Alice" None 1] ["09:00"] H1).
Defined.

(** X6.  [build_domains] does not ask for distinct ids: of several rows
    with one id, the last one gives the domain of the id, and the id is a
    key once. *)
Theorem build_domains_last_row_wins (before : list patient) (p : patient)
    (after : list patient) (doctors : list doctor) (slots : list string) :
  p_id p ∉ map p_id after →
  dict_get (build_domains (app before (p :: after)) doctors slots) (p_id p)
  = Some (allowed p doctors slots)
  ∧ NoDup (dict_keys (build_domains (app before (p :: after)) doctors slots)).
Proof.
  intros Hlast. split; [by apply build_domains_last_wins|].
  apply build_domains_NoDup.
Qed.

Lemma build_domains_last_row_wins_witness :
  let older := Patient 7 "Eve" 0 None 0 (Some "09:00") in
  let newer := Patient 7 "Eve" 0 None 0 (Some "09:30") in
  let doctors := [Doctor 1 "Alice" None 1] in
  (p_id newer ∉ map p_id [])
  ∧ build_domains [older; newer] doctors ["09:00"; "09:30"] = [(7, [(1, "09:30")])]
  ∧ dict_get (build_domains (app [older] (newer :: [])) doctors ["09:00"; "09:30"])
             (p_id newer)
    = Some (allowed newer doctors ["09:00"; "09:30"])
  ∧ NoDup (dict_keys (build_domains (app [older] (newer :: [])) doctors
                        ["09:00"; "09:30"])).
Proof.
  intros older newer doctors.
  assert (H1 : p_id newer ∉ map p_id []) by (simpl; apply not_elem_of_nil).
  refine (conj H1 (conj _ _)); [vm_compute; reflexivity|].
  exact (build_domains_last_row_wins [older] newer [] doctors
           ["09:00"; "09:30"] H1).
Defined.

(** X7.  If some patient has no doctor and slot that pass both tests of
    [build_domains], whether no doctor has the specialty, no slot is
    among the preferred ones, or there are no slots at all,
    [schedule_for_date] reports that no schedule is feasible, whatever the
    other patients ask for. *)
Theorem patient_without_candidate_fails (doctors : list doctor)
    (patients : list patient) (slots : list string) (p : patient) :
  doctors ≠ [] →
  NoDup (map p_id patients) →
  p ∈ patients →
  (∀ d slot, d ∈ doctors → slot ∈ slots →
             doctor_skipped p d = true ∨ slot_skipped (pref_list p) slot = true) →
  schedule_for_date doctors patients slots = Searched NoSchedule.
Proof.
  intros Hd Hnd (before & after & ->)%list_elem_of_split Hnone.
  apply schedule_dead_patient; [done| |by apply allowed_empty].
  rewrite map_app in Hnd. apply NoDup_app in Hnd as (_ & _ & Hnd).
  simpl in Hnd. by apply NoDup_cons in Hnd as [? _].
Qed.

Lemma patient_without_candidate_fails_witness :
  let doctors := [Doctor 1 "Alice" (Some "Cardiology") 1] in
  let p := Patient 7 "Eve" 1 (Some "Dermatology") 0 None in
  let patients := [Patient 3 "Dan" 0 None 0 None; p] in
  doctors ≠ [] ∧ NoDup (map p_id patients) ∧ p ∈ patients
  ∧ (∀ d slot, d ∈ doctors → slot ∈ ["09:00"] →
               doctor_skipped p d = true ∨ slot_skipped (pref_list p) slot = true)
  ∧ schedule_for_date doctors patients ["09:00"] = Searched NoSchedule.
Proof.
  intros doctors p patients.
  assert (H1 : doctors ≠ []) by discriminate.
  assert (H2 : NoDup (map p_id patients)) by apply (bool_decide_unpack _), I.
  assert (H3 : p ∈ patients) by (right; left).
  assert (H4 : ∀ d slot, d ∈ doctors → slot ∈ ["09:00"] →
             doctor_skipped p d = true ∨ slot_skipped (pref_list p) slot = true).
  { intros d slot Hd _. apply list_elem_of_singleton in Hd as ->.
    left. vm_compute. reflexivity. }
  refine (conj H1 (conj H2 (conj H3 (conj H4 _)))).
  exact (patient_without_candidate_fails doctors patients ["09:00"] p H1 H2 H3 H4).
Defined.

(** X8.  Specialties are compared without regard to case: putting the
    specialty of every doctor and the required specialty of every patient
    in lower case gives the same domains. *)
Theorem specialty_match_ignores_case (patients : list patient)
    (doctors : list doctor) (slots : list string) :
  build_domains (map with_lower_required patients)
                (map with_lower_specialty doctors) slots
  = build_domains patients doctors slots.
Proof. unfold build_domains. apply fold_domains_lower. Qed.

(** X9.  [add_patient] stores a preference list as one text, and
    [build_domains] reads the text back as the same list, provided no entry
    is empty, begins or ends with a space, or holds a comma. *)
Theorem stored_preference_round_trip (id : Z) (name : string) (needs : Z)
    (required : option string) (emerg : Z) (l : list string) :
  Forall clean_entry l →
  pref_list (Patient id name needs required emerg (stored_preferred_slots (Some l)))
  = l.
Proof. intros Hall. by apply pref_list_stored. Qed.

Lemma stored_preference_round_trip_witness :
  Forall clean_entry ["09:00"; "10:30"]
  ∧ stored_preferred_slots (Some ["09:00"; "10:30"]) = Some "09:00,10:30"
  ∧ pref_list (Patient 7 "Eve" 0 None 0
                 (stored_preferred_slots (Some ["09:00"; "10:30"])))
    = ["09:00"; "10:30"].
Proof.
  assert (H1 : Forall clean_entry ["09:00"; "10:30"]).
  { repeat constructor; try discriminate; vm_compute; reflexivity. }
  refine (conj H1 (conj _ _)); [vm_compute; reflexivity|].
  exact (stored_preference_round_trip 7 "Eve" 0 None 0 ["09:00"; "10:30"] H1).
Defined.

(** X10.  For a patient added through the dialogs, the preference list
    [build_domains] reads from the row is the list [on_add_patient] made of
    the answer; its entries are not empty, have no space at either end and
    no comma.  An answer of blanks and commas only gives the empty list,
    which restricts nothing.  The required specialty is recorded only when
    the patient needs a specialist. *)
Theorem dialog_preference_round_trip (id : Z) (name : option string)
    (needs_spec : bool) (spec_answer : option string) (emergency_answer : bool)
    (pref : option string) (p : patient) :
  on_add_patient id name needs_spec spec_answer emergency_answer pref = Some p →
  pref_list p = default [] (typed_preferred_slots pref)
  ∧ Forall clean_entry (pref_list p)
  ∧ (needs_specialist p = 0 → specialty_required p = None).
Proof.
  unfold on_add_patient. destruct (Py.truthy_str name); [|done].
  intros [= <-]. simpl needs_specialist. simpl specialty_required.
  destruct (pref_list_typed
              {| p_id := id; p_name := default EmptyString name;
                 needs_specialist := if needs_spec then 1 else 0;
                 specialty_required := if needs_spec then spec_answer else None;
                 emergency := if emergency_answer then 1 else 0;
                 preferred_slots :=
                   stored_preferred_slots (typed_preferred_slots pref) |}
              pref eq_refl) as [Hlist Hclean].
  split_and!; [done..|]. by destruct needs_spec.
Qed.

Lemma dialog_preference_round_trip_witness :
  let p := Patient 7 "Eve" 0 None 1 (Some "09:30,10:00") in
  on_add_patient 7 (Some "Eve") false None true (Some " 09:30 , ,10:00") = Some p
  ∧ pref_list p = ["09:30"; "10:00"]
  ∧ pref_list p = default [] (typed_preferred_slots (Some " 09:30 , ,10:00"))
  ∧ Forall clean_entry (pref_list p)
  ∧ (needs_specialist p = 0 → specialty_required p = None).
Proof.
  intros p.
  assert (H1 : on_add_patient 7 (Some "Eve") false None true
                 (Some " 09:30 , ,10:00") = Some p) by (vm_compute; reflexivity).
  refine (conj H1 (conj _ _)); [vm_compute; reflexivity|].
  exact (dialog_preference_round_trip 7 (Some "Eve") false None true
           (Some " 09:30 , ,10:00") p H1).
Defined.

(** X11.  For times that [strptime] accepts and a step that is positive (and
    small enough for the last sum to be a date), [generate_slots] returns
    the times [start], [start + step], ... that come before [end], each
    written as hours and minutes, and nothing else; 1440 turns of the loop
    are enough for any such call. *)
Theorem generate_slots_positive_step (fuel : nat) (start end_ : string)
    (slot_minutes s e : Z) :
  Time.strptime start = Some s →
  Time.strptime end_ = Some e →
  0 < slot_minutes ≤ Time.datetime_max - 1439 →
  (1440 ≤ fuel)%nat →
  generate_slots fuel start end_ slot_minutes
  = Slots (map Time.strftime (slot_times s slot_minutes (slot_count s e slot_minutes)))
  ∧ ∀ t, t ∈ slot_times s slot_minutes (slot_count s e slot_minutes)
         ↔ ∃ k : nat, t = s + Z.of_nat k * slot_minutes ∧ t < e.
Proof.
  intros Hs He [Hstep Hmax] Hfuel. unfold generate_slots. rewrite Hs, He.
  pose proof (strptime_range _ _ Hs). pose proof (strptime_range _ _ He).
  split; [apply slots_loop_positive; lia|].
  intros t. rewrite elem_of_slot_times. split.
  - intros (k & Hk & ->). exists k. split; [done|]. by apply slot_count_lt.
  - intros (k & -> & Hk). exists k. split; [|done]. by apply slot_count_lt.
Qed.

Lemma generate_slots_positive_step_witness :
  Time.strptime "9:00" = Some 540
  ∧ Time.strptime "10:15" = Some 615
  ∧ 0 < 30 ≤ Time.datetime_max - 1439
  ∧ (1440 ≤ 1440)%nat
  ∧ map Time.strftime (slot_times 540 30 (slot_count 540 615 30))
    = ["09:00"; "09:30"; "10:00"]
  ∧ generate_slots 1440 "9:00" "10:15" 30
    = Slots (map Time.strftime (slot_times 540 30 (slot_count 540 615 30)))
  ∧ ∀ t, t ∈ slot_times 540 30 (slot_count 540 615 30)
         ↔ ∃ k : nat, t = 540 + Z.of_nat k * 30 ∧ t < 615.
Proof.
  assert (H1 : Time.strptime "9:00" = Some 540) by (vm_compute; reflexivity).
  assert (H2 : Time.strptime "10:15" = Some 615) by (vm_compute; reflexivity).
  assert (H3 : 0 < 30 ≤ Time.datetime_max - 1439) by (vm_compute; split; congruence).
  assert (H4 : (1440 ≤ 1440)%nat) by lia.
  refine (conj H1 (conj H2 (conj H3 (conj H4 (conj _ _)))));
    [vm_compute; reflexivity|].
  exact (generate_slots_positive_step 1440 "9:00" "10:15" 30 540 615 H1 H2 H3 H4).
Defined.

(** X12.  Under the same conditions the slots [generate_slots] returns are
    in strictly ascending order as strings, the order [list.sort] uses on
    them; so they are distinct, [sort(key=slot)] orders values by time, and
    each slot is read back by [strptime] as a time from [start] on and
    before [end]. *)
Theorem generated_slots_ascending (fuel : nat) (start end_ : string)
    (slot_minutes s e : Z) :
  Time.strptime start = Some s →
  Time.strptime end_ = Some e →
  0 < slot_minutes ≤ Time.datetime_max - 1439 →
  (1440 ≤ fuel)%nat →
  ∃ slots, generate_slots fuel start end_ slot_minutes = Slots slots
    ∧ StronglySorted str_lt slots
    ∧ NoDup slots
    ∧ ∀ x, x ∈ slots → ∃ t, Time.strptime x = Some t ∧ s ≤ t < e.
Proof.
  intros Hs He [Hstep Hmax] Hfuel. unfold generate_slots. rewrite Hs, He.
  pose proof (strptime_range _ _ Hs) as Hsr.
  pose proof (strptime_range _ _ He) as Her.
  eexists. split; [apply slots_loop_positive; lia|].
  assert (Hday : ∀ k : nat, (k < slot_count s e slot_minutes)%nat →
                   s + Z.of_nat k * slot_minutes < 1440).
  { intros k Hk%slot_count_lt; lia. }
  assert (Hsorted : StronglySorted str_lt
            (map Time.strftime
                 (slot_times s slot_minutes (slot_count s e slot_minutes))))
    by (apply slots_sorted; [lia|done|done]).
  split_and!; [done|by apply str_lt_sorted_NoDup|].
  intros x Hx.
  destruct (slots_parse_back s slot_minutes _ x ltac:(lia) ltac:(lia) Hday Hx)
    as (t & Ht & _ & Hparse).
  exists t. split; [done|].
  apply elem_of_slot_times in Ht as (k & Hk & ->).
  apply slot_count_lt in Hk; [|done]. nia.
Qed.

Lemma generated_slots_ascending_witness :
  Time.strptime "09:00" = Some 540
  ∧ Time.strptime "17:00" = Some 1020
  ∧ 0 < 30 ≤ Time.datetime_max - 1439
  ∧ (1440 ≤ 1440)%nat
  ∧ ∃ slots, generate_slots 1440 "09:00" "17:00" 30 = Slots slots
      ∧ StronglySorted str_lt slots
      ∧ NoDup slots
      ∧ ∀ x, x ∈ slots → ∃ t, Time.strptime x = Some t ∧ 540 ≤ t < 1020.
Proof.
  assert (H1 : Time.strptime "09:00" = Some 540) by (vm_compute; reflexivity).
  assert (H2 : Time.strptime "17:00" = Some 1020) by (vm_compute; reflexivity).
  assert (H3 : 0 < 30 ≤ Time.datetime_max - 1439) by (vm_compute; split; congruence).
  assert (H4 : (1440 ≤ 1440)%nat) by lia.
  refine (conj H1 (conj H2 (conj H3 (conj H4 _)))).
  exact (generated_slots_ascending 1440 "09:00" "17:00" 30 540 1020 H1 H2 H3 H4).
Defined.

(** X13.  With [start] before [end] and a step that is not positive,
    [generate_slots] never returns a list: with a step of zero the test of
    its loop holds for ever, with a negative step it walks back through the
    calendar until the sum is no date and [OverflowError] is raised (the
    memory the growing list takes is not part of the embedding). *)
Theorem generate_slots_nonpositive_step (start end_ : string)
    (slot_minutes s e : Z) :
  Time.strptime start = Some s →
  Time.strptime end_ = Some e →
  s < e →
  slot_minutes ≤ 0 →
  (∀ fuel slots, generate_slots fuel start end_ slot_minutes ≠ Slots slots)
  ∧ (slot_minutes = 0 →
     ∀ fuel, generate_slots fuel start end_ slot_minutes = Unfinished)
  ∧ (slot_minutes < 0 →
     ∃ fuel, generate_slots fuel start end_ slot_minutes = Raised OverflowError).
Proof.
  intros Hs He Hlt Hstep. unfold generate_slots. rewrite Hs, He.
  pose proof (strptime_range _ _ Hs) as Hsr.
  assert (Hcal : Time.datetime_min ≤ s ≤ Time.datetime_max)
    by (unfold Time.datetime_min, Time.datetime_max; lia).
  split_and!.
  - intros fuel slots. destruct (decide (slot_minutes = 0)) as [->|Hne].
    + by rewrite slots_loop_zero.
    + destruct (slots_loop_negative fuel s e slot_minutes [] ltac:(lia) Hlt)
        as [-> | ->]; done.
  - intros -> fuel. by apply slots_loop_zero.
  - intros Hneg. exists (S (Z.to_nat (s - Time.datetime_min))).
    apply slots_loop_negative_raises; [done|done|lia|lia].
Qed.

Lemma generate_slots_nonpositive_step_witness :
  Time.strptime "09:00" = Some 540
  ∧ Time.strptime "17:00" = Some 1020
  ∧ 540 < 1020
  ∧ 0 ≤ 0
  ∧ (∀ fuel slots, generate_slots fuel "09:00" "17:00" 0 ≠ Slots slots)
  ∧ (0 = 0 → ∀ fuel, generate_slots fuel "09:00" "17:00" 0 = Unfinished)
  ∧ (0 < 0 → ∃ fuel, generate_slots fuel "09:00" "17:00" 0 = Raised OverflowError).
Proof.
  assert (H1 : Time.strptime "09:00" = Some 540) by (vm_compute; reflexivity).
  assert (H2 : Time.strptime "17:00" = Some 1020) by (vm_compute; reflexivity).
  assert (H3 : 540 < 1020) by lia.
  assert (H4 : 0 ≤ 0) by lia.
  refine (conj H1 (conj H2 (conj H3 (conj H4 _)))).
  exact (generate_slots_nonpositive_step "09:00" "17:00" 0 540 1020 H1 H2 H3 H4).
Defined.

(** X14.  When [end] is not after [start], [generate_slots] returns the
    empty list whatever the step, and [schedule_for_date], given doctors
    and patients, then reports that no schedule is feasible. *)
Theorem empty_range_gives_no_schedule (fuel : nat) (start end_ : string)
    (slot_minutes s e : Z) (doctors : list doctor) (patients : list patient) :
  Time.strptime start = Some s →
  Time.strptime end_ = Some e →
  e ≤ s →
  doctors ≠ [] →
  patients ≠ [] →
  generate_slots (S fuel) start end_ slot_minutes = Slots []
  ∧ schedule_for_date doctors patients [] = Searched NoSchedule.
Proof.
  intros Hs He Hle Hd Hp. split; [|by apply schedule_without_slots].
  unfold generate_slots. rewrite Hs, He. simpl.
  by rewrite (proj2 (Z.ltb_ge s e)).
Qed.

Lemma empty_range_gives_no_schedule_witness :
  Time.strptime "17:00" = Some 1020
  ∧ Time.strptime "09:00" = Some 540
  ∧ 540 ≤ 1020
  ∧ [Doctor 1 "Alice" None 1] ≠ []
  ∧ [Patient 7 "Eve" 0 None 0 None] ≠ []
  ∧ generate_slots 1 "17:00" "09:00" 30 = Slots []
  ∧ schedule_for_date [Doctor 1 "Alice" None 1] [Patient 7 "Eve" 0 None 0 None] []
    = Searched NoSchedule.
Proof.
  assert (H1 : Time.strptime "17:00" = Some 1020) by (vm_compute; reflexivity).
  assert (H2 : Time.strptime "09:00" = Some 540) by (vm_compute; reflexivity).
  assert (H3 : 540 ≤ 1020) by lia.
  assert (H4 : [Doctor 1 "Alice" None 1] ≠ []) by discriminate.
  assert (H5 : [Patient 7 "Eve" 0 None 0 None] ≠ []) by discriminate.
  refine (conj H1 (conj H2 (conj H3 (conj H4 (conj H5 _))))).
  exact (empty_range_gives_no_schedule 0 "17:00" "09:00" 30 1020 540
           [Doctor 1 "Alice" None 1] [Patient 7 "Eve" 0 None 0 None]
           H1 H2 H3 H4 H5).
Defined.

(** X15.  A string [strptime] accepts for the format of [generate_slots] is
    a time of the day, and [strptime] reads the text [strftime] writes for
    it as the same time: the written form, two digits for the hour and two
    for the minute, is one of the accepted forms of every accepted time. *)
Theorem strptime_reads_what_strftime_writes (text : string) (t : Z) :
  Time.strptime text = Some t →
  0 ≤ t < 1440 ∧ Time.strptime (Time.strftime t) = Some t.
Proof.
  intros Ht%strptime_range. split; [done|].
  rewrite strptime_strftime. f_equal. by apply Z.mod_small.
Qed.

Lemma strptime_reads_what_strftime_writes_witness :
  Time.strptime "9:5" = Some 545
  ∧ Time.strftime 545 = "09:05"
  ∧ 0 ≤ 545 < 1440 ∧ Time.strptime (Time.strftime 545) = Some 545.
Proof.
  assert (H1 : Time.strptime "9:5" = Some 545) by (vm_compute; reflexivity).
  refine (conj H1 (conj _ _)); [vm_compute; reflexivity|].
  exact (strptime_reads_what_strftime_writes "9:5" 545 H1).
Defined.

(** X16.  [schedule_for_date] always answers, and in one of three ways: it
    refuses with the message about doctors exactly when there is no doctor,
    with the message about patients exactly when there are doctors and no
    patient, and otherwise runs the search, which ends with a schedule or
    with none; duplicate ids among the rows do not change this. *)
Theorem schedule_for_date_answers (doctors : list doctor)
    (patients : list patient) (slots : list string) :
  match schedule_for_date doctors patients slots with
  | Refused message =>
      (doctors = [] ∧ message = "No doctors registered.")
      ∨ (doctors ≠ [] ∧ patients = [] ∧ message = "No patients registered.")
  | Searched o => doctors ≠ [] ∧ patients ≠ [] ∧ o ≠ OutOfFuel
  end.
Proof.
  destruct doctors as [|d doctors]; [by left|].
  destruct patients as [|p patients]; [by right|].
  rewrite schedule_for_date_searched by done. split_and!; [done..|].
  apply backtrack_total, build_domains_NoDup.
Qed.

(** X17.  A schedule returned by [schedule_for_date] for rows with distinct
    ids has one appointment for each patient row; the appointment is with a
    doctor of the list that passes the specialty test for the patient, in a
    slot of the list that passes the preference test, and the patients who
    share that doctor and slot are at most the [capacity_per_slot] of the
    doctor's row.  So a doctor whose capacity is zero or less gets no
    patient, and the default limit of [doctor_capacity.get] is not used. *)
Theorem schedule_for_date_respects_rows (doctors : list doctor)
    (patients : list patient) (slots : list string) (a : gmap Z value) :
  NoDup (map d_id doctors) →
  NoDup (map p_id patients) →
  schedule_for_date doctors patients slots = Searched (Schedule a) →
  size a = length patients
  ∧ ∀ p, p ∈ patients →
      ∃ d slot,
        a !! p_id p = Some (d_id d, slot)
        ∧ d ∈ doctors ∧ slot ∈ slots
        ∧ doctor_skipped p d = false
        ∧ slot_skipped (pref_list p) slot = false
        ∧ 1 ≤ Z.of_nat (occupancy a (d_id d, slot)) ≤ capacity_per_slot d.
Proof.
  intros Hdocs Hpats Hrun.
  assert (Hd : doctors ≠ []) by (intros ->; discriminate).
  assert (Hp : patients ≠ []) by (intros ->; by destruct doctors).
  rewrite schedule_for_date_searched in Hrun by done. injection Hrun as Hrun.
  pose proof (build_domains_NoDup doctors slots patients) as Hnd.
  destruct (schedule_complete _ _ _ _ Hnd Hrun) as [Hall Hsize].
  split; [by rewrite Hsize, build_domains_length|].
  intros p Hin.
  assert (Hkey : p_id p ∈ dict_keys (build_domains patients doctors slots)).
  { apply build_domains_elem_of_keys. by apply list_elem_of_fmap_2. }
  apply Hall in Hkey as [[doc slot] Hval].
  pose proof (schedule_from_domains _ _ _ _ _ _ Hnd Hrun Hval) as Hdom.
  unfold dvals in Hdom.
  rewrite (build_domains_lookup doctors slots patients p Hpats Hin) in Hdom.
  simpl in Hdom. apply elem_of_allowed in Hdom as (d & Hd' & <- & Hok & Hs & Hslot).
  exists d, slot. split_and!; try done.
  - assert (0 < occupancy a (d_id d, slot))%nat; [|lia].
    unfold occupancy. apply Nat.neq_0_lt_0. intros Hzero%map_size_empty_inv.
    assert (Hf : filter (λ kv : Z * value, kv.2 = (d_id d, slot)) a !! p_id p
                 = Some (d_id d, slot)) by (by apply map_lookup_filter_Some).
    rewrite Hzero in Hf. by rewrite lookup_empty in Hf.
  - rewrite <- (capacity_of_rows_lookup doctors d Hdocs Hd').
    apply (schedule_occupied_within_capacity _ _ _ _ (d_id d, slot) Hnd Hrun).
    unfold occupancy. apply Nat.neq_0_lt_0. intros Hzero%map_size_empty_inv.
    assert (Hf : filter (λ kv : Z * value, kv.2 = (d_id d, slot)) a !! p_id p
                 = Some (d_id d, slot)) by (by apply map_lookup_filter_Some).
    rewrite Hzero in Hf. by rewrite lookup_empty in Hf.
Qed.

Lemma schedule_for_date_respects_rows_witness :
  let doctors := [Doctor 1 "Alice" (Some "Cardiology") 0;
                  Doctor 2 "Bob" (Some "General") 2] in
  let patients := [Patient 7 "Eve" 0 None 0 None; Patient 3 "Dan" 0 None 1 None] in
  let a : gmap Z value := {[3 := (2, "09:00"); 7 := (2, "09:00")]} in
  NoDup (map d_id doctors) ∧ NoDup (map p_id patients)
  ∧ schedule_for_date doctors patients ["09:00"] = Searched (Schedule a)
  ∧ size a = length patients
  ∧ ∀ p, p ∈ patients →
      ∃ d slot,
        a !! p_id p = Some (d_id d, slot)
        ∧ d ∈ doctors ∧ slot ∈ ["09:00"]
        ∧ doctor_skipped p d = false
        ∧ slot_skipped (pref_list p) slot = false
        ∧ 1 ≤ Z.of_nat (occupancy a (d_id d, slot)) ≤ capacity_per_slot d.
Proof.
  intros doctors patients a.
  assert (H1 : NoDup (map d_id doctors)) by apply (bool_decide_unpack _), I.
  assert (H2 : NoDup (map p_id patients)) by apply (bool_decide_unpack _), I.
  assert (H3 : schedule_for_date doctors patients ["09:00"] = Searched (Schedule a))
    by (vm_compute; reflexivity).
  refine (conj H1 (conj H2 (conj H3 _))).
  exact (schedule_for_date_respects_rows doctors patients ["09:00"] a H1 H2 H3).
Defined.

(** X18.  When the rows have distinct ids, the slots are distinct, no
    capacity is negative, and there are more patients than the doctors can
    see in all slots together, [schedule_for_date] reports that no schedule
    is feasible. *)
Theorem too_many_patients_fail (doctors : list doctor)
    (patients : list patient) (slots : list string) :
  doctors ≠ [] →
  NoDup (map d_id doctors) →
  NoDup (map p_id patients) →
  NoDup slots →
  (∀ d, d ∈ doctors → 0 ≤ capacity_per_slot d) →
  Z.of_nat (length slots) * capacity_per_round doctors < Z.of_nat (length patients) →
  schedule_for_date doctors patients slots = Searched NoSchedule.
Proof.
  intros Hd Hdocs Hpats Hslots Hpos Hfew.
  assert (Hp : patients ≠ []).
  { intros ->. simpl in Hfew.
    assert (0 ≤ capacity_per_round doctors); [|lia].
    clear -Hpos. induction doctors as [|d doctors IH]; simpl; [done|].
    pose proof (Hpos d ltac:(left)).
    assert (0 ≤ capacity_per_round doctors); [|lia].
    apply IH. intros d' Hd'. apply Hpos. by right. }
  rewrite schedule_for_date_searched by done. f_equal.
  apply (search_pigeonhole _ _ _ (all_pairs doctors slots)).
  - apply build_domains_NoDup.
  - by apply all_pairs_NoDup.
  - intros k [doc slot] Hv.
    apply build_domains_values in Hv as (p & _ & _ & Hv); [|done].
    apply elem_of_allowed in Hv as (d & Hd' & <- & _ & Hs & _).
    apply elem_of_all_pairs. eauto.
  - intros [doc slot] [(d & Hd' & <-) _]%elem_of_all_pairs. simpl.
    rewrite capacity_of_rows_lookup by done. by apply Hpos.
  - rewrite build_domains_length by done.
    rewrite capacity_total_all_pairs; [done|].
    intros d Hd'. by apply capacity_of_rows_lookup.
Qed.

Lemma too_many_patients_fail_witness :
  let doctors := [Doctor 1 "Alice" None 1; Doctor 2 "Bob" None 0] in
  let patients := [Patient 7 "Eve" 0 None 0 None; Patient 3 "Dan" 0 None 1 None] in
  doctors ≠ [] ∧ NoDup (map d_id doctors) ∧ NoDup (map p_id patients)
  ∧ NoDup ["09:00"]
  ∧ (∀ d, d ∈ doctors → 0 ≤ capacity_per_slot d)
  ∧ Z.of_nat (length ["09:00"]) * capacity_per_round doctors
    < Z.of_nat (length patients)
  ∧ schedule_for_date doctors patients ["09:00"] = Searched NoSchedule.
Proof.
  intros doctors patients.
  assert (H1 : doctors ≠ []) by discriminate.
  assert (H2 : NoDup (map d_id doctors)) by apply (bool_decide_unpack _), I.
  assert (H3 : NoDup (map p_id patients)) by apply (bool_decide_unpack _), I.
  assert (H4 : NoDup ["09:00"]) by apply (bool_decide_unpack _), I.
  assert (H5 : ∀ d, d ∈ doctors → 0 ≤ capacity_per_slot d).
  { intros d Hd. repeat (apply elem_of_cons in Hd as [->|Hd]; [simpl; lia|]).
    by apply elem_of_nil in Hd. }
  assert (H6 : Z.of_nat (length ["09:00"]) * capacity_per_round doctors
               < Z.of_nat (length patients)) by (vm_compute; reflexivity).
  refine (conj H1 (conj H2 (conj H3 (conj H4 (conj H5 (conj H6 _)))))).
  exact (too_many_patients_fail doctors patients ["09:00"] H1 H2 H3 H4 H5 H6).
Defined.

(** X19.  The search run on the objects of a caller, where the working
    lists are mutated in place and the lists of the caller may be shared
    between keys, returns what the search on plain values returns for the
    contents of the caller's dictionary: sharing and mutation do not reach
    the result. *)
Theorem store_search_returns_the_same (doctor_capacity : gmap Z Z)
    (patient_meta : gmap Z meta) (h : list Store.obj) (dref : nat) :
  NoDup (dict_keys (Store.read_dict h dref)) →
  (∀ k ref, (k, ref) ∈ Store.read_dict h dref → (ref < length h)%nat) →
  Store.backtracking_search doctor_capacity patient_meta h dref
  = backtracking_search doctor_capacity patient_meta (Store.contents h dref).
Proof. apply store_search_agrees. Qed.

Lemma store_search_returns_the_same_witness :
  let h := [Store.ListObj [(1, "09:00"); (1, "09:30")];
            Store.DictObj [(7, 0%nat); (3, 0%nat)]] in
  NoDup (dict_keys (Store.read_dict h 1))
  ∧ (∀ k ref, (k, ref) ∈ Store.read_dict h 1 → (ref < length h)%nat)
  ∧ Store.backtracking_search {[1 := 1]} ∅ h 1
    = Schedule {[7 := (1, "09:00"); 3 := (1, "09:30")]}
  ∧ Store.backtracking_search {[1 := 1]} ∅ h 1
    = backtracking_search {[1 := 1]} ∅ (Store.contents h 1).
Proof.
  intros h.
  assert (H1 : NoDup (dict_keys (Store.read_dict h 1)))
    by apply (bool_decide_unpack _), I.
  assert (H2 : ∀ k ref, (k, ref) ∈ Store.read_dict h 1 → (ref < length h)%nat).
  { intros k ref Hin. simpl in Hin.
    repeat (apply elem_of_cons in Hin as [[= -> ->]|Hin]; [simpl; lia|]).
    by apply elem_of_nil in Hin. }
  refine (conj H1 (conj H2 (conj _ _))); [vm_compute; reflexivity|].
  exact (store_search_returns_the_same {[1 := 1]} ∅ h 1 H1 H2).
Defined.

(** X20.  When every doctor row was made by [on_add_doctor], whose capacity
    dialog gives no answer or a number from 1 on, the limit
    [schedule_for_date] hands to the search is at least 1 for every doctor
    id, with a row or without, and each row has a specialty that is a
    string, possibly the empty one. *)
Theorem dialog_doctors_have_room (doctors : list doctor) :
  Forall from_doctor_dialog doctors →
  (∀ k, 1 ≤ cap_limit (capacity_of_rows doctors) k)
  ∧ ∀ d, d ∈ doctors → is_Some (specialty d) ∧ 1 ≤ capacity_per_slot d.
Proof.
  intros Hall. rewrite Forall_forall in Hall.
  assert (Hcap : ∀ d, d ∈ doctors → 1 ≤ capacity_per_slot d).
  { intros d (id & name & sp & cap & Hrow & Hanswer)%Hall.
    by eapply on_add_doctor_capacity. }
  split; [intros k; by apply capacity_of_rows_ge|].
  intros d Hd. split; [|by apply Hcap].
  apply Hall in Hd as (id & name & sp & cap & Hrow & _).
  unfold on_add_doctor in Hrow. destruct (Py.truthy_str name); [|done].
  injection Hrow as <-. by eexists.
Qed.

Lemma dialog_doctors_have_room_witness :
  let doctors := [Doctor 1 "Alice" (Some EmptyString) 1;
                  Doctor 2 "Bob" (Some "General") 3] in
  Forall from_doctor_dialog doctors
  ∧ (∀ k, 1 ≤ cap_limit (capacity_of_rows doctors) k)
  ∧ ∀ d, d ∈ doctors → is_Some (specialty d) ∧ 1 ≤ capacity_per_slot d.
Proof.
  intros doctors.
  assert (H1 : Forall from_doctor_dialog doctors).
  { repeat constructor.
    - exists 1, (Some "Alice"), None, None. split; [vm_compute; reflexivity|exact I].
    - exists 2, (Some "Bob"), (Some "General"), (Some 3).
      split; [vm_compute; reflexivity|simpl; lia]. }
  refine (conj H1 _).
  exact (dialog_doctors_have_room doctors H1).
Defined.
